(** * YouTube analytics store: the historical metrics database

    A shallow embedding of [youtube_analytics_db.py] (class
    [YouTubeAnalyticsDB]) and the properties of its store and sync
    operations.

    The SQLite file is modelled by its two tables, each a list of rows in
    rowid order.  A row has the columns that carry the program's data.
    The [id] of a metric (AUTOINCREMENT) and the [created_at] and
    [updated_at] timestamps (SQLite's CURRENT_TIMESTAMP) are assigned by
    SQLite; no statement of the program selects them, and they are left
    out of the rows.  Values are taken inside the ranges SQLite stores:
    Python's [int] is [Z] and [str] is [string]. *)

From stdpp Require Import gmap strings list sorting.

Local Open Scope Z_scope.

(** ** Calendar dates

    A [datetime.date] is modelled by its proleptic Gregorian ordinal
    ([date.toordinal()]): the library compares dates in ordinal order and
    subtracts them through their ordinals.  The ISO text that the
    [sqlite3] adapter stores for a date ([date.isoformat()], zero padded)
    is in one-to-one, order-preserving correspondence with it, so a DATE
    column is modelled by the date itself. *)
Module Date.

Definition t : Type := Z.

(** [date.min.toordinal()] and [date.max.toordinal()]. *)
Definition MINORD : Z := 1.
Definition MAXORD : Z := 3652059.

Definition valid (d : t) : Prop := MINORD ≤ d ≤ MAXORD.

(** The ordinal of a calendar day, as [date(y, m, d).toordinal()]
    computes it: the days before the year, the days before the month in
    that year, and the day of the month. *)
Definition is_leap (y : Z) : bool :=
  (y mod 4 =? 0) && (negb (y mod 100 =? 0) || (y mod 400 =? 0)).

Definition days_before_year (y : Z) : Z :=
  (y - 1) * 365 + (y - 1) / 4 - (y - 1) / 100 + (y - 1) / 400.

Definition days_before_month (y m : Z) : Z :=
  nth (Z.to_nat m) [0; 0; 31; 59; 90; 120; 151; 181; 212; 243; 273; 304; 334] 0
  + (if (2 <? m) && is_leap y then 1 else 0).

Definition ymd (y m d : Z) : t :=
  days_before_year y + days_before_month y m + d.

(** [(a - b).days] *)
Definition days_between (a b : t) : Z := a - b.

(** [d - timedelta(days=n)]; [None] stands for the [OverflowError] that
    the library raises when the result is not a representable date. *)
Definition sub_days (d : t) (n : Z) : option t :=
  if decide (MINORD ≤ d - n ≤ MAXORD) then Some (d - n) else None.

(** [max(a, b)] on two dates: [b] is chosen only when it is greater. *)
Definition max (a b : t) : t := if decide (a < b) then b else a.

End Date.

(** ** Records *)

Record VideoInfo := mkVideoInfo {
  video_id : string;
  title : string;
  published_date : Date.t;
  channel_id : string
}.

(** The [m_] prefix on the first two fields only separates them from
    [VideoInfo]'s projections and from the [Date] module. *)
Record DailyMetric := mkDailyMetric {
  m_video_id : string;
  m_date : Date.t;
  days_since_published : Z;
  traffic_source : string;
  views : Z
}.

Global Instance VideoInfo_eq_dec : EqDecision VideoInfo.
Proof. solve_decision. Defined.

Global Instance DailyMetric_eq_dec : EqDecision DailyMetric.
Proof. solve_decision. Defined.

(** ** The database *)

Record DB := mkDB {
  videos : list VideoInfo;
  daily_metrics : list DailyMetric
}.

(** [init_database] on a fresh file: both tables exist and are empty. *)
Definition init_database : DB := mkDB [] [].

(** [UNIQUE(video_id, date, traffic_source)] *)
Definition metric_key (m : DailyMetric) : string * Date.t * string :=
  (m_video_id m, m_date m, traffic_source m).

(** [INSERT OR REPLACE] into a table with one uniqueness constraint, on
    [key]: the rows that conflict with the new one are deleted, then the
    new row is appended with a fresh rowid. *)
Definition insert_or_replace {A K} `{EqDecision K} (key : A → K)
    (x : A) (tbl : list A) : list A :=
  filter (λ r, key r ≠ key x) tbl ++ [x].

(** [INSERT OR REPLACE INTO videos]: the conflict is on the primary key. *)
Definition insert_or_replace_video (v : VideoInfo) (tbl : list VideoInfo)
  : list VideoInfo :=
  insert_or_replace video_id v tbl.

(** [INSERT OR REPLACE INTO daily_metrics]: the conflict is on the UNIQUE
    triple; the AUTOINCREMENT [id] never conflicts.  The declared FOREIGN
    KEY is not checked: the program never issues [PRAGMA foreign_keys],
    which SQLite needs before it enforces one. *)
Definition insert_or_replace_metric (m : DailyMetric) (tbl : list DailyMetric)
  : list DailyMetric :=
  insert_or_replace metric_key m tbl.

(** ** Effects

    What a method does besides returning: requests to the two external
    APIs and rows written to the store, in program order. *)
Inductive Effect :=
| VideosList (id : string)
    (* data_client.videos().list(part='snippet', id=id).execute() *)
| ReportsQuery (video : string) (startDate endDate : Date.t)
    (* analytics_client.reports().query(..., filters='video==..').execute() *)
| InsertVideo (v : VideoInfo)
| InsertMetric (m : DailyMetric).

Global Instance Effect_eq_dec : EqDecision Effect.
Proof. solve_decision. Defined.

Definition apply_effect (db : DB) (e : Effect) : DB :=
  match e with
  | InsertVideo v => mkDB (insert_or_replace_video v (videos db)) (daily_metrics db)
  | InsertMetric m => mkDB (videos db) (insert_or_replace_metric m (daily_metrics db))
  | _ => db
  end.

(** The store after a prefix of the effects of a run. *)
Definition replay (db : DB) (es : list Effect) : DB := foldl apply_effect db es.

(** The exceptions that leave a method: the [OverflowError] of the date
    arithmetic and the [sqlite3.OperationalError] of a failing statement. *)
Inductive Exception := OverflowError | OperationalError.

Inductive Result (A : Type) :=
| Return (a : A)
| Raise (e : Exception).
Arguments Return {A} a.
Arguments Raise {A} e.

(** Statements in sequence: the first exception ends the sequence. *)
Global Instance Result_bind : MBind Result := λ A B f r,
  match r with
  | Return a => f a
  | Raise e => Raise e
  end.

Global Instance Result_fmap : FMap Result := λ A B f r,
  match r with
  | Return a => Return (f a)
  | Raise e => Raise e
  end.

Record Run (A : Type) := mkRun {
  db_after : DB;
  effects : list Effect;
  result : Result A
}.
Arguments mkRun {A} _ _ _.
Arguments db_after {A} _.
Arguments effects {A} _.
Arguments result {A} _.

(** A method of [YouTubeAnalyticsDB]: it starts from the store on disk and
    leaves a store, a list of effects and a value or an exception.  Every
    store method commits before it returns, so what was written before an
    exception stays written. *)
Definition M (A : Type) : Type := DB → Run A.

Global Instance M_ret : MRet M := λ A a db, mkRun db [] (Return a).

Global Instance M_bind : MBind M := λ A B f m db,
  let r := m db in
  match result r with
  | Return a =>
      let r' := f a (db_after r) in
      mkRun (db_after r') (effects r ++ effects r') (result r')
  | Raise e => mkRun (db_after r) (effects r) (Raise e)
  end.

Definition raise {A} (e : Exception) : M A := λ db, mkRun db [] (Raise e).
Definition get_db : M DB := λ db, mkRun db [] (Return db).
Definition emit (e : Effect) : M () := λ db, mkRun (apply_effect db e) [e] (Return ()).

(** A [for] loop run for its effects. *)
Fixpoint for_each {A} (f : A → M ()) (l : list A) : M () :=
  match l with
  | [] => mret ()
  | x :: l' => f x;; for_each f l'
  end.

(** ** Store operations *)

Definition store_video_info (video : VideoInfo) : M () :=
  emit (InsertVideo video).

Definition store_daily_metrics (metrics : list DailyMetric) : M () :=
  for_each (λ metric, emit (InsertMetric metric)) metrics.

(** ** The external providers

    [Snippet] is what lines 143-155 read from the first item of a
    [videos().list] response; an item is [None] when one of those lookups
    or [datetime.fromisoformat] raises.  [publishedAt] is the calendar
    date of the parsed timestamp. *)
Record Snippet := mkSnippet {
  snippet_title : string;
  publishedAt : Date.t;
  channelId : string
}.

(** [.execute()] on the Data API: it raises, or it answers with items. *)
Inductive VideosResponse :=
| VideosRaised
| VideosItems (items : list (option Snippet)).

(** One row [day_str, traffic_source, views] of a report, read; in a
    response a row is [None] when the unpacking, [strptime] or
    [int(views)] raises on it. *)
Record ReportRow := mkReportRow {
  row_day : Date.t;
  row_traffic_source : string;
  row_views : Z
}.

Global Instance ReportRow_eq_dec : EqDecision ReportRow.
Proof. solve_decision. Defined.

Inductive ReportResponse :=
| ReportRaised
| ReportRows (rows : list (option ReportRow)).

(** Everything outside the process during one call: the clock and the two
    clients ([None] when [get_youtube_*_client] returns [None]). *)
Record World := mkWorld {
  today : Date.t;
  data_client : option (string → VideosResponse);
  analytics_client : option (string → Date.t → Date.t → ReportResponse)
}.

(** ** Fetch and sync *)

(** The [try] body of [fetch_video_data_from_youtube] after [.execute()];
    every exception ends in [return None]. *)
Definition parse_video_response (vid : string) (response : VideosResponse)
  : option VideoInfo :=
  match response with
  | VideosRaised => None
  | VideosItems [] => None
  | VideosItems (None :: _) => None
  | VideosItems (Some snippet :: _) =>
      Some (mkVideoInfo vid (snippet_title snippet)
              (publishedAt snippet) (channelId snippet))
  end.

Definition fetch_video_data_from_youtube (w : World) (vid : string)
  : M (option VideoInfo) :=
  match data_client w with
  | None => mret None
  | Some client =>
      emit (VideosList vid);;
      mret (parse_video_response vid (client vid))
  end.

(** [SELECT published_date FROM videos WHERE video_id = ?] with
    [cursor.fetchone()]. *)
Definition select_published_date (db : DB) (vid : string) : option Date.t :=
  published_date <$> head (filter (λ r, video_id r = vid) (videos db)).

(** The body of the loop at lines 191-202 for one row. *)
Definition make_metric (vid : string) (published : Date.t)
    (row : option ReportRow) : option DailyMetric :=
  r ← row;
  Some (mkDailyMetric vid (row_day r)
          (Date.days_between (row_day r) published)
          (row_traffic_source r) (row_views r)).

(** The [try] body of [fetch_daily_analytics_from_youtube] after
    [.execute()]: an exception on any row reaches the handler, which
    returns the empty list. *)
Definition parse_report (vid : string) (published : Date.t)
    (response : ReportResponse) : list DailyMetric :=
  match response with
  | ReportRaised => []
  | ReportRows rows => default [] (mapM (make_metric vid published) rows)
  end.

Definition fetch_daily_analytics_from_youtube (w : World) (vid : string)
    (start_date end_date : Date.t) : M (list DailyMetric) :=
  match analytics_client w with
  | None => mret []
  | Some client =>
      db ← get_db;
      match select_published_date db vid with
      | None => mret []
      | Some published =>
          emit (ReportsQuery vid start_date end_date);;
          mret (parse_report vid published (client vid start_date end_date))
      end
  end.

Definition sync_video (w : World) (vid : string) (days_back : Z) : M bool :=
  video_info ← fetch_video_data_from_youtube w vid;
  match video_info with
  | None => mret false
  | Some video_info =>
      store_video_info video_info;;
      let end_date := today w in
      match Date.sub_days end_date days_back with
      | None => raise OverflowError
      | Some earliest =>
          let start_date := Date.max (published_date video_info) earliest in
          metrics ← fetch_daily_analytics_from_youtube w vid start_date end_date;
          (if metrics is [] then mret () else store_daily_metrics metrics);;
          mret true
      end
  end.

(** ** Python dicts *)

(** A [dict] with [str] keys, in insertion order: [d[k] = v] keeps the
    place of a key that is present and appends a new one. *)
Fixpoint dict_set {V} (d : list (string * V)) (k : string) (v : V)
  : list (string * V) :=
  match d with
  | [] => [(k, v)]
  | (k', v') :: d' =>
      if decide (k' = k) then (k, v) :: d' else (k', v') :: dict_set d' k v
  end.

Definition dict_get {V} (d : list (string * V)) (k : string) : option V :=
  snd <$> head (filter (λ kv, kv.1 = k) d).

(** ** Queries *)

(** [ORDER BY published_date DESC]: greater dates first. *)
Definition published_desc (a b : VideoInfo) : Prop :=
  published_date b ≤ published_date a.

Global Instance published_desc_dec a b : Decision (published_desc a b).
Proof. unfold published_desc. apply _. Defined.

(** [LIMIT ?]: a negative value means no upper bound in SQLite. *)
Definition sql_limit {A} (limit : Z) (rows : list A) : list A :=
  if decide (limit < 0) then rows else take (Z.to_nat limit) rows.

(** SQLite leaves the relative order of rows with the same
    [published_date] open; here it is the one [merge_sort] gives. *)
Definition get_recent_videos (db : DB) (limit : Z) : list string :=
  video_id <$> sql_limit limit (merge_sort published_desc (videos db)).

(** [videos v LEFT JOIN daily_metrics dm ON v.video_id = dm.video_id]: a
    video without metrics is kept once, with NULL for the [dm] columns. *)
Definition left_join (vs : list VideoInfo) (dms : list DailyMetric)
  : list (VideoInfo * option DailyMetric) :=
  vs ≫= λ v,
    match filter (λ dm, video_id v = m_video_id dm) dms with
    | [] => [(v, None)]
    | ms => (λ dm, (v, Some dm)) <$> ms
    end.

(** The WHERE clause; a comparison with NULL is not true. *)
Definition first_week_where (vid src : string)
    (r : VideoInfo * option DailyMetric) : bool :=
  bool_decide (video_id r.1 = vid) &&
  match r.2 with
  | None => false
  | Some dm =>
      bool_decide (0 ≤ days_since_published dm ≤ 6) &&
      bool_decide (traffic_source dm = src)
  end.

(** The range of an INTEGER of SQLite. *)
Definition INT64_MIN : Z := - 2 ^ 63.
Definition INT64_MAX : Z := 2 ^ 63 - 1.

(** One row of [SUM] over integers: the running total, which is [None]
    from the row on at which it leaves the range. *)
Definition sum_step (running : option Z) (x : Z) : option Z :=
  total ← running;
  if decide (INT64_MIN ≤ total + x ≤ INT64_MAX) then Some (total + x) else None.

(** [SUM] over the values of a group, in the order in which the rows are
    visited: NULL inputs are skipped and the sum of no value is NULL.
    When the running total leaves the range at some row, the statement
    fails with "integer overflow", also when the total of all the rows is
    back inside; [sqlite3] raises the failure as [OperationalError]. *)
Definition sql_sum (xs : list (option Z)) : Result (option Z) :=
  match omap id xs with
  | [] => Return None
  | ys =>
      match foldl sum_step (Some 0) ys with
      | Some total => Return (Some total)
      | None => Raise OperationalError
      end
  end.

(** The SELECT of [analyze_first_week_performance] for one [video_id],
    with [cursor.fetchone()].  Every row that passes the WHERE clause has
    [v.video_id = ?], so GROUP BY makes at most one group; its bare
    columns are read off the first row.

    SQL leaves the order in which the rows of [daily_metrics] are visited
    to the query planner, which follows the rowids or one of the indexes
    of the table (with the schema of [init_database], SQLite 3.40 takes
    [idx_daily_metrics_video_days]).  [scan] is that order: it lists the
    rows of the table as the statement meets them. *)
Definition first_week_query (scan : list DailyMetric → list DailyMetric)
    (db : DB) (vid src : string)
  : Result (option (string * Date.t * option Z)) :=
  let rows :=
    filter (λ r, first_week_where vid src r)
      (left_join (videos db) (scan (daily_metrics db))) in
  match rows with
  | [] => Return None
  | r :: _ =>
      total_views ←
        sql_sum ((λ r : VideoInfo * option DailyMetric, views <$> r.2) <$> rows);
      Return (Some (title r.1, published_date r.1, total_views))
  end.

(** The value stored under a video_id in the result dict. *)
Record FirstWeek := mkFirstWeek {
  fw_title : string;
  fw_published_date : Date.t;
  first_week_views : Z
}.

(** The result is the dict [results] with its insertion order; a
    statement that fails ends the call with its exception. *)
Definition analyze_first_week_performance
    (scan : list DailyMetric → list DailyMetric) (db : DB)
    (video_ids : list string) (src : string)
  : Result (list (string * FirstWeek)) :=
  foldl (λ results vid,
           d ← results;
           row ← first_week_query scan db vid src;
           Return (match row with
                   | None => d
                   | Some (t, p, total_views) =>
                       dict_set d vid (mkFirstWeek t p (default 0 total_views))
                   end))
        (Return []) video_ids.

(** ** Notions used in the statements *)

(** A run is coherent when the store it leaves is the one its logged
    writes produce. *)
Definition coherent {A} (m : M A) : Prop :=
  ∀ db, db_after (m db) = replay db (effects (m db)).

(** The [daily_metrics] table after the loop of [store_daily_metrics]. *)
Definition upsert_metrics (tbl ms : list DailyMetric) : list DailyMetric :=
  foldl (λ t m, insert_or_replace_metric m t) tbl ms.

(** A sequence of calls of [store_daily_metrics], one per list. *)
Definition store_calls (calls : list (list DailyMetric)) : M () :=
  for_each store_daily_metrics calls.

(** Reading one key:
    [SELECT * FROM daily_metrics WHERE video_id = ? AND date = ? AND
    traffic_source = ?]. *)
Definition select_metric (db : DB) (k : string * Date.t * string)
  : list DailyMetric :=
  filter (λ r, metric_key r = k) (daily_metrics db).

(** Reading one video: [SELECT * FROM videos WHERE video_id = ?]. *)
Definition select_video (db : DB) (vid : string) : list VideoInfo :=
  filter (λ r, video_id r = vid) (videos db).

(** What the metadata fetch hands to [sync_video]. *)
Definition fetched_info (w : World) (vid : string) : option VideoInfo :=
  data_client w ≫= λ client, parse_video_response vid (client vid).

(** The ways the metadata fetch of [sync_video] fails: no client could be
    built, the request raised, the provider has no record of the id, or
    the record could not be read. *)
Inductive metadata_fetch_fails (w : World) (vid : string) : Prop :=
| fails_no_client :
    data_client w = None → metadata_fetch_fails w vid
| fails_raised client :
    data_client w = Some client → client vid = VideosRaised →
    metadata_fetch_fails w vid
| fails_no_record client :
    data_client w = Some client → client vid = VideosItems [] →
    metadata_fetch_fails w vid
| fails_unreadable client rest :
    data_client w = Some client → client vid = VideosItems (None :: rest) →
    metadata_fetch_fails w vid.

(** The video is in the [videos] table. *)
Definition has_video (db : DB) (vid : string) : Prop :=
  vid ∈ video_id <$> videos db.

Global Instance has_video_dec db vid : Decision (has_video db vid).
Proof. unfold has_video. apply _. Defined.

(** Every metric write in the log happens on a store that has the
    metric's video. *)
Fixpoint writes_guarded (db : DB) (es : list Effect) : Prop :=
  match es with
  | [] => True
  | e :: es' =>
      (if e is InsertMetric m then has_video db (m_video_id m) else True)
      ∧ writes_guarded (apply_effect db e) es'
  end.

(** Every row of [daily_metrics] names a video of the [videos] table. *)
Definition referential_integrity (db : DB) : Prop :=
  Forall (λ m, has_video db (m_video_id m)) (daily_metrics db).

Global Instance referential_integrity_dec db :
  Decision (referential_integrity db).
Proof. unfold referential_integrity. apply _. Defined.

(** The stores the public methods can produce from a fresh database. *)
Inductive reachable : DB → Prop :=
| reachable_init : reachable init_database
| reachable_store_video_info db v :
    reachable db → reachable (db_after (store_video_info v db))
| reachable_store_daily_metrics db ms :
    reachable db → reachable (db_after (store_daily_metrics ms db))
| reachable_sync_video db w vid n :
    reachable db → reachable (db_after (sync_video w vid n db)).

(** The stores that [store_video_info] and [sync_video] alone produce. *)
Inductive synced : DB → Prop :=
| synced_init : synced init_database
| synced_store_video_info db v :
    synced db → synced (db_after (store_video_info v db))
| synced_sync_video db w vid n :
    synced db → synced (db_after (sync_video w vid n db)).

(** The analytics fetch of a sync fails: no client could be built, or the
    request raised. *)
Inductive analytics_fetch_fails (w : World) (vid : string) (s e : Date.t)
  : Prop :=
| analytics_no_client :
    analytics_client w = None → analytics_fetch_fails w vid s e
| analytics_raised client :
    analytics_client w = Some client → client vid s e = ReportRaised →
    analytics_fetch_fails w vid s e.

(** The rows a first-week sum ranges over: the video's metrics of its
    first seven days from the given traffic source. *)
Definition first_week_rows (db : DB) (vid src : string) : list DailyMetric :=
  filter (λ m, m_video_id m = vid
               ∧ 0 ≤ days_since_published m ≤ 6
               ∧ traffic_source m = src)
         (daily_metrics db).

Definition total_views (ms : list DailyMetric) : Z :=
  foldr Z.add 0 (views <$> ms).

(** The views that [SUM] adds for a video, in the order of the scan. *)
Definition first_week_scan (scan : list DailyMetric → list DailyMetric)
    (db : DB) (vid src : string) : list Z :=
  views <$> filter (λ m, m_video_id m = vid
                         ∧ 0 ≤ days_since_published m ≤ 6
                         ∧ traffic_source m = src)
              (scan (daily_metrics db)).

(** The running total of the values, added in this order, leaves the
    range of an INTEGER at some point. *)
Definition sum_overflows (xs : list Z) : Prop :=
  foldl sum_step (Some 0) xs = None.

Global Instance sum_overflows_dec xs : Decision (sum_overflows xs).
Proof. unfold sum_overflows. apply _. Defined.

(** A scan visits every row of the table once. *)
Definition visits_all (scan : list DailyMetric → list DailyMetric) : Prop :=
  ∀ rows, scan rows ≡ₚ rows.

(** The ids of a request in the order in which they are first listed. *)
Fixpoint first_requests (ids : list string) : list string :=
  match ids with
  | [] => []
  | vid :: ids' => vid :: filter (λ other, other ≠ vid) (first_requests ids')
  end.

(** What a comparison shows of a result: the views under each id. *)
Definition views_by_video (d : list (string * FirstWeek)) : list (string * Z) :=
  (λ x, (x.1, first_week_views x.2)) <$> d.

(** [PRIMARY KEY] of [videos]. *)
Definition videos_pk (db : DB) : Prop := NoDup (video_id <$> videos db).

(** The dict entry built from a row of the SELECT. *)
Definition first_week_entry (row : string * Date.t * option Z) : FirstWeek :=
  mkFirstWeek row.1.1 row.1.2 (default 0 row.2).

(** The entry that a request adds for an id: the one of the row that its
    SELECT answers with, if it answers with one. *)
Definition requested_entry (scan : list DailyMetric → list DailyMetric)
    (db : DB) (src vid : string) : option FirstWeek :=
  match first_week_query scan db vid src with
  | Return (Some row) => Some (first_week_entry row)
  | _ => None
  end.

(** Nothing stored in [db] is missing from [db']: every video id and
    every metric key is still there. *)
Definition keeps_rows (db db' : DB) : Prop :=
  (∀ vid, has_video db vid → has_video db' vid)
  ∧ (∀ k, k ∈ metric_key <$> daily_metrics db →
          k ∈ metric_key <$> daily_metrics db').

(** The rows of another video than the one an operation is about. *)
Definition metrics_of (db : DB) (vid : string) : list DailyMetric :=
  filter (λ m, m_video_id m = vid) (daily_metrics db).

(** A write for the video [vid]; requests are no writes. *)
Definition writes_only_for (vid : string) (e : Effect) : Prop :=
  match e with
  | InsertVideo v => video_id v = vid
  | InsertMetric m => m_video_id m = vid
  | _ => True
  end.

(** The metric that the loop of [fetch_daily_analytics_from_youtube]
    builds from a row it can read. *)
Definition metric_of_row (vid : string) (published : Date.t) (r : ReportRow)
  : DailyMetric :=
  mkDailyMetric vid (row_day r) (row_day r - published)
    (row_traffic_source r) (row_views r).

(** ** Sample stores and providers

    Video A is published on 2024-01-01 and video B a week later; the
    syncs run on 2024-01-15. *)

(** A day of January 2024. *)
Definition jan (day : Z) : Date.t := Date.ymd 2024 1 day.

Definition video_A : VideoInfo :=
  mkVideoInfo "A" "Launch" (jan 1) "UC1".
Definition video_B : VideoInfo :=
  mkVideoInfo "B" "Follow-up" (jan 8) "UC1".

(** Three days of video A: publication day, day 2 and day 9. *)
Definition metrics_A : list DailyMetric :=
  [mkDailyMetric "A" (jan 1) 0 "BROWSE" 100;
   mkDailyMetric "A" (jan 3) 2 "BROWSE" 50;
   mkDailyMetric "A" (jan 10) 9 "BROWSE" 10].

Definition db_A : DB :=
  db_after ((store_video_info video_A;; store_daily_metrics metrics_A : M ())
              init_database).

Definition db_AB : DB := db_after (store_video_info video_B db_A).

(** A metric of a video that was never stored, written straight through
    [store_daily_metrics]. *)
Definition orphan_metric : DailyMetric :=
  mkDailyMetric "ghost" (jan 1) 0 "BROWSE" 5.

Definition db_orphan : DB :=
  db_after (store_daily_metrics [orphan_metric] init_database).

(** Video A with [2^62] views on each of its first two days: each count
    is an INTEGER, their sum is not. *)
Definition metrics_huge : list DailyMetric :=
  [mkDailyMetric "A" (jan 1) 0 "BROWSE" (2 ^ 62);
   mkDailyMetric "A" (jan 2) 1 "BROWSE" (2 ^ 62)].

Definition db_huge : DB :=
  db_after ((store_video_info video_A;; store_daily_metrics metrics_huge : M ())
              init_database).

(** The scan that follows the rowids. *)
Definition rowid_order : list DailyMetric → list DailyMetric := id.

(** Both providers answer: the report has one row on the first day of the
    window and one on the last. *)
Definition world_ok : World :=
  mkWorld (jan 15)
    (Some (λ _, VideosItems [Some (mkSnippet "Launch" (jan 1) "UC1")]))
    (Some (λ _ s e, ReportRows [Some (mkReportRow s "BROWSE" 100);
                                Some (mkReportRow e "YT_SEARCH" 7)])).

(** The metadata provider has no record of the video. *)
Definition world_unknown_video : World :=
  mkWorld (jan 15)
    (Some (λ _, VideosItems []))
    (Some (λ _ s e, ReportRows [Some (mkReportRow s "BROWSE" 100)])).

(** The metadata is there and the analytics request raises. *)
Definition world_quota_exceeded : World :=
  mkWorld (jan 15)
    (Some (λ _, VideosItems [Some (mkSnippet "Launch" (jan 1) "UC1")]))
    (Some (λ _ _ _, ReportRaised)).

(** ** The reports and the command line ([youtube_stats.py])

    The parts of the script that compute: what is fetched, ranked and cut
    before a table is printed.  The analytix client, the Google clients
    and the console are outside; their answers are arguments. *)

(** *** Python values

    A [str] is a [string]: its characters are the items that [len] counts
    and that a slice cuts. *)

(** [l[:n]]: a negative [n] counts from the end. *)
Definition py_slice_to {A} (n : Z) (l : list A) : list A :=
  if decide (n < 0)
  then take (length l - Z.to_nat (- n)) l
  else take (Z.to_nat n) l.

(** [range(0, stop, step)] for a positive [step]. *)
Definition py_range_step (stop step : nat) : list nat :=
  (λ k, k * step)%nat <$> seq 0 ((stop + step - 1) / step)%nat.

(** [sorted(l, key=key, reverse=True)] and [l.sort(key=key, reverse=True)]:
    descending, and stable: items with equal keys keep their order.  An
    item is inserted before the first one whose key is not greater. *)
Fixpoint insert_desc {A} (key : A → Z) (x : A) (l : list A) : list A :=
  match l with
  | [] => [x]
  | y :: l' =>
      if decide (key x < key y) then y :: insert_desc key x l' else x :: l
  end.

Definition sort_desc {A} (key : A → Z) (l : list A) : list A :=
  foldr (insert_desc key) [] l.

(** [title[:keep] + "..." if len(title) > limit else title] *)
Definition truncate_title (limit keep : nat) (title : string) : string :=
  if decide (limit < String.length title)%nat
  then String.substring 0 keep title +:+ "..."
  else title.

(** *** The selection of the view reports

    [show_organic_views_report] and [show_search_traffic_report] keep the
    videos with a positive count, sort them by count, descending, and cut
    the list at [max_results]. *)
Definition top_videos (views : list (string * Z)) (max_results : Z)
  : list (string * Z) :=
  py_slice_to max_results
    (sort_desc snd (filter (λ x : string * Z, 0 < x.2) views)).

(** [sorted(keywords.items(), key=..., reverse=True)[:max_results]] of the
    keyword reports. *)
Definition top_keywords (keywords : list (string * Z)) (max_results : Z)
  : list (string * Z) :=
  py_slice_to max_results (sort_desc snd keywords).

(** *** [get_video_info] *)

(** What lines 94-101 read from an item of a [videos().list] response. *)
Record InfoItem := mkInfoItem {
  item_id : string;
  item_title : string;
  item_publishedAt : Date.t
}.

(** [.execute()] for one batch: it raises, or it answers with items; an
    item is [None] when reading it raises. *)
Inductive InfoResponse :=
| InfoRaised
| InfoItems (items : list (option InfoItem)).

(** The batches of at most 50 ids: [video_ids[i:i+50]] for [i] in
    [range(0, len(video_ids), 50)]. *)
Definition batches (video_ids : list string) : list (list string) :=
  (λ i, take 50 (drop i video_ids)) <$> py_range_step (length video_ids) 50.

(** The dict of the [except] branch. *)
Definition info_unavailable (video_ids : list string)
  : gmap string (string * string) :=
  foldl (λ d vid, <[vid := ("Title unavailable", "Unknown")]> d) ∅ video_ids.

(** [client] is [None] when [get_youtube_data_client()] raises;
    [strftime_b_d] is [pub_date.strftime("%b %d")], which the C library
    renders in the current locale. *)
Definition get_video_info (strftime_b_d : Date.t → string)
    (client : option (list string → InfoResponse)) (video_ids : list string)
  : gmap string (string * string) :=
  match client with
  | None => info_unavailable video_ids
  | Some videos_list =>
      let answers :=
        mapM (λ batch,
                match videos_list batch with
                | InfoRaised => None
                | InfoItems items => mapM id items
                end) (batches video_ids) in
      match answers with
      | None => info_unavailable video_ids
      | Some items =>
          foldl (λ d item,
                   <[item_id item :=
                       (truncate_title 25 22 (item_title item),
                        strftime_b_d (item_publishedAt item))]> d)
                ∅ (concat items)
      end
  end.

(** *** The [--sync] option of [main] *)

(** [get_video_views]: [retrieved] is the rows [video, views] that
    [client.retrieve] answers, [None] when the call or reading a row
    raises; the [except] branch and an empty answer both give [{}]. *)
Definition get_video_views (retrieved : option (list (string * Z)))
  : list (string * Z) :=
  match retrieved with
  | None => []
  | Some rows => foldl (λ d row, dict_set d row.1 row.2) [] rows
  end.

(** [str.lower()] on the letters A-Z.  No other character has a lower
    case among the letters of ["recent"], so the comparison below is the
    one of the script. *)
Definition ascii_lower (c : Ascii.ascii) : Ascii.ascii :=
  let n := Ascii.nat_of_ascii c in
  if decide (65 ≤ n ≤ 90)%nat then Ascii.ascii_of_nat (n + 32) else c.

Fixpoint str_lower (s : string) : string :=
  match s with
  | EmptyString => EmptyString
  | String c s' => String (ascii_lower c) (str_lower s')
  end.

(** What the branch prints last. *)
Inductive SyncMessage :=
| SyncComplete
| Synced (video_id : string)
| FailedToSync (video_id : string).

(** The loop [for video_id in video_views.keys(): db.sync_video(video_id,
    days_back=60)]; the value of each call is dropped. *)
Definition sync_all (w : World) (video_ids : list string) : M () :=
  for_each (λ video_id, _ ← sync_video w video_id 60; mret ()) video_ids.

(** The part of [main] under [if sync:], for one clock and one state of
    the providers.  [sync] is the value of the option [--sync], [None]
    when it is not given; the guard fails for [None] and for the empty
    string, [main] then goes on to the other options and the result is
    [None].  [retrieve start end max] is the answer of the analytix client
    to [get_video_views], once [get_client()] has built it. *)
Definition main_sync (w : World)
    (retrieve : Date.t → Date.t → Z → option (list (string * Z)))
    (sync : option string) : M (option SyncMessage) :=
  match sync with
  | None => mret None
  | Some sync =>
      if decide (sync = "") then mret None
      else if decide (str_lower sync = "recent") then
        let end_date := today w in
        match Date.sub_days end_date 30 with
        | None => raise OverflowError
        | Some start_date =>
            let video_views :=
              get_video_views (retrieve start_date end_date 10) in
            sync_all w video_views.*1;;
            mret (Some SyncComplete)
        end
      else
        ok ← sync_video w sync 60;
        mret (Some (if ok : bool then Synced sync else FailedToSync sync))
  end.

(** *** The [--first-week] option of [main] *)

(** A row of the comparison table.  The date and the view count are kept
    as the values that the last two cells print. *)
Record TableRow := mkTableRow {
  row_rank : nat;
  row_title : string;
  row_published : Date.t;
  row_first_week_views : Z
}.

(** The body of [if first_week:]; [Return None] is the message that the
    database has no videos.  The exception of a failing SELECT is not
    caught and ends the script. *)
Definition first_week_table (scan : list DailyMetric → list DailyMetric)
    (db : DB) (src : string) : Result (option (list TableRow)) :=
  let recent_videos := get_recent_videos db 5 in
  if recent_videos is [] then Return None
  else
    analysis ← analyze_first_week_performance scan db recent_videos src;
    let sorted_videos :=
      sort_desc (λ x : string * FirstWeek, first_week_views x.2) analysis in
    Return (Some (imap (λ i x,
                          mkTableRow (S i)
                            (truncate_title 40 37 (fw_title x.2))
                            (fw_published_date x.2)
                            (first_week_views x.2))
                       sorted_videos)).

(** *** [get_search_keywords]

    The definition at lines 599-645, which replaces the one at lines
    382-421 when the module is loaded. *)

(** [.execute()] of a keyword query: it raises, or it answers with rows
    [keyword, views]; a row is [None] when unpacking it raises, and its
    views are [None] when [int(views)] raises. *)
Inductive KeywordResponse :=
| KeywordsRaised
| KeywordRows (rows : list (option (string * option Z))).

(** [keyword and keyword != '(not provided)' and keyword.strip()];
    [isspace] is the whitespace test of [str.strip]. *)
Definition keyword_kept (isspace : Ascii.ascii → bool) (keyword : string) : bool :=
  bool_decide (keyword ≠ "")
  && bool_decide (keyword ≠ "(not provided)")
  && existsb (λ c, negb (isspace c)) (String.list_ascii_of_string keyword).

(** The body of the inner [try] after [.execute()]; [None]: it raises.
    [int(views)] is evaluated for the keywords that are kept only. *)
Definition read_keywords (isspace : Ascii.ascii → bool)
    (response : KeywordResponse) : option (list (string * Z)) :=
  match response with
  | KeywordsRaised => None
  | KeywordRows rows =>
      foldl (λ keywords row,
               d ← keywords; r ← row;
               if keyword_kept isspace r.1
               then views ← r.2; Some (dict_set d r.1 views)
               else Some d)
            (Some []) rows
  end.

Definition limits_to_try (max_results : Z) : list Z :=
  [Z.min max_results 25; 20; 10].

(** The [for limit in limits_to_try] loop: the limits asked for, in
    order, and the keywords returned.  An attempt that raises is followed
    by the next one unless its limit equals the last limit of the list;
    then the exception reaches the outer handler, which returns [{}]. *)
Fixpoint try_limits (isspace : Ascii.ascii → bool) (query : Z → KeywordResponse)
    (last_limit : Z) (limits : list Z) : list Z * list (string * Z) :=
  match limits with
  | [] => ([], [])
  | limit :: rest =>
      match read_keywords isspace (query limit) with
      | Some keywords => ([limit], keywords)
      | None =>
          if decide (limit = last_limit) then ([limit], [])
          else
            let attempt := try_limits isspace query last_limit rest in
            (limit :: attempt.1, attempt.2)
      end
  end.

(** [client] is [None] when [get_youtube_analytics_client()] returns
    [None]; [query limit] is the answer to the request with
    [maxResults=limit]. *)
Definition get_search_keywords (isspace : Ascii.ascii → bool)
    (client : option (Z → KeywordResponse)) (max_results : Z)
  : list Z * list (string * Z) :=
  match client with
  | None => ([], [])
  | Some query => try_limits isspace query 10 (limits_to_try max_results)
  end.

(** *** [get_search_traffic_views] and [get_organic_views_per_video] *)

(** [.execute()] of the traffic breakdown of one video: it raises, or it
    answers with rows [video, source, views]; a row is [None] when
    unpacking it raises, and its views are [None] when [int(views)]
    raises. *)
Inductive TrafficResponse :=
| TrafficRaised
| TrafficRows (rows : list (option (string * option Z))).

(** Lines 307-313: the views of the first [YT_SEARCH] row; the loop
    breaks there, so the rows after it are not read.  [None]: it raises. *)
Fixpoint search_count (rows : list (option (string * option Z))) : option Z :=
  match rows with
  | [] => Some 0
  | None :: _ => None
  | Some (source_type, views) :: rest =>
      if decide (source_type = "YT_SEARCH") then views else search_count rest
  end.

(** [total_report] is the frame of the first request, of which the loop
    reads the column [video] only: [None] when [fetch_report] or
    [to_pandas] raises, and a row is [None] when reading it raises.
    [client] is [None] when [get_youtube_analytics_client()] returns
    [None].  A request that fails leaves its video out; a row of the frame
    that cannot be read ends in the outer handler, which returns [{}]. *)
Definition get_search_traffic_views (total_report : option (list (option string)))
    (client : option (string → TrafficResponse)) : list (string * Z) :=
  match total_report with
  | None => []
  | Some rows =>
      if rows is [] then []
      else
        match client with
        | None => []
        | Some query =>
            default []
              (foldl (λ search_views row,
                        d ← search_views; video_id ← row;
                        Some (match query video_id with
                              | TrafficRaised => d
                              | TrafficRows traffic_rows =>
                                  match search_count traffic_rows with
                                  | None => d
                                  | Some count =>
                                      if decide (0 < count)
                                      then dict_set d video_id count
                                      else d
                                  end
                              end))
                     (Some []) rows)
        end
  end.

(** Lines 191-202: [(organic_count, ad_count)] after the loop over the
    rows, each of which is unpacked and its views converted.  [None]: it
    raises. *)
Definition traffic_counts (rows : list (option (string * option Z)))
  : option (Z * Z) :=
  foldl (λ counts row,
           c ← counts; r ← row; views ← r.2;
           Some (if decide (r.1 = "ADVERTISING")
                 then (c.1, c.2 + views)
                 else (c.1 + views, c.2)))
        (Some (0, 0)) rows.

(** The entry of one video, lines 178-211.  [organic_count] is stored
    first; when the percentage of line 205 then raises, the handler stores
    [total_views] over it.  [true_div_raises a b] tells whether [a / b] on
    [int] raises [OverflowError], the quotient being too large for a
    [float]. *)
Definition organic_entry (true_div_raises : Z → Z → bool)
    (response : TrafficResponse) (total_views : Z) : Z :=
  match response with
  | TrafficRaised => total_views
  | TrafficRows traffic_rows =>
      match traffic_counts traffic_rows with
      | None => total_views
      | Some (organic_count, ad_count) =>
          if bool_decide (0 < total_views) && true_div_raises ad_count total_views
          then total_views
          else organic_count
      end
  end.

(** [total_report] is the frame of the first request, with the columns
    [video] and [views] that the loop reads; [ratio_fallback] is what
    [get_organic_views_with_ratio_fallback] returns. *)
Definition get_organic_views_per_video (true_div_raises : Z → Z → bool)
    (total_report : option (list (option (string * Z))))
    (client : option (string → TrafficResponse))
    (ratio_fallback : list (string * Z)) : list (string * Z) :=
  match total_report with
  | None => []
  | Some rows =>
      if rows is [] then []
      else
        match client with
        | None => ratio_fallback
        | Some query =>
            default []
              (foldl (λ organic_views row,
                        d ← organic_views; r ← row;
                        Some (dict_set d r.1
                                (organic_entry true_div_raises (query r.1) r.2)))
                     (Some []) rows)
        end
  end.

(** [get_organic_views] hands over to the per-video method. *)
Definition get_organic_views := get_organic_views_per_video.

(** The sum of a column of views. *)
Definition sum_views (rows : list (string * Z)) : Z := foldr Z.add 0 rows.*2.

(** A traffic row that was read. *)
Definition read_row (r : string * Z) : option (string * option Z) :=
  Some (r.1, Some r.2).

(** A breakdown with two search rows, of which the second is never read. *)
Definition traffic_client_A : string → TrafficResponse :=
  λ vid,
    if decide (vid = "A")
    then TrafficRows [Some ("BROWSE", Some 60); Some ("YT_SEARCH", Some 30);
                      Some ("ADVERTISING", Some 10); Some ("YT_SEARCH", None)]
    else TrafficRaised.

(** The ways [get_video_info] ends in its [except] branch: the client
    cannot be built, a request raises, or an item cannot be read. *)
Inductive info_fetch_fails (client : option (list string → InfoResponse))
    (video_ids : list string) : Prop :=
| info_no_client :
    client = None → info_fetch_fails client video_ids
| info_raised videos_list batch :
    client = Some videos_list → batch ∈ batches video_ids →
    videos_list batch = InfoRaised →
    info_fetch_fails client video_ids
| info_unreadable videos_list batch items :
    client = Some videos_list → batch ∈ batches video_ids →
    videos_list batch = InfoItems items → None ∈ items →
    info_fetch_fails client video_ids.

(** *** Sample answers of the clients *)

(** The Data API knows every id it is asked for, under one long title. *)
Definition info_client_ok : list string → InfoResponse :=
  λ batch,
    InfoItems
      ((λ vid, Some (mkInfoItem vid "How we moved the build to containers"
                       (jan 1))) <$> batch).

(** The analytix client lists the videos A and B. *)
Definition retrieve_AB : Date.t → Date.t → Z → option (list (string * Z)) :=
  λ _ _ _, Some [("A", 10); ("B", 5)].

(** The metadata provider knows video A only. *)
Definition world_only_A : World :=
  mkWorld (jan 15)
    (Some (λ vid, if decide (vid = "A")
                  then VideosItems [Some (mkSnippet "Launch" (jan 1) "UC1")]
                  else VideosItems []))
    (Some (λ _ s e, ReportRows [Some (mkReportRow s "BROWSE" 100)])).

(** The whitespace of ASCII, as [str.strip] sees it. *)
Definition ascii_isspace (c : Ascii.ascii) : bool :=
  bool_decide (Ascii.nat_of_ascii c ∈ [9; 10; 11; 12; 13; 28; 29; 30; 31; 32]%nat).

(** The keyword query is refused above 20 results; below, one keyword
    comes twice, one row is the placeholder and one is blank with views
    that are no number. *)
Definition keyword_client_20 : Z → KeywordResponse :=
  λ limit,
    if decide (20 < limit) then KeywordsRaised
    else KeywordRows [Some ("rocq tutorial", Some 12);
                      Some ("(not provided)", Some 40);
                      Some ("  ", None);
                      Some ("rocq tutorial", Some 15)].

(** * Properties *)

(** ** Running methods *)

Section runs.
Context {A B : Type}.

Lemma run_ret (a : A) db : (mret a : M A) db = mkRun db [] (Return a).
Proof. reflexivity. Qed.

Lemma run_bind (m : M A) (f : A → M B) db :
  (m ≫= f : M B) db =
    match result (m db) with
    | Return a =>
        mkRun (db_after (f a (db_after (m db))))
              (effects (m db) ++ effects (f a (db_after (m db))))
              (result (f a (db_after (m db))))
    | Raise e => mkRun (db_after (m db)) (effects (m db)) (Raise e)
    end.
Proof. reflexivity. Qed.
End runs.

Lemma coherent_ret {A} (a : A) : coherent (mret a : M A).
Proof. intros db. reflexivity. Qed.

Lemma coherent_raise {A} e : coherent (@raise A e).
Proof. intros db. reflexivity. Qed.

Lemma coherent_get_db : coherent get_db.
Proof. intros db. reflexivity. Qed.

Lemma coherent_emit e : coherent (emit e).
Proof. intros db. reflexivity. Qed.

Lemma coherent_bind {A B} (m : M A) (f : A → M B) :
  coherent m → (∀ a, coherent (f a)) → coherent (m ≫= f).
Proof.
  intros Hm Hf db. rewrite run_bind.
  destruct (result (m db)) as [a|e]; simpl.
  - unfold replay. rewrite foldl_app. fold (replay db (effects (m db))).
    rewrite <- Hm. apply Hf.
  - apply Hm.
Qed.

Lemma coherent_for_each {A} (f : A → M ()) l :
  (∀ a, coherent (f a)) → coherent (for_each f l).
Proof.
  intros Hf. induction l as [|x l IH]; simpl.
  - apply coherent_ret.
  - apply coherent_bind; [apply Hf | intros _; apply IH].
Qed.

Lemma coherent_store_video_info v : coherent (store_video_info v).
Proof. apply coherent_emit. Qed.

Lemma coherent_store_daily_metrics ms : coherent (store_daily_metrics ms).
Proof. apply coherent_for_each. intros m. apply coherent_emit. Qed.

Lemma coherent_fetch_video_data_from_youtube w vid :
  coherent (fetch_video_data_from_youtube w vid).
Proof.
  unfold fetch_video_data_from_youtube. destruct (data_client w).
  - apply coherent_bind; [apply coherent_emit | intros _; apply coherent_ret].
  - apply coherent_ret.
Qed.

Lemma coherent_fetch_daily_analytics_from_youtube w vid s e :
  coherent (fetch_daily_analytics_from_youtube w vid s e).
Proof.
  unfold fetch_daily_analytics_from_youtube. destruct (analytics_client w).
  - apply coherent_bind; [apply coherent_get_db |].
    intros db. destruct (select_published_date db vid).
    + apply coherent_bind; [apply coherent_emit | intros _; apply coherent_ret].
    + apply coherent_ret.
  - apply coherent_ret.
Qed.

Lemma coherent_sync_video w vid n : coherent (sync_video w vid n).
Proof.
  unfold sync_video.
  apply coherent_bind; [apply coherent_fetch_video_data_from_youtube |].
  intros [info|]; [|apply coherent_ret].
  apply coherent_bind; [apply coherent_store_video_info |]. intros _.
  destruct (Date.sub_days (today w) n); [|apply coherent_raise].
  apply coherent_bind; [apply coherent_fetch_daily_analytics_from_youtube |].
  intros ms. apply coherent_bind; [|intros _; apply coherent_ret].
  destruct ms; [apply coherent_ret | apply coherent_store_daily_metrics].
Qed.

(** ** The store methods as table updates *)

Lemma run_store_video_info v db :
  store_video_info v db =
    mkRun (mkDB (insert_or_replace_video v (videos db)) (daily_metrics db))
          [InsertVideo v] (Return ()).
Proof. reflexivity. Qed.

Lemma run_store_daily_metrics ms db :
  store_daily_metrics ms db =
    mkRun (mkDB (videos db) (upsert_metrics (daily_metrics db) ms))
          (InsertMetric <$> ms) (Return ()).
Proof.
  unfold store_daily_metrics. revert db.
  induction ms as [|m ms IH]; intros db.
  - destruct db. reflexivity.
  - cbn [for_each]. rewrite run_bind. cbn. rewrite IH. reflexivity.
Qed.

Lemma run_store_calls calls db :
  store_calls calls db =
    mkRun (mkDB (videos db) (upsert_metrics (daily_metrics db) (concat calls)))
          (InsertMetric <$> concat calls) (Return ()).
Proof.
  unfold store_calls. revert db.
  induction calls as [|ms calls IH]; intros db.
  - destruct db. reflexivity.
  - cbn [for_each concat]. rewrite run_bind, run_store_daily_metrics. cbn.
    rewrite IH. cbn. unfold upsert_metrics. rewrite foldl_app, fmap_app.
    reflexivity.
Qed.

Section replace.
Context {A K : Type} {K_eq_dec : EqDecision K} (key : A → K).

Lemma select_replaced x tbl :
  filter (λ r, key r = key x) (insert_or_replace key x tbl) = [x].
Proof.
  unfold insert_or_replace. rewrite filter_app, list_filter_filter.
  rewrite filter_singleton_True by done.
  replace (filter _ tbl) with (@nil A); [done|].
  symmetry. induction tbl as [|r tbl IH]; [done|].
  rewrite filter_cons_False by tauto. done.
Qed.

Lemma select_other k x tbl :
  key x ≠ k →
  filter (λ r, key r = k) (insert_or_replace key x tbl) =
  filter (λ r, key r = k) tbl.
Proof.
  intros Hne. unfold insert_or_replace.
  rewrite filter_app, list_filter_filter.
  rewrite filter_singleton_False by done. rewrite app_nil_r.
  apply list_filter_iff. intros r. intuition congruence.
Qed.

Lemma insert_or_replace_twice x y tbl :
  key x = key y →
  insert_or_replace key y (insert_or_replace key x tbl) = insert_or_replace key y tbl.
Proof.
  intros Heq. unfold insert_or_replace.
  rewrite filter_app, list_filter_filter.
  rewrite filter_singleton_False by tauto. rewrite app_nil_r.
  f_equal. apply list_filter_iff. rewrite Heq. tauto.
Qed.

Lemma insert_or_replace_fresh x tbl :
  Forall (λ r, key r ≠ key x) tbl → insert_or_replace key x tbl = tbl ++ [x].
Proof.
  intros Hall. unfold insert_or_replace. f_equal.
  induction Hall as [|r tbl Hr _ IH]; [done|].
  rewrite filter_cons_True by done. by rewrite IH.
Qed.

Lemma NoDup_insert_or_replace x tbl :
  NoDup (key <$> tbl) → NoDup (key <$> insert_or_replace key x tbl).
Proof.
  intros Hnd. unfold insert_or_replace. rewrite fmap_app. cbn.
  apply NoDup_app. split_and!.
  - revert Hnd. induction tbl as [|r tbl IH]; [done|].
    rewrite fmap_cons, NoDup_cons. intros [Hr Hnd].
    rewrite filter_cons. case_decide; [|by apply IH].
    rewrite fmap_cons. apply NoDup_cons. split; [|by apply IH].
    intros Hin. apply Hr. apply list_elem_of_fmap in Hin as (r' & -> & Hin).
    apply list_elem_of_filter in Hin as [_ Hin].
    apply list_elem_of_fmap. eauto.
  - intros k Hin Hx. apply list_elem_of_fmap in Hin as (r & -> & Hin).
    apply list_elem_of_filter in Hin as [Hne _].
    apply list_elem_of_singleton in Hx. done.
  - apply NoDup_singleton.
Qed.

Lemma elem_of_insert_or_replace r x tbl :
  r ∈ insert_or_replace key x tbl ↔ r = x ∨ (key r ≠ key x ∧ r ∈ tbl).
Proof.
  unfold insert_or_replace.
  rewrite elem_of_app, list_elem_of_filter, list_elem_of_singleton.
  split; [intros [[??]|?] | intros [?|[??]]]; auto.
Qed.
End replace.

Lemma insert_or_replace_video_eq v tbl :
  insert_or_replace_video v tbl = insert_or_replace video_id v tbl.
Proof. reflexivity. Qed.

Lemma insert_or_replace_metric_eq m tbl :
  insert_or_replace_metric m tbl = insert_or_replace metric_key m tbl.
Proof. reflexivity. Qed.

Lemma select_upsert_other k ms tbl :
  Forall (λ x, metric_key x ≠ k) ms →
  filter (λ r, metric_key r = k) (upsert_metrics tbl ms) =
  filter (λ r, metric_key r = k) tbl.
Proof.
  intros Hall. revert tbl.
  induction Hall as [|x ms Hx _ IH]; intros tbl; [done|].
  cbn. rewrite IH, insert_or_replace_metric_eq. by apply select_other.
Qed.

(** C2. After any sequence of [store_daily_metrics] calls, the key of the
    last metric [m] written to it is held by exactly one row, and that
    row is [m] itself: its [views] are the ones last written, whatever the
    table held before and whatever was written to the key earlier. *)
Theorem store_daily_metrics_last_write_wins db calls pre m post :
  concat calls = pre ++ m :: post →
  Forall (λ x, metric_key x ≠ metric_key m) post →
  select_metric (db_after (store_calls calls db)) (metric_key m) = [m].
Proof.
  intros Hcalls Hpost. rewrite run_store_calls, Hcalls. unfold select_metric.
  cbn. unfold upsert_metrics. rewrite foldl_app. cbn.
  fold (upsert_metrics
          (insert_or_replace_metric m
             (foldl (λ t x, insert_or_replace_metric x t) (daily_metrics db) pre))
          post).
  rewrite select_upsert_other by done.
  rewrite insert_or_replace_metric_eq. apply select_replaced.
Qed.

(** C8. Upserting a video whose id the table already holds under title
    [t1] with title [t2] leaves exactly one row for the id, the new one;
    upserting the same video again changes nothing; and the upsert of an
    id the table does not hold returns normally and appends the row. *)
Theorem store_video_info_upsert db vid t1 p1 c1 t2 p2 c2 :
  let v1 := mkVideoInfo vid t1 p1 c1 in
  let v2 := mkVideoInfo vid t2 p2 c2 in
  select_video (db_after ((store_video_info v1;; store_video_info v2) db)) vid
    = [v2]
  ∧ title <$> select_video
      (db_after ((store_video_info v1;; store_video_info v2) db)) vid = [t2]
  ∧ db_after ((store_video_info v2;; store_video_info v2) db)
    = db_after (store_video_info v2 db)
  ∧ result (store_video_info v2 db) = Return ()
  ∧ (select_video db vid = [] →
     videos (db_after (store_video_info v2 db)) = videos db ++ [v2]).
Proof.
  intros v1 v2.
  assert (Hsel : select_video
            (db_after ((store_video_info v1;; store_video_info v2) db)) vid
            = [v2]).
  { rewrite run_bind, !run_store_video_info. cbn -[insert_or_replace_video].
    unfold select_video. cbn -[insert_or_replace_video].
    rewrite !insert_or_replace_video_eq.
    apply (select_replaced video_id v2). }
  split_and!.
  - exact Hsel.
  - by rewrite Hsel.
  - rewrite run_bind, !run_store_video_info. cbn -[insert_or_replace_video].
    f_equal. rewrite !insert_or_replace_video_eq.
    by apply insert_or_replace_twice.
  - reflexivity.
  - intros Habs. rewrite run_store_video_info. cbn -[insert_or_replace_video].
    rewrite insert_or_replace_video_eq. apply insert_or_replace_fresh.
    apply Forall_forall. intros r Hr Heq.
    assert (r ∈ select_video db vid) as Hin.
    { apply list_elem_of_filter. split; [exact Heq | exact Hr]. }
    rewrite Habs in Hin. by apply elem_of_nil in Hin.
Qed.

(** ** The runs of the fetchers and of [sync_video] *)

Lemma run_fetch_video_data_from_youtube w vid db :
  fetch_video_data_from_youtube w vid db =
    mkRun db (if data_client w is Some _ then [VideosList vid] else [])
          (Return (fetched_info w vid)).
Proof.
  unfold fetch_video_data_from_youtube, fetched_info.
  destruct (data_client w); reflexivity.
Qed.

Lemma run_fetch_daily_analytics_from_youtube w vid s e db :
  fetch_daily_analytics_from_youtube w vid s e db =
    match analytics_client w, select_published_date db vid with
    | Some client, Some published =>
        mkRun db [ReportsQuery vid s e]
              (Return (parse_report vid published (client vid s e)))
    | _, _ => mkRun db [] (Return [])
    end.
Proof.
  unfold fetch_daily_analytics_from_youtube.
  destruct (analytics_client w); [|reflexivity].
  rewrite run_bind. cbn. destruct (select_published_date db vid); reflexivity.
Qed.

Lemma fetched_info_video_id w vid info :
  fetched_info w vid = Some info → video_id info = vid.
Proof.
  unfold fetched_info. destruct (data_client w) as [client|]; [|done].
  cbn. destruct (client vid) as [|[|[s|] items]]; cbn; try done.
  by intros [= <-].
Qed.

(** The three ways [sync_video] ends. *)
Lemma run_sync_video w vid n db :
  sync_video w vid n db =
    let log0 := if data_client w is Some _ then [VideosList vid] else [] in
    match fetched_info w vid with
    | None => mkRun db log0 (Return false)
    | Some info =>
        let db1 := mkDB (insert_or_replace_video info (videos db))
                        (daily_metrics db) in
        match Date.sub_days (today w) n with
        | None => mkRun db1 (log0 ++ [InsertVideo info]) (Raise OverflowError)
        | Some earliest =>
            let r := fetch_daily_analytics_from_youtube w vid
                       (Date.max (published_date info) earliest) (today w) db1 in
            match result r with
            | Return ms =>
                mkRun (mkDB (videos db1) (upsert_metrics (daily_metrics db1) ms))
                      (log0 ++ InsertVideo info :: effects r ++ (InsertMetric <$> ms))
                      (Return true)
            | Raise e => mkRun db1 (log0 ++ InsertVideo info :: effects r) (Raise e)
            end
        end
    end.
Proof.
  unfold sync_video. rewrite run_bind, run_fetch_video_data_from_youtube.
  cbn [result db_after effects].
  destruct (fetched_info w vid) as [info|]; [|by rewrite run_ret, app_nil_r].
  rewrite run_bind, run_store_video_info. cbn [result db_after effects].
  destruct (Date.sub_days (today w) n) as [earliest|]; [|reflexivity].
  cbn zeta. rewrite run_bind, run_fetch_daily_analytics_from_youtube.
  set (db1 := mkDB _ _).
  destruct (analytics_client w) as [client|];
    [destruct (select_published_date db1 _) as [published|]|];
    cbn [result db_after effects].
  - destruct (parse_report _ _ _) as [|m ms].
    + reflexivity.
    + rewrite run_bind, run_store_daily_metrics.
      cbn [result db_after effects]. rewrite run_ret.
      cbn [result db_after effects]. rewrite app_nil_r.
      reflexivity.
  - reflexivity.
  - reflexivity.
Qed.

Lemma metadata_fetch_fails_fetched_info w vid :
  metadata_fetch_fails w vid ↔ fetched_info w vid = None.
Proof.
  unfold fetched_info. split.
  - intros [Hc|c Hc Hr|c Hc Hr|c rest Hc Hr]; rewrite Hc; cbn; [done|..];
      by rewrite Hr.
  - destruct (data_client w) as [client|] eqn:Hc; [|by constructor].
    cbn. destruct (client vid) as [|[|[s|] items]] eqn:Hr; cbn; try done.
    + intros _. by eapply fails_raised.
    + intros _. by eapply fails_no_record.
    + intros _. by eapply fails_unreadable.
Qed.

(** C3. When the metadata fetch fails, [sync_video] returns [False], the
    store is the one it started from, and the only effect of the call is
    the request to the provider: no row is written. *)
Theorem sync_video_metadata_failure w vid n db :
  metadata_fetch_fails w vid →
  result (sync_video w vid n db) = Return false
  ∧ db_after (sync_video w vid n db) = db
  ∧ Forall (λ e, e = VideosList vid) (effects (sync_video w vid n db)).
Proof.
  intros Hfail. apply metadata_fetch_fails_fetched_info in Hfail.
  rewrite run_sync_video, Hfail. cbn. split_and!; [done..|].
  destruct (data_client w); repeat constructor.
Qed.

(** ** Metrics built from a report *)

Lemma elem_of_parse_report vid published response m :
  m ∈ parse_report vid published response →
  m_video_id m = vid
  ∧ days_since_published m = Date.days_between (m_date m) published.
Proof.
  destruct response as [|rows]; cbn; [by intros ?%elem_of_nil|].
  destruct (mapM _ rows) as [ms|] eqn:Hms; cbn; [|by intros ?%elem_of_nil].
  apply mapM_Some in Hms. intros Hm.
  induction Hms as [|row m' rows ms Hrow _ IH]; [by apply elem_of_nil in Hm|].
  apply elem_of_cons in Hm as [->|Hm]; [|by apply IH].
  destruct row as [r|]; [|done]. cbn in Hrow. by injection Hrow as <-.
Qed.

Lemma select_published_date_upserted info db :
  select_published_date
    (mkDB (insert_or_replace_video info (videos db)) (daily_metrics db))
    (video_id info) = Some (published_date info).
Proof.
  unfold select_published_date. cbn [videos].
  rewrite insert_or_replace_video_eq.
  by rewrite (select_replaced video_id info).
Qed.

(** The run of [sync_video] once the metadata is there and the date
    arithmetic stays in range. *)
Lemma run_sync_video_fetched w vid n db info earliest :
  fetched_info w vid = Some info →
  Date.sub_days (today w) n = Some earliest →
  let start := Date.max (published_date info) earliest in
  let ms :=
    match analytics_client w with
    | Some client =>
        parse_report vid (published_date info) (client vid start (today w))
    | None => []
    end in
  sync_video w vid n db =
    mkRun (mkDB (insert_or_replace_video info (videos db))
                (upsert_metrics (daily_metrics db) ms))
          ((if data_client w is Some _ then [VideosList vid] else [])
           ++ InsertVideo info
           :: (if analytics_client w is Some _
               then [ReportsQuery vid start (today w)] else [])
           ++ (InsertMetric <$> ms))
          (Return true).
Proof.
  intros Hinfo Hsub start ms. subst ms.
  rewrite run_sync_video, Hinfo, Hsub. cbn zeta.
  rewrite run_fetch_daily_analytics_from_youtube.
  pose proof (fetched_info_video_id _ _ _ Hinfo) as <-.
  rewrite select_published_date_upserted.
  destruct (analytics_client w); reflexivity.
Qed.

Lemma sub_days_Some d n r : Date.sub_days d n = Some r → r = d - n.
Proof. unfold Date.sub_days. case_decide; congruence. Qed.

Lemma sub_days_valid d n :
  Date.valid (d - n) → Date.sub_days d n = Some (d - n).
Proof. unfold Date.sub_days, Date.valid. intros ?. by case_decide. Qed.

Lemma date_max_Zmax a b : Date.max a b = Z.max a b.
Proof. unfold Date.max. case_decide; lia. Qed.

(** C5 (as the code has it). Every analytics request that [sync_video]
    sends is for the synced video, over the window that starts at
    [max(published_date, today − days_back)] and ends today, so the window
    never starts before the publication date; and the request is sent
    whenever the metadata was fetched, an analytics client exists and
    [today − days_back] is a date.  When [today − days_back] is no date,
    the subtraction raises [OverflowError] before the window is computed:
    the call ends in that exception and no analytics is requested. *)
Theorem sync_video_window w vid n db :
  (∀ v s e,
     ReportsQuery v s e ∈ effects (sync_video w vid n db) →
     ∃ info,
       fetched_info w vid = Some info ∧ v = vid
       ∧ s = Z.max (published_date info) (today w - n)
       ∧ e = today w
       ∧ published_date info ≤ s)
  ∧ (∀ info client,
       fetched_info w vid = Some info →
       analytics_client w = Some client →
       Date.valid (today w - n) →
       ReportsQuery vid (Z.max (published_date info) (today w - n)) (today w)
         ∈ effects (sync_video w vid n db))
  ∧ (∀ info,
       fetched_info w vid = Some info →
       ¬ Date.valid (today w - n) →
       result (sync_video w vid n db) = Raise OverflowError
       ∧ ∀ v s e, ReportsQuery v s e ∉ effects (sync_video w vid n db)).
Proof.
  split_and!.
  - intros v s e Hin.
    destruct (fetched_info w vid) as [info|] eqn:Hinfo.
    + destruct (Date.sub_days (today w) n) as [earliest|] eqn:Hsub.
      * rewrite (run_sync_video_fetched _ _ _ _ _ _ Hinfo Hsub) in Hin.
        cbn [effects] in Hin. apply sub_days_Some in Hsub as ->.
        rewrite date_max_Zmax in Hin.
        apply elem_of_app in Hin as [Hin|Hin].
        { destruct (data_client w); [|by apply elem_of_nil in Hin].
          by apply list_elem_of_singleton in Hin. }
        apply elem_of_cons in Hin as [Hin|Hin]; [done|].
        apply elem_of_app in Hin as [Hin|Hin].
        { destruct (analytics_client w); [|by apply elem_of_nil in Hin].
          apply list_elem_of_singleton in Hin. injection Hin as -> -> ->.
          exists info. split_and!; [done..|lia]. }
        apply list_elem_of_fmap in Hin as (m & Hm & _). done.
      * rewrite run_sync_video, Hinfo, Hsub in Hin.
        cbn [effects] in Hin. apply elem_of_app in Hin as [Hin|Hin].
        { destruct (data_client w); [|by apply elem_of_nil in Hin].
          by apply list_elem_of_singleton in Hin. }
        by apply list_elem_of_singleton in Hin.
    + rewrite run_sync_video, Hinfo in Hin. cbn [effects] in Hin.
      destruct (data_client w); [|by apply elem_of_nil in Hin].
      by apply list_elem_of_singleton in Hin.
  - intros info client Hinfo Hclient Hvalid.
    rewrite (run_sync_video_fetched _ _ _ _ _ _ Hinfo (sub_days_valid _ _ Hvalid)).
    cbn [effects]. rewrite Hclient, date_max_Zmax.
    apply elem_of_app. right. apply elem_of_cons. right.
    apply elem_of_app. left. by apply list_elem_of_singleton.
  - intros info Hinfo Hvalid.
    assert (Date.sub_days (today w) n = None) as Hsub.
    { unfold Date.sub_days, Date.valid in *. by case_decide. }
    rewrite run_sync_video, Hinfo, Hsub. cbn [result effects].
    split; [done|]. intros v s e [Hin|Hin]%elem_of_app.
    + destruct (data_client w); [|by apply elem_of_nil in Hin].
      by apply list_elem_of_singleton in Hin.
    + by apply list_elem_of_singleton in Hin.
Qed.

(** ** Metrics written by a sync *)

Lemma has_video_select db vid : has_video db vid ↔ select_video db vid ≠ [].
Proof.
  unfold has_video, select_video. rewrite list_elem_of_fmap. split.
  - intros (v & -> & Hv) Hnil.
    assert (v ∈ filter (λ r, video_id r = video_id v) (videos db)) as Hin
      by (by apply list_elem_of_filter).
    rewrite Hnil in Hin. by apply elem_of_nil in Hin.
  - intros Hne. destruct (filter _ _) as [|v l] eqn:Hf; [done|].
    assert (v ∈ filter (λ r, video_id r = vid) (videos db)) as Hv
      by (rewrite Hf; left).
    apply list_elem_of_filter in Hv as [<- Hv]. eauto.
Qed.

Lemma sync_video_inserted_metric w vid n db m :
  InsertMetric m ∈ effects (sync_video w vid n db) →
  ∃ info earliest client,
    fetched_info w vid = Some info
    ∧ Date.sub_days (today w) n = Some earliest
    ∧ analytics_client w = Some client
    ∧ m ∈ parse_report vid (published_date info)
            (client vid (Date.max (published_date info) earliest) (today w)).
Proof.
  intros Hin.
  destruct (fetched_info w vid) as [info|] eqn:Hinfo.
  - destruct (Date.sub_days (today w) n) as [earliest|] eqn:Hsub.
    + rewrite (run_sync_video_fetched _ _ _ _ _ _ Hinfo Hsub) in Hin.
      cbn [effects] in Hin.
      apply elem_of_app in Hin as [Hin|Hin].
      { destruct (data_client w); [|by apply elem_of_nil in Hin].
        by apply list_elem_of_singleton in Hin. }
      apply elem_of_cons in Hin as [Hin|Hin]; [done|].
      apply elem_of_app in Hin as [Hin|Hin].
      { destruct (analytics_client w); [|by apply elem_of_nil in Hin].
        by apply list_elem_of_singleton in Hin. }
      apply list_elem_of_fmap in Hin as (m' & [= <-] & Hm).
      destruct (analytics_client w) as [client|]; [|by apply elem_of_nil in Hm].
      by exists info, earliest, client.
    + rewrite run_sync_video, Hinfo, Hsub in Hin.
      cbn [effects] in Hin. apply elem_of_app in Hin as [Hin|Hin].
      { destruct (data_client w); [|by apply elem_of_nil in Hin].
        by apply list_elem_of_singleton in Hin. }
      by apply list_elem_of_singleton in Hin.
  - rewrite run_sync_video, Hinfo in Hin. cbn [effects] in Hin.
    destruct (data_client w); [|by apply elem_of_nil in Hin].
    by apply list_elem_of_singleton in Hin.
Qed.

(** C4. A metric built by [fetch_daily_analytics_from_youtube] carries
    the day difference between its date and the published_date of the
    video's row in the store, which is 0 when the two dates are equal;
    and a metric that [sync_video] writes carries that difference for the
    one row its video has in the store after the sync. *)
Theorem days_since_published_is_day_difference w vid :
  (∀ s e db ms m,
     result (fetch_daily_analytics_from_youtube w vid s e db) = Return ms →
     m ∈ ms →
     ∃ v, head (select_video db vid) = Some v
          ∧ m_video_id m = vid
          ∧ days_since_published m = m_date m - published_date v
          ∧ (m_date m = published_date v → days_since_published m = 0))
  ∧ (∀ n db m,
       InsertMetric m ∈ effects (sync_video w vid n db) →
       ∃ v, select_video (db_after (sync_video w vid n db)) (m_video_id m) = [v]
            ∧ days_since_published m = m_date m - published_date v
            ∧ (m_date m = published_date v → days_since_published m = 0)).
Proof.
  split.
  - intros s e db ms m Hrun Hm.
    rewrite run_fetch_daily_analytics_from_youtube in Hrun.
    unfold select_published_date in Hrun. fold (select_video db vid) in Hrun.
    destruct (analytics_client w) as [client|];
      [destruct (head (select_video db vid)) as [v|]|];
      cbn in Hrun; injection Hrun as <-; try by apply elem_of_nil in Hm.
    apply elem_of_parse_report in Hm as [Hid Hdays].
    unfold Date.days_between in Hdays.
    exists v. split_and!; [done..|lia].
  - intros n db m Hin.
    pose proof Hin as (info & earliest & client & Hinfo & Hsub & _ & Hm)
      %sync_video_inserted_metric.
    apply elem_of_parse_report in Hm as [Hid Hdays].
    unfold Date.days_between in Hdays.
    rewrite (run_sync_video_fetched _ _ _ _ _ _ Hinfo Hsub). cbn [db_after].
    exists info. split_and!; [|done|lia].
    unfold select_video. cbn [videos].
    rewrite Hid, <- (fetched_info_video_id _ _ _ Hinfo).
    rewrite insert_or_replace_video_eq. apply select_replaced.
Qed.

Lemma writes_guarded_app db es1 es2 :
  writes_guarded db (es1 ++ es2) ↔
  writes_guarded db es1 ∧ writes_guarded (replay db es1) es2.
Proof.
  revert db. induction es1 as [|e es1 IH]; intros db; cbn.
  - tauto.
  - rewrite IH. tauto.
Qed.

Lemma writes_guarded_prefix db pre m post :
  writes_guarded db (pre ++ InsertMetric m :: post) →
  has_video (replay db pre) (m_video_id m).
Proof. rewrite writes_guarded_app. cbn. tauto. Qed.

Lemma has_video_insert_or_replace v tbl vid :
  vid ∈ video_id <$> tbl →
  vid ∈ video_id <$> insert_or_replace_video v tbl.
Proof.
  rewrite !list_elem_of_fmap. intros (r & -> & Hr).
  destruct (decide (video_id r = video_id v)) as [Heq|Hne].
  - exists v. split; [done|].
    apply (elem_of_insert_or_replace video_id). by left.
  - exists r. split; [done|].
    apply (elem_of_insert_or_replace video_id). by right.
Qed.

Lemma has_video_apply_effect db e vid :
  has_video db vid → has_video (apply_effect db e) vid.
Proof.
  unfold has_video. destruct e; cbn [apply_effect videos]; try done.
  apply has_video_insert_or_replace.
Qed.

Lemma has_video_upserted info db ms :
  has_video (mkDB (insert_or_replace_video info (videos db)) ms)
            (video_id info).
Proof.
  unfold has_video. cbn [videos]. apply list_elem_of_fmap.
  exists info. split; [done|].
  apply (elem_of_insert_or_replace video_id). by left.
Qed.

Lemma writes_guarded_metrics db ms :
  Forall (λ m, has_video db (m_video_id m)) ms →
  writes_guarded db (InsertMetric <$> ms).
Proof.
  intros Hall. revert db Hall.
  induction ms as [|m ms IH]; intros db Hall; cbn; [done|].
  apply Forall_cons in Hall as [Hm Hall].
  split; [done|]. apply IH.
  eapply Forall_impl; [exact Hall|]. intros m' Hm'.
  by apply (has_video_apply_effect db (InsertMetric m)).
Qed.

Lemma writes_guarded_parsed db vid published response :
  has_video db vid →
  writes_guarded db (InsertMetric <$> parse_report vid published response).
Proof.
  intros Hv. apply writes_guarded_metrics, Forall_forall. intros m Hm.
  apply elem_of_parse_report in Hm as [-> _]. done.
Qed.

Lemma writes_guarded_sync_video w vid n db :
  writes_guarded db (effects (sync_video w vid n db)).
Proof.
  destruct (fetched_info w vid) as [info|] eqn:Hinfo.
  - pose proof (fetched_info_video_id _ _ _ Hinfo) as Hid.
    destruct (Date.sub_days (today w) n) as [earliest|] eqn:Hsub.
    + rewrite (run_sync_video_fetched _ _ _ _ _ _ Hinfo Hsub).
      cbn [effects]. destruct (data_client w); cbn; (split; [done|]).
      * split; [done|].
        destruct (analytics_client w) as [client|]; cbn; [split; [done|]|done].
        apply writes_guarded_parsed. rewrite <- Hid. apply has_video_upserted.
      * destruct (analytics_client w) as [client|]; cbn; [split; [done|]|done].
        apply writes_guarded_parsed. rewrite <- Hid. apply has_video_upserted.
    + rewrite run_sync_video, Hinfo, Hsub. cbn [effects].
      destruct (data_client w); cbn; tauto.
  - rewrite run_sync_video, Hinfo. cbn [effects].
    destruct (data_client w); cbn; tauto.
Qed.

(** C10. [fetch_daily_analytics_from_youtube] returns the empty list,
    asks the provider nothing and writes nothing when the video is not in
    the store; and each metric that [sync_video] writes is for the synced
    video, which the store holds at the moment of that write. *)
Theorem sync_video_writes_for_stored_video w vid :
  (∀ s e db,
     ¬ has_video db vid →
     fetch_daily_analytics_from_youtube w vid s e db = mkRun db [] (Return []))
  ∧ (∀ n db pre m post,
       effects (sync_video w vid n db) = pre ++ InsertMetric m :: post →
       m_video_id m = vid ∧ has_video (replay db pre) (m_video_id m)).
Proof.
  split.
  - intros s e db Habs. rewrite run_fetch_daily_analytics_from_youtube.
    unfold select_published_date. fold (select_video db vid).
    destruct (select_video db vid) as [|v l] eqn:Hsel.
    + by destruct (analytics_client w).
    + exfalso. apply Habs, has_video_select. by rewrite Hsel.
  - intros n db pre m post Heff. split.
    + assert (InsertMetric m ∈ effects (sync_video w vid n db)) as Hin.
      { rewrite Heff. apply elem_of_app. right. left. }
      apply sync_video_inserted_metric in Hin
        as (info & earliest & client & _ & _ & _ & Hm).
      by apply elem_of_parse_report in Hm as [? _].
    + eapply writes_guarded_prefix. rewrite <- Heff.
      apply writes_guarded_sync_video.
Qed.

(** ** Referential integrity *)

Lemma referential_integrity_apply_effect db e :
  referential_integrity db →
  writes_guarded db [e] →
  referential_integrity (apply_effect db e).
Proof.
  unfold referential_integrity. intros Hri [Hg _].
  destruct e as [| |v|m]; cbn [apply_effect daily_metrics]; try done.
  - eapply Forall_impl; [exact Hri|]. intros m Hm.
    by apply (has_video_apply_effect db (InsertVideo v)).
  - apply Forall_forall. intros r Hr.
    rewrite insert_or_replace_metric_eq in Hr.
    apply (elem_of_insert_or_replace metric_key) in Hr as [->|[_ Hr]].
    + exact Hg.
    + rewrite Forall_forall in Hri. by apply Hri.
Qed.

Lemma referential_integrity_replay db es :
  referential_integrity db →
  writes_guarded db es →
  referential_integrity (replay db es).
Proof.
  revert db. induction es as [|e es IH]; intros db Hri Hg; [done|].
  destruct Hg as [He Hes]. cbn. apply IH; [|done].
  apply referential_integrity_apply_effect; [done|]. by split.
Qed.

Lemma referential_integrity_store_video_info db v :
  referential_integrity db →
  referential_integrity (db_after (store_video_info v db)).
Proof.
  intros Hri. rewrite coherent_store_video_info.
  apply referential_integrity_replay; [done|]. by cbn.
Qed.

Lemma referential_integrity_sync_video db w vid n :
  referential_integrity db →
  referential_integrity (db_after (sync_video w vid n db)).
Proof.
  intros Hri. rewrite coherent_sync_video.
  apply referential_integrity_replay; [done|].
  apply writes_guarded_sync_video.
Qed.

Lemma referential_integrity_store_daily_metrics db ms :
  referential_integrity db →
  Forall (λ m, has_video db (m_video_id m)) ms →
  referential_integrity (db_after (store_daily_metrics ms db)).
Proof.
  intros Hri Hms. rewrite coherent_store_daily_metrics.
  apply referential_integrity_replay; [done|].
  rewrite run_store_daily_metrics. cbn [effects].
  by apply writes_guarded_metrics.
Qed.

(** A store filled only by [store_video_info] and [sync_video] has no
    metric without its video. *)
Lemma synced_referential_integrity db :
  synced db → referential_integrity db.
Proof.
  induction 1 as [|db v _ IH|db w vid n _ IH].
  - constructor.
  - by apply referential_integrity_store_video_info.
  - by apply referential_integrity_sync_video.
Qed.

(** C6 (as the code has it). In every store that [store_video_info] and
    [sync_video] alone produce, each metric row has its video in
    [videos]; both methods keep it so from any store where it holds;
    [store_daily_metrics] keeps it so for metrics of videos the store
    holds, and that is the only case in which it is bound to: the table
    accepts any video_id. *)
Theorem referential_integrity_preserved :
  (∀ db, synced db → referential_integrity db)
  ∧ (∀ db,
       referential_integrity db →
       (∀ v, referential_integrity (db_after (store_video_info v db)))
       ∧ (∀ w vid n, referential_integrity (db_after (sync_video w vid n db)))
       ∧ (∀ ms,
            Forall (λ m, has_video db (m_video_id m)) ms →
            referential_integrity (db_after (store_daily_metrics ms db)))).
Proof.
  split; [exact synced_referential_integrity|].
  intros db Hri. split_and!.
  - intros v. by apply referential_integrity_store_video_info.
  - intros w vid n. by apply referential_integrity_sync_video.
  - intros ms Hms. by apply referential_integrity_store_daily_metrics.
Qed.

(** ** A failing analytics request *)

(** C7 (as the code has it). When the metadata was fetched and the
    analytics fetch fails, [sync_video] still returns [True]: the video
    row is upserted, no metric is written, and the caller cannot tell the
    failure from a report without rows. *)
Theorem sync_video_analytics_failure_is_success w vid n db info :
  fetched_info w vid = Some info →
  Date.valid (today w - n) →
  analytics_fetch_fails w vid
    (Z.max (published_date info) (today w - n)) (today w) →
  result (sync_video w vid n db) = Return true
  ∧ db_after (sync_video w vid n db) = db_after (store_video_info info db)
  ∧ ∀ m, InsertMetric m ∉ effects (sync_video w vid n db).
Proof.
  intros Hinfo Hvalid Hfail. apply sub_days_valid in Hvalid as Hsub.
  assert (match analytics_client w with
          | Some client =>
              parse_report vid (published_date info)
                (client vid (Date.max (published_date info) (today w - n))
                   (today w))
          | None => []
          end = []) as Hms.
  { rewrite date_max_Zmax.
    destruct Hfail as [Hc|client Hc Hr]; rewrite Hc; [done|by rewrite Hr]. }
  split_and!.
  - by rewrite (run_sync_video_fetched _ _ _ _ _ _ Hinfo Hsub).
  - rewrite (run_sync_video_fetched _ _ _ _ _ _ Hinfo Hsub).
    cbn [db_after]. by rewrite Hms.
  - intros m Hin.
    apply sync_video_inserted_metric in Hin
      as (info' & earliest & client & Hinfo' & Hsub' & Hc & Hm).
    rewrite Hinfo in Hinfo'. injection Hinfo' as <-.
    rewrite Hsub in Hsub'. injection Hsub' as <-.
    rewrite Hc in Hms. rewrite Hms in Hm. by apply elem_of_nil in Hm.
Qed.

(** ** Recent videos *)

Global Instance published_desc_total : Total published_desc.
Proof. intros a b. unfold published_desc. lia. Qed.

Lemma Sorted_lookup_next {A} (R : relation A) l i a b :
  Sorted R l → l !! i = Some a → l !! S i = Some b → R a b.
Proof.
  intros Hs. revert i. induction Hs as [|x l Hs IH Hhd]; intros i Ha Hb.
  - done.
  - destruct i as [|i].
    + injection Ha as ->. destruct Hhd as [|y l Hxy]; [done|].
      by injection Hb as ->.
    + by eapply IH.
Qed.

Lemma lookup_sql_limit {A} limit (l : list A) i x :
  sql_limit limit l !! i = Some x → l !! i = Some x.
Proof.
  unfold sql_limit. case_decide; [done|].
  by intros [? _]%lookup_take_Some.
Qed.

(** C9 (as the code has it). With a limit that is not negative at most
    [limit] ids are returned; a negative limit returns every video, which
    is how SQLite reads it; in both cases the ids are those of rows of
    [videos] listed in descending order of published_date: each one's
    date is at least the next one's. *)
Theorem get_recent_videos_limit_and_order db limit :
  (0 ≤ limit → Z.of_nat (length (get_recent_videos db limit)) ≤ limit)
  ∧ (limit < 0 → get_recent_videos db limit ≡ₚ video_id <$> videos db)
  ∧ ∃ rows,
      get_recent_videos db limit = video_id <$> rows
      ∧ (∀ r, r ∈ rows → r ∈ videos db)
      ∧ ∀ i va vb,
          rows !! i = Some va → rows !! S i = Some vb →
          published_date vb ≤ published_date va.
Proof.
  unfold get_recent_videos. split_and!.
  - intros Hlimit. rewrite length_fmap. unfold sql_limit.
    rewrite decide_False by lia. rewrite length_take. lia.
  - intros Hlimit. unfold sql_limit. rewrite decide_True by done.
    by rewrite merge_sort_Permutation.
  - exists (sql_limit limit (merge_sort published_desc (videos db))).
    split_and!; [done|..].
    + intros r [i Hi]%list_elem_of_lookup_1.
      apply lookup_sql_limit, list_elem_of_lookup_2 in Hi.
      by rewrite merge_sort_Permutation in Hi.
    + intros i va vb Ha Hb. apply lookup_sql_limit in Ha, Hb.
      eapply (Sorted_lookup_next published_desc); [|exact Ha|exact Hb].
      apply Sorted_merge_sort, _.
Qed.

(** ** Dicts filled by a loop *)

Lemma elem_of_dict_set {V} (d : list (string * V)) k v kv :
  kv ∈ dict_set d k v → kv = (k, v) ∨ kv ∈ d.
Proof.
  induction d as [|[k' v'] d IH]; cbn.
  - intros ->%list_elem_of_singleton. by left.
  - case_decide.
    + intros [->|?]%elem_of_cons; [by left|right; by right].
    + intros [->|[->|?]%IH]%elem_of_cons;
        [right; left|by left|right; by right].
Qed.

Lemma length_dict_set {V} (d : list (string * V)) k v :
  (length (dict_set d k v) ≤ S (length d))%nat.
Proof.
  induction d as [|[k' v'] d IH]; cbn; [lia|]. case_decide; cbn; lia.
Qed.

Lemma dict_get_dict_set {V} (d : list (string * V)) k v k' :
  dict_get (dict_set d k v) k'
  = if decide (k = k') then Some v else dict_get d k'.
Proof.
  unfold dict_get. induction d as [|[k0 v0] d IH]; cbn [dict_set].
  - rewrite filter_cons, filter_nil. cbn [fst].
    by destruct (decide (k = k')).
  - destruct (decide (k0 = k)) as [->|Hne].
    + rewrite !filter_cons. cbn [fst].
      by destruct (decide (k = k')).
    + rewrite !filter_cons. cbn [fst].
      destruct (decide (k0 = k')) as [->|Hne'].
      * by rewrite decide_False by done.
      * exact IH.
Qed.

Lemma dict_set_fmap {V W} (f : V → W) (d : list (string * V)) k v :
  (λ x, (x.1, f x.2)) <$> dict_set d k v
  = dict_set ((λ x, (x.1, f x.2)) <$> d) k (f v).
Proof.
  induction d as [|[k0 v0] d IH]; [done|].
  cbn [dict_set fmap list_fmap fst snd]. case_decide; [done|].
  cbn [fmap list_fmap fst snd] in *. by rewrite <- IH.
Qed.

Lemma dict_get_fmap {V W} (f : V → W) (d : list (string * V)) k :
  dict_get ((λ x, (x.1, f x.2)) <$> d) k = f <$> dict_get d k.
Proof.
  unfold dict_get. induction d as [|[k0 v0] d IH]; [done|].
  rewrite fmap_cons, !filter_cons. cbn [fst snd].
  destruct (decide (k0 = k)); [done|exact IH].
Qed.

Lemma dict_set_keys_order {V} (d : list (string * V)) k v :
  (dict_set d k v).*1 = if decide (k ∈ d.*1) then d.*1 else d.*1 ++ [k].
Proof.
  induction d as [|[k0 v0] d IH]; cbn [dict_set].
  - rewrite decide_False; [done|apply not_elem_of_nil].
  - rewrite !fmap_cons. cbn [fst].
    destruct (decide (k0 = k)) as [->|Hne].
    + rewrite decide_True by left. done.
    + rewrite fmap_cons, IH. cbn [fst].
      destruct (decide (k ∈ d.*1)) as [Hin|Hin].
      * rewrite decide_True by (by right). done.
      * rewrite decide_False; [done|].
        intros [?|?]%elem_of_cons; done.
Qed.

Lemma elem_of_dict_get {V} (d : list (string * V)) k v :
  dict_get d k = Some v → (k, v) ∈ d.
Proof.
  unfold dict_get. induction d as [|[k0 v0] d IH]; [done|].
  rewrite filter_cons. cbn [fst]. destruct (decide (k0 = k)) as [->|Hne].
  - cbn. intros [= ->]. left.
  - intros ?. right. by apply IH.
Qed.

Lemma dict_get_elem_of {V} (d : list (string * V)) k v :
  NoDup d.*1 → (k, v) ∈ d → dict_get d k = Some v.
Proof.
  unfold dict_get. induction d as [|[k0 v0] d IH]; intros Hnodup Hin.
  - by apply elem_of_nil in Hin.
  - rewrite fmap_cons in Hnodup. apply NoDup_cons in Hnodup as [Hfresh Hnodup].
    rewrite filter_cons. cbn [fst]. destruct (decide (k0 = k)) as [->|Hne].
    + apply elem_of_cons in Hin as [[= ->]|Hin]; [done|].
      destruct Hfresh. apply list_elem_of_fmap. by exists (k, v).
    + apply elem_of_cons in Hin as [[= -> ->]|Hin]; [done|]. by apply IH.
Qed.

Lemma dict_get_None {V} (d : list (string * V)) k :
  dict_get d k = None ↔ k ∉ d.*1.
Proof.
  unfold dict_get. induction d as [|[k0 v0] d IH].
  - split; [intros _; apply not_elem_of_nil|done].
  - rewrite filter_cons, fmap_cons, not_elem_of_cons. cbn [fst].
    destruct (decide (k0 = k)) as [->|Hne].
    + cbn. split; [done|]. by intros [? _].
    + rewrite IH. split; [by split|by intros [_ ?]].
Qed.

Lemma dict_set_keys {V} (d : list (string * V)) k v k' :
  k' ∈ (dict_set d k v).*1 ↔ k' = k ∨ k' ∈ d.*1.
Proof.
  induction d as [|[k0 v0] d IH]; cbn [dict_set].
  - rewrite fmap_cons, !fmap_nil, elem_of_cons. done.
  - case_decide as Hk; subst; rewrite !fmap_cons, !elem_of_cons; cbn [fst].
    + tauto.
    + rewrite IH. tauto.
Qed.

Lemma NoDup_dict_set {V} (d : list (string * V)) k v :
  NoDup d.*1 → NoDup (dict_set d k v).*1.
Proof.
  induction d as [|[k0 v0] d IH]; cbn [dict_set].
  - intros _. rewrite fmap_cons, fmap_nil. apply NoDup_singleton.
  - rewrite fmap_cons. intros [Hfresh Hnodup]%NoDup_cons. cbn [fst] in Hfresh.
    case_decide as Hk; subst; rewrite fmap_cons; apply NoDup_cons; cbn [fst].
    + done.
    + split; [|by apply IH]. rewrite dict_set_keys. intros [?|?]; done.
Qed.

Lemma last_occurrence {A} (key : A → string) (rs : list A) vid :
  vid ∈ key <$> rs →
  ∃ pre r post, rs = pre ++ r :: post ∧ key r = vid ∧ vid ∉ key <$> post.
Proof.
  induction rs as [|r rs IH]; [by intros ?%elem_of_nil|].
  rewrite fmap_cons. intros Hin.
  destruct (decide (vid ∈ key <$> rs)) as [Hlater|Hlast].
  - destruct (IH Hlater) as (pre & r' & post & -> & Hkey & Hpost).
    by exists (r :: pre), r', post.
  - apply elem_of_cons in Hin as [->|?]; [|done]. by exists [], r, rs.
Qed.

Section dict_fold.
Context {A V : Type} (key : A → string) (entry : A → option V).
Context (g : list (string * V) → A → list (string * V)).
Hypothesis g_entry :
  ∀ d r, g d r = match entry r with
                 | Some c => dict_set d (key r) c
                 | None => d
                 end.

Lemma dict_fold_untouched d rs vid :
  vid ∉ key <$> rs → dict_get (foldl g d rs) vid = dict_get d vid.
Proof.
  revert d. induction rs as [|r rs IH]; intros d; [done|].
  rewrite fmap_cons. intros [Hne Hnot]%not_elem_of_cons. cbn [foldl].
  rewrite IH by done. rewrite g_entry. destruct (entry r); [|done].
  rewrite dict_get_dict_set. by rewrite decide_False by done.
Qed.

Lemma dict_fold_last d pre r post :
  key r ∉ key <$> post →
  dict_get (foldl g d (pre ++ r :: post)) (key r)
  = match entry r with
    | Some c => Some c
    | None => dict_get (foldl g d pre) (key r)
    end.
Proof.
  intros Hlast. rewrite foldl_app. cbn [foldl].
  rewrite dict_fold_untouched by done. rewrite g_entry.
  destruct (entry r); [|done]. rewrite dict_get_dict_set.
  by rewrite decide_True.
Qed.

Lemma dict_fold_sound d rs vid c :
  dict_get (foldl g d rs) vid = Some c →
  dict_get d vid = Some c ∨ ∃ r, r ∈ rs ∧ key r = vid ∧ entry r = Some c.
Proof.
  revert d. induction rs as [|r rs IH]; intros d; [by left|].
  cbn [foldl]. intros [Hd|(r' & Hin & Hkey & Hentry)]%IH.
  - rewrite g_entry in Hd. destruct (entry r) as [c0|] eqn:Hentry; [|by left].
    rewrite dict_get_dict_set in Hd. case_decide as Hk; [|by left].
    injection Hd as ->. right. exists r. split_and!; [left|done..].
  - right. exists r'. split_and!; [by right|done..].
Qed.

Lemma dict_fold_NoDup d rs : NoDup d.*1 → NoDup (foldl g d rs).*1.
Proof.
  revert d. induction rs as [|r rs IH]; intros d Hnodup; [done|].
  cbn [foldl]. apply IH. rewrite g_entry.
  destruct (entry r); [by apply NoDup_dict_set|done].
Qed.

Lemma dict_fold_length d rs :
  (length (foldl g d rs) ≤ length d + length rs)%nat.
Proof.
  revert d. induction rs as [|r rs IH]; intros d; cbn [foldl length]; [lia|].
  etrans; [apply IH|]. rewrite g_entry.
  destruct (entry r) as [c|]; [|lia].
  pose proof (length_dict_set d (key r) c). lia.
Qed.

Lemma dict_fold_keys d rs vid :
  vid ∈ (foldl g d rs).*1
  ↔ vid ∈ d.*1 ∨ ∃ r, r ∈ rs ∧ key r = vid ∧ is_Some (entry r).
Proof.
  revert d. induction rs as [|r rs IH]; intros d; cbn [foldl].
  - split; [by left|]. intros [?|(r & Hin & _)]; [done|].
    by apply elem_of_nil in Hin.
  - rewrite IH, g_entry. split.
    + intros [Hd|(r' & Hin & Hkey & Hentry)].
      * destruct (entry r) as [c|] eqn:Hentry; [|by left].
        apply dict_set_keys in Hd as [->|Hd]; [|by left].
        right. exists r. split_and!; [left|done|by rewrite Hentry].
      * right. exists r'. split_and!; [by right|done..].
    + intros [Hd|(r' & [->|Hin]%elem_of_cons & Hkey & Hentry)].
      * left. destruct (entry r); [|done]. apply dict_set_keys. by right.
      * left. destruct Hentry as [c ->]. apply dict_set_keys. by left.
      * right. by exists r'.
Qed.

(** An entry that depends on the key only: the dict maps each key of the
    loop to its entry, and lists the keys in the order in which they
    first come. *)
Lemma dict_fold_lookup (e : string → option V) rs vid :
  (∀ r, entry r = e (key r)) →
  dict_get (foldl g [] rs) vid
  = if decide (vid ∈ key <$> rs) then e vid else None.
Proof.
  intros He. case_decide as Hin.
  - apply last_occurrence in Hin as (pre & r & post & -> & <- & Hpost).
    rewrite (dict_fold_last [] pre r post Hpost), He.
    destruct (e (key r)) as [c|] eqn:Hentry; [done|].
    destruct (dict_get (foldl g [] pre) (key r)) as [c|] eqn:Hget; [|done].
    apply dict_fold_sound in Hget as [Hnil|(r' & _ & Hkey & Hr')]; [done|].
    rewrite He, Hkey in Hr'. congruence.
  - by rewrite dict_fold_untouched.
Qed.

Lemma dict_fold_order (e : string → option V) d rs :
  (∀ r, entry r = e (key r)) →
  (foldl g d rs).*1
  = d.*1 ++ filter (λ k, (k ∉ d.*1) ∧ is_Some (e k))
             (first_requests (key <$> rs)).
Proof.
  intros He. revert d. induction rs as [|r rs IH]; intros d.
  - cbn. by rewrite app_nil_r.
  - cbn [foldl]. rewrite IH, g_entry, He, fmap_cons.
    cbn [first_requests]. rewrite filter_cons, list_filter_filter.
    destruct (e (key r)) as [c|] eqn:Hentry.
    + rewrite dict_set_keys_order.
      destruct (decide (key r ∈ d.*1)) as [Hin|Hin].
      * rewrite decide_False by tauto. f_equal.
        apply list_filter_iff. intros k. split; [|tauto].
        intros [? ?]. split_and!; [done..|]. by intros ->.
      * rewrite decide_True by (split; [done|by eexists]).
        rewrite <- app_assoc. cbn [app]. do 2 f_equal.
        apply list_filter_iff. intros k.
        rewrite not_elem_of_app, list_elem_of_singleton. tauto.
    + rewrite decide_False by (by intros [_ [? ?]]).
      f_equal. apply list_filter_iff. intros k. split; [|tauto].
      intros [? Hk]. split_and!; [done..|]. intros ->.
      rewrite Hentry in Hk. by destruct Hk.
Qed.

End dict_fold.


Lemma foldl_unreadable {A D} (g : D → A → D) (acc : option D)
    (rows : list (option A)) :
  None ∈ rows →
  foldl (λ acc row, d ← acc; r ← row; Some (g d r)) acc rows = None.
Proof.
  assert (∀ rows : list (option A),
            foldl (λ acc row, d ← acc; r ← row; Some (g d r)) None rows = None)
    as Hnone.
  { intros rs. by induction rs. }
  revert acc. induction rows as [|row rows IH]; intros acc;
    [by intros ?%elem_of_nil|].
  intros [<-|Hin]%elem_of_cons; cbn [foldl].
  - destruct acc; apply Hnone.
  - by apply IH.
Qed.

Lemma foldl_read {A D} (g : D → A → D) (d : D) (rs : list A) :
  foldl (λ acc row, d ← acc; r ← row; Some (g d r)) (Some d) (Some <$> rs)
  = Some (foldl g d rs).
Proof. revert d. induction rs as [|r rs IH]; intros d; [done|]. apply IH. Qed.

Lemma all_read {A} (rows : list (option A)) :
  None ∉ rows → ∃ rs, rows = Some <$> rs.
Proof.
  induction rows as [|[r|] rows IH].
  - by exists [].
  - intros [_ Hnot]%not_elem_of_cons. destruct (IH Hnot) as [rs ->].
    by exists (r :: rs).
  - intros []. left.
Qed.


(** ** First-week performance *)

Lemma filter_bind {A B} (P : B → Prop) `{∀ x, Decision (P x)}
    (f : A → list B) (l : list A) :
  filter P (l ≫= f) = l ≫= λ x, filter P (f x).
Proof.
  induction l as [|x l IH]; [done|].
  cbn. by rewrite filter_app, IH.
Qed.

Lemma first_week_where_None vid src v :
  ¬ first_week_where vid src (v, None).
Proof.
  unfold first_week_where. cbn.
  destruct (bool_decide (video_id v = vid)); cbn; tauto.
Qed.

Lemma first_week_where_Some vid src v m :
  first_week_where vid src (v, Some m) ↔
  video_id v = vid
  ∧ 0 ≤ days_since_published m ≤ 6 ∧ traffic_source m = src.
Proof.
  unfold first_week_where. cbn.
  rewrite !andb_True, !bool_decide_spec. tauto.
Qed.

Lemma where_joined vid src v (ms : list DailyMetric) :
  filter (λ r, first_week_where vid src r) ((λ dm, (v, Some dm)) <$> ms) =
    if decide (video_id v = vid)
    then (λ dm, (v, Some dm)) <$>
           filter (λ m, 0 ≤ days_since_published m ≤ 6 ∧ traffic_source m = src) ms
    else [].
Proof.
  induction ms as [|m ms IH]; [by case_decide|].
  rewrite fmap_cons.
  destruct (decide (first_week_where vid src (v, Some m))) as [Hw|Hw].
  - rewrite filter_cons_True, IH by done.
    apply first_week_where_Some in Hw as [Hid Hq].
    rewrite !decide_True by done. by rewrite (filter_cons_True _ m ms Hq).
  - rewrite filter_cons_False, IH by done.
    rewrite first_week_where_Some in Hw.
    case_decide as Hid; [|done].
    rewrite (filter_cons_False _ m ms); [done|tauto].
Qed.

Lemma where_left_join_row vid src v dms :
  filter (λ r, first_week_where vid src r)
    (match filter (λ dm, video_id v = m_video_id dm) dms with
     | [] => [(v, None)]
     | ms => (λ dm, (v, Some dm)) <$> ms
     end) =
    if decide (video_id v = vid)
    then (λ dm, (v, Some dm)) <$>
           filter (λ m, m_video_id m = vid
                        ∧ 0 ≤ days_since_published m ≤ 6
                        ∧ traffic_source m = src) dms
    else [].
Proof.
  assert (video_id v = vid →
          filter (λ m, m_video_id m = vid
                       ∧ 0 ≤ days_since_published m ≤ 6
                       ∧ traffic_source m = src) dms
          = filter (λ m, 0 ≤ days_since_published m ≤ 6 ∧ traffic_source m = src)
              (filter (λ dm, video_id v = m_video_id dm) dms)) as Hrows.
  { intros <-. rewrite list_filter_filter. apply list_filter_iff.
    intros m. intuition congruence. }
  destruct (filter (λ dm, video_id v = m_video_id dm) dms) as [|m ms] eqn:Hf.
  - rewrite filter_cons_False, filter_nil by apply first_week_where_None.
    case_decide as Hid; [|done]. by rewrite (Hrows Hid).
  - rewrite where_joined. case_decide as Hid; [|done]. by rewrite (Hrows Hid).
Qed.

Lemma bind_by_key (h : VideoInfo → list (VideoInfo * option DailyMetric))
    vid (vs : list VideoInfo) :
  NoDup (video_id <$> vs) →
  vs ≫= (λ v, if decide (video_id v = vid) then h v else []) =
    match head (filter (λ v, video_id v = vid) vs) with
    | Some v => h v
    | None => []
    end.
Proof.
  induction vs as [|v vs IH]; [done|].
  rewrite fmap_cons, NoDup_cons. intros [Hv Hnd].
  cbn [mbind list_bind]. rewrite filter_cons. case_decide as Hid.
  - cbn [head]. rewrite IH by done.
    replace (filter _ vs) with (@nil VideoInfo); [by rewrite app_nil_r|].
    symmetry. destruct (filter _ vs) as [|u l] eqn:Hf; [done|].
    assert (u ∈ filter (λ v, video_id v = vid) vs) as Hu by (rewrite Hf; left).
    apply list_elem_of_filter in Hu as [Hu1 Hu2].
    exfalso. apply Hv. rewrite Hid, <- Hu1. apply list_elem_of_fmap. eauto.
  - by rewrite IH.
Qed.

(** *** The sum *)

Lemma int64_zero : INT64_MIN ≤ 0 ≤ INT64_MAX.
Proof. unfold INT64_MIN, INT64_MAX. lia. Qed.

Lemma sum_step_Some a x :
  sum_step (Some a) x
  = if decide (INT64_MIN ≤ a + x ≤ INT64_MAX) then Some (a + x) else None.
Proof. done. Qed.

Lemma sum_step_None xs : foldl sum_step None xs = None.
Proof. by induction xs. Qed.

Lemma sum_total xs a total :
  foldl sum_step (Some a) xs = Some total → total = a + foldr Z.add 0 xs.
Proof.
  revert a. induction xs as [|x xs IH]; intros a; cbn [foldl foldr].
  - intros [= <-]. lia.
  - rewrite sum_step_Some. case_decide.
    + intros ->%IH. lia.
    + by rewrite sum_step_None.
Qed.

Lemma foldr_add_nonneg xs : Forall (λ x, 0 ≤ x) xs → 0 ≤ foldr Z.add 0 xs.
Proof. induction 1; cbn; lia. Qed.

Lemma foldr_add_Permutation xs ys :
  xs ≡ₚ ys → foldr Z.add 0 xs = foldr Z.add 0 ys.
Proof. induction 1; cbn; lia. Qed.

(** Counts that are not negative: the running total grows, so it leaves
    the range exactly when the total does, whatever the order. *)
Lemma sum_overflows_nonneg xs :
  Forall (λ x, 0 ≤ x) xs →
  sum_overflows xs ↔ INT64_MAX < foldr Z.add 0 xs.
Proof.
  unfold sum_overflows. pose proof int64_zero as Hzero.
  assert (∀ a, 0 ≤ a ≤ INT64_MAX → Forall (λ x, 0 ≤ x) xs →
            foldl sum_step (Some a) xs = None
            ↔ INT64_MAX < a + foldr Z.add 0 xs) as Hfrom.
  { induction xs as [|x xs IH]; intros a Ha Hxs; cbn [foldl foldr].
    - split; [done|lia].
    - apply Forall_cons in Hxs as [Hx Hxs].
      pose proof (foldr_add_nonneg xs Hxs).
      rewrite sum_step_Some. case_decide.
      + rewrite IH by (done || lia). lia.
      + rewrite sum_step_None. split; [lia|done]. }
  intros Hxs. rewrite (Hfrom 0) by (done || lia). lia.
Qed.

Lemma first_week_scan_Permutation scan db vid src :
  visits_all scan →
  first_week_scan scan db vid src ≡ₚ views <$> first_week_rows db vid src.
Proof.
  intros Hscan. unfold first_week_scan, first_week_rows.
  by rewrite (Hscan (daily_metrics db)).
Qed.

Lemma sql_sum_views (v : VideoInfo) (ms : list DailyMetric) :
  sql_sum ((λ r : VideoInfo * option DailyMetric, views <$> r.2) <$>
             ((λ dm, (v, Some dm)) <$> ms)) =
    if ms is [] then Return None
    else match foldl sum_step (Some 0) (views <$> ms) with
         | Some total => Return (Some total)
         | None => Raise OperationalError
         end.
Proof.
  unfold sql_sum.
  replace (omap id _) with (views <$> ms); [by destruct ms|].
  induction ms as [|m ms IH]; [done|]. cbn. by rewrite <- IH.
Qed.

(** *** The SELECT *)

(** The SELECT's answer in a table that respects the primary key. *)
Lemma first_week_query_pk scan db vid src :
  videos_pk db →
  first_week_query scan db vid src =
    match head (select_video db vid), first_week_scan scan db vid src with
    | Some v, x :: xs =>
        match foldl sum_step (Some 0) (x :: xs) with
        | Some total => Return (Some (title v, published_date v, Some total))
        | None => Raise OperationalError
        end
    | _, _ => Return None
    end.
Proof.
  intros Hpk. unfold first_week_scan.
  set (ms := filter (λ m, m_video_id m = vid
                          ∧ 0 ≤ days_since_published m ≤ 6
                          ∧ traffic_source m = src)
               (scan (daily_metrics db))).
  assert (filter (λ r, first_week_where vid src r)
            (left_join (videos db) (scan (daily_metrics db))) =
          match head (select_video db vid) with
          | Some v => (λ dm, (v, Some dm)) <$> ms
          | None => []
          end) as Hjoin.
  { unfold left_join, select_video. rewrite filter_bind.
    rewrite <- (bind_by_key _ _ _ Hpk).
    apply list_bind_ext; [|done]. intros v. apply where_left_join_row. }
  unfold first_week_query. rewrite Hjoin.
  destruct (head (select_video db vid)) as [v|]; [|done].
  destruct ms as [|m ms']; [done|].
  rewrite sql_sum_views.
  change (views <$> m :: ms') with (views m :: (views <$> ms')).
  transitivity
    (match foldl sum_step (Some 0) (views m :: (views <$> ms')) with
     | Some total => Return (Some (title v, published_date v, Some total))
     | None => Raise OperationalError
     end); [|done].
  by destruct (foldl sum_step (Some 0) (views m :: (views <$> ms'))).
Qed.

Lemma first_week_query_raises scan db vid src e :
  first_week_query scan db vid src = Raise e → e = OperationalError.
Proof.
  unfold first_week_query, sql_sum.
  destruct (filter _ _) as [|r rows]; [done|].
  destruct (omap id _) as [|y ys]; [done|].
  destruct (foldl sum_step (Some 0) (y :: ys)); [done|]. by intros [= <-].
Qed.

Lemma first_week_query_overflow scan db vid src :
  videos_pk db →
  first_week_query scan db vid src = Raise OperationalError
  ↔ has_video db vid ∧ sum_overflows (first_week_scan scan db vid src).
Proof.
  intros Hpk. rewrite first_week_query_pk by done.
  rewrite has_video_select. unfold sum_overflows.
  destruct (select_video db vid) as [|v vs]; cbn [head].
  { split; [done|]. by intros [? _]. }
  destruct (first_week_scan scan db vid src) as [|x xs].
  { split; [done|]. by intros [_ ?]. }
  destruct (foldl sum_step (Some 0) (x :: xs)); split; try done.
  by intros [_ ?].
Qed.

(** The answer, when there is one, in terms of the rows of the table. *)
Lemma first_week_query_returns scan db vid src row :
  visits_all scan → videos_pk db →
  first_week_query scan db vid src = Return row →
  row = match head (select_video db vid), first_week_rows db vid src with
        | Some v, m :: ms =>
            Some (title v, published_date v, Some (total_views (m :: ms)))
        | _, _ => None
        end.
Proof.
  intros Hscan Hpk. rewrite first_week_query_pk by done.
  pose proof (first_week_scan_Permutation scan db vid src Hscan) as Hperm.
  destruct (head (select_video db vid)) as [v|]; [|by intros [= <-]].
  destruct (first_week_scan scan db vid src) as [|x xs] eqn:Hxs.
  { symmetry in Hperm. apply Permutation_nil_r, fmap_nil_inv in Hperm.
    rewrite Hperm. by intros [= <-]. }
  destruct (first_week_rows db vid src) as [|m ms] eqn:Hms.
  { by apply Permutation_nil_r in Hperm. }
  destruct (foldl sum_step (Some 0) (x :: xs)) as [total|] eqn:Hsum; [|done].
  intros [= <-]. apply sum_total in Hsum.
  rewrite (foldr_add_Permutation _ _ Hperm) in Hsum.
  unfold total_views. by rewrite Hsum.
Qed.

(** *** The loop over the requested ids *)

Lemma analyze_first_week_performance_cases scan db ids src :
  (analyze_first_week_performance scan db ids src = Raise OperationalError
   ∧ Exists (λ vid, first_week_query scan db vid src = Raise OperationalError)
       ids)
  ∨ (analyze_first_week_performance scan db ids src
     = Return (foldl (λ d vid,
                        match requested_entry scan db src vid with
                        | Some entry => dict_set d vid entry
                        | None => d
                        end) [] ids)
     ∧ Forall (λ vid, ∃ row, first_week_query scan db vid src = Return row)
         ids).
Proof.
  unfold analyze_first_week_performance.
  set (step := λ (results : Result (list (string * FirstWeek))) (vid : string),
         d ← results;
         row ← first_week_query scan db vid src;
         Return (match row with
                 | None => d
                 | Some (t, p, total_views) =>
                     dict_set d vid (mkFirstWeek t p (default 0 total_views))
                 end)).
  set (g := λ (d : list (string * FirstWeek)) (vid : string),
         match requested_entry scan db src vid with
         | Some entry => dict_set d vid entry
         | None => d
         end).
  assert (∀ e ids, foldl step (Raise e) ids = Raise e) as Hraised.
  { intros e l. by induction l. }
  generalize ([] : list (string * FirstWeek)).
  induction ids as [|vid ids IH]; intros d.
  { right. split; [done|constructor]. }
  cbn [foldl].
  destruct (first_week_query scan db vid src) as [row|e] eqn:Hquery.
  - assert (step (Return d) vid = Return (g d vid)) as ->.
    { unfold step, g, requested_entry. cbn. rewrite Hquery. cbn.
      by destruct row as [[[t p] total]|]. }
    destruct (IH (g d vid)) as [[Hraise Hexists]|[Hreturn Hall]].
    + left. split; [done|by right].
    + right. split; [done|]. constructor; [by exists row|done].
  - pose proof (first_week_query_raises _ _ _ _ _ Hquery) as ->.
    assert (step (Return d) vid = Raise OperationalError) as ->.
    { unfold step. cbn. by rewrite Hquery. }
    left. split; [apply Hraised|by left].
Qed.

Lemma requested_entry_returns scan db src vid :
  visits_all scan → videos_pk db →
  (∃ row, first_week_query scan db vid src = Return row) →
  requested_entry scan db src vid
  = match head (select_video db vid), first_week_rows db vid src with
    | Some v, m :: ms =>
        Some (mkFirstWeek (title v) (published_date v) (total_views (m :: ms)))
    | _, _ => None
    end.
Proof.
  intros Hscan Hpk [row Hrow]. unfold requested_entry. rewrite Hrow.
  rewrite (first_week_query_returns _ _ _ _ _ Hscan Hpk Hrow).
  destruct (head (select_video db vid)) as [v|]; [|done].
  by destruct (first_week_rows db vid src).
Qed.

Lemma head_select_video db vid v :
  videos_pk db → v ∈ videos db → video_id v = vid →
  head (select_video db vid) = Some v.
Proof.
  unfold select_video, videos_pk. intros Hpk Hv Hid.
  induction (videos db) as [|u vs IH]; [by apply elem_of_nil in Hv|].
  rewrite fmap_cons, NoDup_cons in Hpk. destruct Hpk as [Hu Hnd].
  apply elem_of_cons in Hv as [->|Hv].
  - by rewrite filter_cons_True.
  - rewrite filter_cons_False; [by apply IH|].
    intros Heq. apply Hu. rewrite Heq, <- Hid.
    apply list_elem_of_fmap. eauto.
Qed.

(** C1 (as the code has it). The scan visits every row of the table
    once, in an order of its own, and the store respects the primary key
    of [videos].  The call raises [OperationalError] exactly when, for a
    requested id that has a video row, the running total of the views of
    its first-week rows leaves the range of an INTEGER; for counts that
    are not negative this is when their sum exceeds [2^63 - 1].
    Otherwise the call returns a dict without repeated keys in which a
    requested video_id is present exactly when it has a row in [videos]
    and at least one metric row of its first seven days from the given
    traffic source (compared as strings); it is then mapped to the video's
    title and published_date and to the sum of the views of exactly those
    rows.  A video_id without such rows, without a video row, or not
    requested, is absent. *)
Theorem analyze_first_week_performance_spec scan db ids src :
  visits_all scan →
  videos_pk db →
  (analyze_first_week_performance scan db ids src = Raise OperationalError
   ↔ ∃ vid, vid ∈ ids ∧ has_video db vid
            ∧ sum_overflows (first_week_scan scan db vid src))
  ∧ (∀ vid,
       Forall (λ m, 0 ≤ views m) (first_week_rows db vid src) →
       sum_overflows (first_week_scan scan db vid src)
       ↔ INT64_MAX < total_views (first_week_rows db vid src))
  ∧ ((∀ vid, vid ∈ ids → has_video db vid →
             ¬ sum_overflows (first_week_scan scan db vid src)) →
     ∃ d,
       analyze_first_week_performance scan db ids src = Return d
       ∧ NoDup d.*1
       ∧ ∀ vid,
           (∀ v, vid ∈ ids → v ∈ videos db → video_id v = vid →
                 first_week_rows db vid src ≠ [] →
                 dict_get d vid =
                   Some (mkFirstWeek (title v) (published_date v)
                           (total_views (first_week_rows db vid src))))
           ∧ (first_week_rows db vid src = [] → dict_get d vid = None)
           ∧ (¬ has_video db vid → dict_get d vid = None)
           ∧ (vid ∉ ids → dict_get d vid = None)).
Proof.
  intros Hscan Hpk.
  set (g := λ (d : list (string * FirstWeek)) (vid : string),
         match requested_entry scan db src vid with
         | Some entry => dict_set d vid entry
         | None => d
         end).
  assert (∀ d r, g d r = match requested_entry scan db src r with
                         | Some c => dict_set d (id r) c
                         | None => d
                         end) as Hg by done.
  assert (Exists (λ vid, first_week_query scan db vid src
                         = Raise OperationalError) ids
          ↔ ∃ vid, vid ∈ ids ∧ has_video db vid
                   ∧ sum_overflows (first_week_scan scan db vid src))
    as Hexists.
  { rewrite Exists_exists. apply exist_proper. intros vid.
    by rewrite first_week_query_overflow. }
  split_and!.
  - rewrite <- Hexists.
    destruct (analyze_first_week_performance_cases scan db ids src)
      as [[-> Hraise]|[-> Hall]]; [done|].
    split; [done|]. intros Hraise. exfalso.
    apply Exists_exists in Hraise as (vid & Hin & Hraise).
    rewrite Forall_forall in Hall. destruct (Hall vid Hin) as [row Hrow].
    congruence.
  - intros vid Hviews.
    pose proof (first_week_scan_Permutation scan db vid src Hscan) as Hperm.
    rewrite sum_overflows_nonneg.
    + unfold total_views. by rewrite (foldr_add_Permutation _ _ Hperm).
    + apply Forall_forall. intros x Hx. rewrite Hperm in Hx.
      apply list_elem_of_fmap in Hx as (m & -> & Hm).
      rewrite Forall_forall in Hviews. by apply Hviews.
  - intros Hsafe.
    destruct (analyze_first_week_performance_cases scan db ids src)
      as [[_ Hraise]|[-> Hall]].
    { exfalso. apply Hexists in Hraise as (vid & Hin & Hvideo & Hover).
      by apply (Hsafe vid). }
    eexists. split; [done|]. fold g.
    split; [apply (dict_fold_NoDup id _ g Hg), NoDup_nil_2|].
    intros vid.
    rewrite (dict_fold_lookup id _ g Hg (requested_entry scan db src))
      by done.
    rewrite list_fmap_id. rewrite Forall_forall in Hall.
    split_and!.
    + intros v Hin Hv Hid Hrows. rewrite decide_True by done.
      rewrite requested_entry_returns by auto.
      rewrite (head_select_video db vid v) by done.
      by destruct (first_week_rows db vid src).
    + intros Hrows. case_decide; [|done].
      rewrite requested_entry_returns by auto. rewrite Hrows.
      by destruct (head _).
    + intros Habs. case_decide; [|done].
      rewrite requested_entry_returns by auto.
      destruct (head (select_video db vid)) as [v|] eqn:Hhd; [|done].
      exfalso. apply Habs, has_video_select.
      by destruct (select_video db vid).
    + intros Hnot. by rewrite decide_False.
Qed.

(** ** Uniqueness constraints *)

(** [UNIQUE(video_id, date, traffic_source)] of [daily_metrics]. *)
Lemma uniqueness_apply_effect db e :
  videos_pk db ∧ NoDup (metric_key <$> daily_metrics db) →
  videos_pk (apply_effect db e)
  ∧ NoDup (metric_key <$> daily_metrics (apply_effect db e)).
Proof.
  unfold videos_pk. intros [Hv Hm].
  destruct e as [| |v|m]; cbn [apply_effect videos daily_metrics];
    (split; [|]); try done.
  - by apply (NoDup_insert_or_replace video_id).
  - by apply (NoDup_insert_or_replace metric_key).
Qed.

Lemma uniqueness_replay db es :
  videos_pk db ∧ NoDup (metric_key <$> daily_metrics db) →
  videos_pk (replay db es)
  ∧ NoDup (metric_key <$> daily_metrics (replay db es)).
Proof.
  revert db. induction es as [|e es IH]; intros db Hdb; [done|].
  cbn. by apply IH, uniqueness_apply_effect.
Qed.

(** X7. The primary key of [videos] and the UNIQUE triple of
    [daily_metrics] hold in every store that the methods produce from a
    fresh database: no video id and no metric key is held by two rows. *)
Lemma reachable_uniqueness db :
  reachable db →
  videos_pk db ∧ NoDup (metric_key <$> daily_metrics db).
Proof.
  induction 1 as [|db v _ IH|db ms _ IH|db w vid n _ IH].
  - split; apply NoDup_nil_2.
  - rewrite coherent_store_video_info. by apply uniqueness_replay.
  - rewrite coherent_store_daily_metrics. by apply uniqueness_replay.
  - rewrite coherent_sync_video. by apply uniqueness_replay.
Qed.

(** * Worked instances *)

(** A closed decidable statement, settled by evaluation. *)
Ltac by_evaluation :=
  lazymatch goal with
  | |- ?P => apply (bool_decide_unpack P); vm_compute; exact I
  end.

(** The ordinals of three calendar days: the first and the last date the
    library represents, and the publication day of the samples. *)
Example date_ordinals :
  Date.ymd 1 1 1 = Date.MINORD
  ∧ Date.ymd 9999 12 31 = Date.MAXORD
  ∧ jan 1 = 738886.
Proof. vm_compute. done. Qed.

(** The scenario of the first-week comparison: 100 + 50 views in the
    first seven days, the 10 views of day 9 left out. *)
Example first_week_scenario :
  analyze_first_week_performance rowid_order db_A ["A"] "BROWSE"
  = Return [("A", mkFirstWeek "Launch" (jan 1) 150)].
Proof. vm_compute. reflexivity. Qed.

(** The traffic source is compared as a string: another capitalisation
    matches no row. *)
Example first_week_case_sensitive :
  analyze_first_week_performance rowid_order db_A ["A"] "browse" = Return [].
Proof. vm_compute. reflexivity. Qed.

(** Two counts of [2^62] views are stored, and their SUM fails. *)
Example first_week_overflow :
  Forall (λ m, INT64_MIN ≤ views m ≤ INT64_MAX) (daily_metrics db_huge)
  ∧ analyze_first_week_performance rowid_order db_huge ["A"] "BROWSE"
    = Raise OperationalError.
Proof. split; [by_evaluation|]. vm_compute. reflexivity. Qed.

(** C1 as stated fails: the orphan metric is a first-week BROWSE row of
    the requested id, and the id is not in the result. *)
Lemma analyze_first_week_performance_orphan :
  "ghost" ∈ ["ghost"]
  ∧ first_week_rows db_orphan "ghost" "BROWSE" = [orphan_metric]
  ∧ analyze_first_week_performance rowid_order db_orphan ["ghost"] "BROWSE"
    = Return [].
Proof. split_and!; [by_evaluation | vm_compute; reflexivity..]. Qed.

(** Video A, requested with B: present with 150 views for BROWSE while B,
    which is not stored, is absent; and the call raises on the store
    whose counts add up to [2^63]. *)
Lemma analyze_first_week_performance_spec_witness :
  (∃ d,
     analyze_first_week_performance rowid_order db_A ["A"; "B"] "BROWSE"
     = Return d
     ∧ dict_get d "A" = Some (mkFirstWeek "Launch" (jan 1) 150)
     ∧ dict_get d "B" = None)
  ∧ analyze_first_week_performance rowid_order db_huge ["A"] "BROWSE"
    = Raise OperationalError.
Proof.
  assert (visits_all rowid_order) as Hscan by (intros rows; reflexivity).
  assert (videos_pk db_A) as Hpk by by_evaluation.
  assert (videos_pk db_huge) as Hpk' by by_evaluation.
  split.
  - destruct (analyze_first_week_performance_spec
                rowid_order db_A ["A"; "B"] "BROWSE" Hscan Hpk)
      as (_ & _ & Hreturn).
    destruct Hreturn as (d & Hd & _ & Hentries).
    { intros vid Hin _.
      apply elem_of_cons in Hin as [->|Hin]; [by_evaluation|].
      apply elem_of_cons in Hin as [->|Hin]; [by_evaluation|].
      by apply elem_of_nil in Hin. }
    exists d. split; [exact Hd|].
    destruct (Hentries "A") as (Hpresent & _).
    destruct (Hentries "B") as (_ & Habsent & _).
    split.
    + apply (Hpresent video_A); [by_evaluation | by_evaluation | reflexivity |].
      vm_compute. discriminate.
    + apply Habsent. vm_compute. reflexivity.
  - destruct (analyze_first_week_performance_spec
                rowid_order db_huge ["A"] "BROWSE" Hscan Hpk') as (Hraise & _).
    apply Hraise. exists "A". split_and!; by_evaluation.
Defined.

(** Two calls: the second writes 120 views to the key that held 100, then
    a metric of another key. *)
Lemma store_daily_metrics_last_write_wins_witness :
  select_metric
    (db_after (store_calls
                 [metrics_A;
                  [mkDailyMetric "A" (jan 1) 0 "BROWSE" 120;
                   mkDailyMetric "A" (jan 1) 0 "YT_SEARCH" 3]]
                 init_database))
    ("A", jan 1, "BROWSE")
  = [mkDailyMetric "A" (jan 1) 0 "BROWSE" 120].
Proof.
  apply (store_daily_metrics_last_write_wins init_database
           [metrics_A;
            [mkDailyMetric "A" (jan 1) 0 "BROWSE" 120;
             mkDailyMetric "A" (jan 1) 0 "YT_SEARCH" 3]]
           metrics_A
           (mkDailyMetric "A" (jan 1) 0 "BROWSE" 120)
           [mkDailyMetric "A" (jan 1) 0 "YT_SEARCH" 3]).
  - reflexivity.
  - by_evaluation.
Defined.

(** A sync of an id the provider does not know, on a store that has
    rows. *)
Lemma sync_video_metadata_failure_witness :
  result (sync_video world_unknown_video "nope" 60 db_A) = Return false
  ∧ db_after (sync_video world_unknown_video "nope" 60 db_A) = db_A
  ∧ Forall (λ e, e = VideosList "nope")
           (effects (sync_video world_unknown_video "nope" 60 db_A)).
Proof.
  apply sync_video_metadata_failure.
  eapply fails_no_record; reflexivity.
Defined.

(** A metric of 2024-01-03 fetched for video A, and the metric of the
    publication day written by a sync. *)
Lemma days_since_published_is_day_difference_witness :
  (∃ v, head (select_video db_A "A") = Some v
        ∧ 2 = jan 3 - published_date v)
  ∧ (∃ v, select_video (db_after (sync_video world_ok "A" 60 init_database)) "A"
          = [v]
          ∧ 0 = jan 1 - published_date v).
Proof.
  destruct (days_since_published_is_day_difference world_ok "A")
    as [Hfetch Hsync].
  split.
  - destruct (Hfetch (jan 3) (jan 15) db_A
                [mkDailyMetric "A" (jan 3) 2 "BROWSE" 100;
                 mkDailyMetric "A" (jan 15) 14 "YT_SEARCH" 7]
                (mkDailyMetric "A" (jan 3) 2 "BROWSE" 100))
      as (v & Hv & _ & Hdays & _).
    + vm_compute. reflexivity.
    + by_evaluation.
    + exists v. split; [exact Hv | exact Hdays].
  - destruct (Hsync 60 init_database
                (mkDailyMetric "A" (jan 1) 0 "BROWSE" 100))
      as (v & Hv & Hdays & _).
    + by_evaluation.
    + exists v. split; [exact Hv | exact Hdays].
Defined.

(** The window of a sync on 2024-01-15 with [days_back = 60]: sixty days
    back is before the publication on 2024-01-01, so the window starts at
    the publication date. *)
Lemma sync_video_window_witness :
  ReportsQuery "A" (jan 1) (jan 15)
    ∈ effects (sync_video world_ok "A" 60 init_database)
  ∧ ∃ info,
      fetched_info world_ok "A" = Some info
      ∧ jan 1 = Z.max (published_date info) (jan 15 - 60)
      ∧ published_date info ≤ jan 1.
Proof.
  destruct (sync_video_window world_ok "A" 60 init_database)
    as (Hsafe & Hlive & _).
  assert (ReportsQuery "A" (jan 1) (jan 15)
            ∈ effects (sync_video world_ok "A" 60 init_database)) as Hin.
  { apply (Hlive video_A _ eq_refl eq_refl).
    by_evaluation. }
  split; [exact Hin|].
  destruct (Hsafe _ _ _ Hin) as (info & Hinfo & _ & Hstart & _ & Hle).
  exists info. split_and!; [exact Hinfo | exact Hstart | exact Hle].
Defined.

(** With [days_back = 7] the window starts a week back. *)
Example sync_video_window_recent :
  effects (sync_video world_ok "A" 7 init_database)
  = [VideosList "A"; InsertVideo video_A;
     ReportsQuery "A" (jan 8) (jan 15);
     InsertMetric (mkDailyMetric "A" (jan 8) 7 "BROWSE" 100);
     InsertMetric (mkDailyMetric "A" (jan 15) 14 "YT_SEARCH" 7)].
Proof. vm_compute. reflexivity. Qed.

(** C5 as stated fails: the metadata is fetched and an analytics client
    exists, yet for [days_back = 1000000] the call ends in the library's
    [OverflowError], after the video row was written and without any
    analytics request. *)
Lemma sync_video_days_back_overflow :
  fetched_info world_ok "A" = Some video_A
  ∧ is_Some (analytics_client world_ok)
  ∧ sync_video world_ok "A" 1000000 init_database
    = mkRun (mkDB [video_A] []) [VideosList "A"; InsertVideo video_A]
            (Raise OverflowError).
Proof. split_and!; [reflexivity | by eexists | vm_compute; reflexivity]. Qed.

(** C6 as stated fails: a store that [store_daily_metrics] produces from
    a fresh database holds a metric whose video is not in [videos]. *)
Lemma referential_integrity_orphan :
  reachable db_orphan
  ∧ daily_metrics db_orphan = [orphan_metric]
  ∧ videos db_orphan = []
  ∧ ¬ referential_integrity db_orphan.
Proof.
  split_and!.
  - apply reachable_store_daily_metrics, reachable_init.
  - reflexivity.
  - reflexivity.
  - by_evaluation.
Qed.

(** A synced store, and the three methods run on the sample store. *)
Lemma referential_integrity_preserved_witness :
  referential_integrity (db_after (sync_video world_ok "A" 60 init_database))
  ∧ (∀ v, referential_integrity (db_after (store_video_info v db_A)))
  ∧ (∀ w vid n, referential_integrity (db_after (sync_video w vid n db_A)))
  ∧ referential_integrity
      (db_after (store_daily_metrics
                   [mkDailyMetric "A" (jan 2) 1 "BROWSE" 80] db_A)).
Proof.
  destruct referential_integrity_preserved as [Hsynced Hkept].
  assert (referential_integrity db_A) as HA by by_evaluation.
  destruct (Hkept db_A HA) as (Hvideo & Hsync & Hmetrics).
  split_and!.
  - apply Hsynced, synced_sync_video, synced_init.
  - exact Hvideo.
  - exact Hsync.
  - apply Hmetrics. by_evaluation.
Defined.

(** C7 as stated fails: the metadata is fetched, the analytics request
    raises, and [sync_video] returns [True]. *)
Lemma sync_video_analytics_failure_swallowed :
  fetched_info world_quota_exceeded "A" = Some video_A
  ∧ analytics_fetch_fails world_quota_exceeded "A" (jan 1) (jan 15)
  ∧ ReportsQuery "A" (jan 1) (jan 15)
      ∈ effects (sync_video world_quota_exceeded "A" 60 init_database)
  ∧ result (sync_video world_quota_exceeded "A" 60 init_database) = Return true
  ∧ result (sync_video world_quota_exceeded "A" 60 init_database) ≠ Return false.
Proof.
  split_and!.
  - reflexivity.
  - by eapply analytics_raised.
  - by_evaluation.
  - reflexivity.
  - discriminate.
Qed.

(** The same sync, through the theorem. *)
Lemma sync_video_analytics_failure_is_success_witness :
  result (sync_video world_quota_exceeded "A" 60 init_database) = Return true
  ∧ db_after (sync_video world_quota_exceeded "A" 60 init_database)
    = db_after (store_video_info video_A init_database)
  ∧ ∀ m, InsertMetric m
           ∉ effects (sync_video world_quota_exceeded "A" 60 init_database).
Proof.
  apply sync_video_analytics_failure_is_success.
  - reflexivity.
  - by_evaluation.
  - eapply analytics_raised; reflexivity.
Defined.

(** Video A renamed, and video B stored for the first time. *)
Lemma store_video_info_upsert_witness :
  select_video
    (db_after ((store_video_info (mkVideoInfo "A" "Launch" (jan 1) "UC1");;
                store_video_info (mkVideoInfo "A" "Relaunch" (jan 1) "UC1"))
                 init_database)) "A"
  = [mkVideoInfo "A" "Relaunch" (jan 1) "UC1"]
  ∧ videos (db_after (store_video_info video_B db_A))
    = videos db_A ++ [video_B].
Proof.
  split.
  - pose proof (store_video_info_upsert init_database
                  "A" "Launch" (jan 1) "UC1" "Relaunch" (jan 1) "UC1")
      as H.
    cbv zeta in H. exact (proj1 H).
  - pose proof (store_video_info_upsert db_A
                  "B" "Draft" (jan 8) "UC1" "Follow-up" (jan 8) "UC1")
      as H.
    cbv zeta in H. destruct H as (_ & _ & _ & _ & Hfresh).
    apply Hfresh. vm_compute. reflexivity.
Defined.

(** The most recent video comes first. *)
Example get_recent_videos_order :
  get_recent_videos db_AB 10 = ["B"; "A"].
Proof. vm_compute. reflexivity. Qed.

(** C9 as stated fails: with [limit = -1] both videos are returned, which
    is more than [limit]. *)
Lemma get_recent_videos_negative_limit :
  get_recent_videos db_AB (-1) = ["B"; "A"]
  ∧ ¬ (Z.of_nat (length (get_recent_videos db_AB (-1))) ≤ -1).
Proof. split; [vm_compute; reflexivity | by_evaluation]. Qed.

(** One id for [limit = 1], all of them for [limit = -1]. *)
Lemma get_recent_videos_limit_and_order_witness :
  Z.of_nat (length (get_recent_videos db_AB 1)) ≤ 1
  ∧ get_recent_videos db_AB (-1) ≡ₚ video_id <$> videos db_AB.
Proof.
  split.
  - destruct (get_recent_videos_limit_and_order db_AB 1) as (Hlen & _ & _).
    apply Hlen. lia.
  - destruct (get_recent_videos_limit_and_order db_AB (-1)) as (_ & Hall & _).
    apply Hall. lia.
Defined.

(** On a fresh store the fetch alone returns nothing; in a sync the
    first metric is written after the video row. *)
Lemma sync_video_writes_for_stored_video_witness :
  fetch_daily_analytics_from_youtube world_ok "A" (jan 1) (jan 15)
    init_database
  = mkRun init_database [] (Return [])
  ∧ has_video
      (replay init_database
         [VideosList "A"; InsertVideo video_A;
          ReportsQuery "A" (jan 1) (jan 15)])
      "A".
Proof.
  destruct (sync_video_writes_for_stored_video world_ok "A")
    as [Habsent Hwrite].
  split.
  - apply Habsent. by_evaluation.
  - apply (Hwrite 60 init_database
             [VideosList "A"; InsertVideo video_A;
              ReportsQuery "A" (jan 1) (jan 15)]
             (mkDailyMetric "A" (jan 1) 0 "BROWSE" 100)
             [InsertMetric (mkDailyMetric "A" (jan 15) 14 "YT_SEARCH" 7)]).
    vm_compute. reflexivity.
Defined.

(** * Further properties of the store and of the sync *)

(** ** Rows are never deleted *)

Lemma keeps_rows_refl db : keeps_rows db db.
Proof. by split. Qed.

Lemma keeps_rows_trans db1 db2 db3 :
  keeps_rows db1 db2 → keeps_rows db2 db3 → keeps_rows db1 db3.
Proof. intros [Hv1 Hm1] [Hv2 Hm2]. split; auto. Qed.

Lemma key_insert_or_replace {A K} `{EqDecision K} (key : A → K) x tbl k :
  k ∈ key <$> tbl → k ∈ key <$> insert_or_replace key x tbl.
Proof.
  rewrite !list_elem_of_fmap. intros (r & -> & Hr).
  destruct (decide (key r = key x)) as [Heq|Hne].
  - exists x. split; [done|]. apply elem_of_insert_or_replace. by left.
  - exists r. split; [done|]. apply elem_of_insert_or_replace. by right.
Qed.

Lemma keeps_rows_apply_effect db e : keeps_rows db (apply_effect db e).
Proof.
  destruct e as [| |v|m]; try apply keeps_rows_refl.
  - split; [|done]. intros vid.
    apply (has_video_apply_effect db (InsertVideo v)).
  - split; [done|]. intros k. cbn [apply_effect daily_metrics].
    apply key_insert_or_replace.
Qed.

Lemma keeps_rows_replay db es : keeps_rows db (replay db es).
Proof.
  revert db. induction es as [|e es IH]; intros db; [apply keeps_rows_refl|].
  eapply keeps_rows_trans; [apply keeps_rows_apply_effect | apply IH].
Qed.

(** X1. No method of the store deletes: after [store_video_info],
    [store_daily_metrics] or [sync_video], whatever its outcome, every
    video id and every metric key that the store held is still there. *)
Theorem store_never_deletes db :
  (∀ v, keeps_rows db (db_after (store_video_info v db)))
  ∧ (∀ ms, keeps_rows db (db_after (store_daily_metrics ms db)))
  ∧ (∀ w vid n, keeps_rows db (db_after (sync_video w vid n db))).
Proof.
  split_and!.
  - intros v. rewrite coherent_store_video_info. apply keeps_rows_replay.
  - intros ms. rewrite coherent_store_daily_metrics. apply keeps_rows_replay.
  - intros w vid n. rewrite coherent_sync_video. apply keeps_rows_replay.
Qed.

(** ** The outcome of a sync *)

Lemma not_metadata_fetch_fails w vid :
  ¬ metadata_fetch_fails w vid ↔ ∃ info, fetched_info w vid = Some info.
Proof.
  rewrite metadata_fetch_fails_fetched_info.
  destruct (fetched_info w vid) as [info|]; split; try done.
  - eauto.
  - by intros [? ?].
Qed.

Lemma sub_days_None d n : ¬ Date.valid (d - n) → Date.sub_days d n = None.
Proof. unfold Date.sub_days, Date.valid. intros ?. by case_decide. Qed.

(** X2. [sync_video] returns [False] exactly when the metadata fetch
    fails, ends in [OverflowError] exactly when the metadata was fetched
    and [today - days_back] is no date, and returns [True] in every other
    case, whatever the analytics provider does. *)
Theorem sync_video_outcome w vid n db :
  (result (sync_video w vid n db) = Return false
   ↔ metadata_fetch_fails w vid)
  ∧ (result (sync_video w vid n db) = Raise OverflowError
     ↔ ¬ metadata_fetch_fails w vid ∧ ¬ Date.valid (today w - n))
  ∧ (result (sync_video w vid n db) = Return true
     ↔ ¬ metadata_fetch_fails w vid ∧ Date.valid (today w - n)).
Proof.
  rewrite !metadata_fetch_fails_fetched_info.
  destruct (fetched_info w vid) as [info|] eqn:Hinfo.
  - destruct (decide (Date.valid (today w - n))) as [Hvalid|Hvalid].
    + rewrite (run_sync_video_fetched _ _ _ _ _ _ Hinfo
                 (sub_days_valid _ _ Hvalid)).
      cbn [result]. split_and!; split; try done; tauto.
    + rewrite run_sync_video, Hinfo, (sub_days_None _ _ Hvalid).
      cbn [result]. split_and!; split; try done; tauto.
  - rewrite run_sync_video, Hinfo. cbn [result].
    split_and!; split; try done; tauto.
Qed.

(** X3. When the metadata was fetched and [today - days_back] is no
    date, the call ends in [OverflowError] with the video row already
    written: the store is the one [store_video_info] leaves, one request
    went to the metadata provider, none to the analytics provider, and no
    metric was written. *)
Theorem sync_video_overflow_after_video_write w vid n db info :
  fetched_info w vid = Some info →
  ¬ Date.valid (today w - n) →
  sync_video w vid n db =
    mkRun (db_after (store_video_info info db))
          [VideosList vid; InsertVideo info]
          (Raise OverflowError).
Proof.
  intros Hinfo Hvalid.
  rewrite run_sync_video, Hinfo, (sub_days_None _ _ Hvalid).
  unfold fetched_info in Hinfo.
  destruct (data_client w); [done|discriminate].
Qed.

Lemma sync_video_overflow_after_video_write_witness :
  sync_video world_ok "A" 1000000 db_A =
    mkRun (db_after (store_video_info video_A db_A))
          [VideosList "A"; InsertVideo video_A]
          (Raise OverflowError).
Proof.
  apply sync_video_overflow_after_video_write; [reflexivity|].
  by_evaluation.
Defined.

(** ** Syncing twice *)

Lemma filter_none {A} (P : A → Prop) `{∀ x, Decision (P x)} l :
  Forall (λ x, ¬ P x) l → filter P l = [].
Proof.
  induction 1 as [|x l Hx _ IH]; [done|]. by rewrite filter_cons_False.
Qed.

Lemma filter_all {A} (P : A → Prop) `{∀ x, Decision (P x)} l :
  Forall P l → filter P l = l.
Proof.
  induction 1 as [|x l Hx _ IH]; [done|].
  by rewrite filter_cons_True, IH.
Qed.

Lemma elem_of_upsert_metrics r tbl ms :
  r ∈ upsert_metrics tbl ms → r ∈ tbl ∨ r ∈ ms.
Proof.
  revert tbl. induction ms as [|m ms IH]; intros tbl; cbn; [by left|].
  intros [Hr|Hr]%IH; [|right; by right].
  apply (elem_of_insert_or_replace metric_key) in Hr as [->|[_ Hr]].
  - right. left.
  - by left.
Qed.

(** The table after a bulk upsert: the rows whose key was not written,
    then what the same upsert leaves in an empty table. *)
Lemma upsert_metrics_split tbl ms :
  upsert_metrics tbl ms =
    filter (λ r, metric_key r ∉ metric_key <$> ms) tbl ++ upsert_metrics [] ms.
Proof.
  revert tbl. induction ms as [|m ms IH]; intros tbl.
  - cbn. rewrite app_nil_r. symmetry. apply filter_all, Forall_forall.
    intros r _. apply not_elem_of_nil.
  - cbn [upsert_metrics foldl]. fold (upsert_metrics
      (insert_or_replace_metric m tbl) ms).
    fold (upsert_metrics (insert_or_replace_metric m []) ms).
    rewrite (IH (insert_or_replace_metric m tbl)).
    rewrite (IH (insert_or_replace_metric m [])).
    unfold insert_or_replace_metric, insert_or_replace.
    rewrite !filter_app, list_filter_filter, filter_nil, app_nil_l.
    rewrite <- app_assoc. f_equal.
    apply list_filter_iff. intros r. rewrite fmap_cons, not_elem_of_cons.
    tauto.
Qed.

Lemma upsert_metrics_twice tbl ms :
  upsert_metrics (upsert_metrics tbl ms) ms = upsert_metrics tbl ms.
Proof.
  rewrite (upsert_metrics_split (upsert_metrics tbl ms)).
  rewrite (upsert_metrics_split tbl ms) at 1.
  rewrite filter_app, list_filter_filter.
  replace (filter _ (upsert_metrics [] ms)) with (@nil DailyMetric).
  - rewrite app_nil_r, (upsert_metrics_split tbl ms). f_equal.
    apply list_filter_iff. tauto.
  - symmetry. apply filter_none, Forall_forall.
    intros r [Hr|Hr]%elem_of_upsert_metrics Hkey;
      [by apply elem_of_nil in Hr|].
    apply Hkey, list_elem_of_fmap. eauto.
Qed.

(** X4. Re-running [sync_video] for the same video while the providers
    answer the same leaves the store, the outcome and the requests as
    after the first run: no row is duplicated and no count changes. *)
Theorem sync_video_twice w vid n db :
  db_after (sync_video w vid n (db_after (sync_video w vid n db)))
    = db_after (sync_video w vid n db)
  ∧ result (sync_video w vid n (db_after (sync_video w vid n db)))
    = result (sync_video w vid n db)
  ∧ effects (sync_video w vid n (db_after (sync_video w vid n db)))
    = effects (sync_video w vid n db).
Proof.
  destruct (fetched_info w vid) as [info|] eqn:Hinfo.
  - destruct (Date.sub_days (today w) n) as [earliest|] eqn:Hsub.
    + rewrite !(run_sync_video_fetched _ _ _ _ _ _ Hinfo Hsub).
      cbn [db_after result effects videos daily_metrics].
      split_and!; [|done..]. f_equal.
      * by apply (insert_or_replace_twice video_id).
      * apply upsert_metrics_twice.
    + rewrite !run_sync_video, Hinfo, Hsub.
      cbn [db_after result effects videos daily_metrics].
      split_and!; [|done..]. f_equal.
      by apply (insert_or_replace_twice video_id).
  - rewrite !run_sync_video, Hinfo. by cbn.
Qed.

(** ** A report is read whole or not at all *)

Lemma mapM_make_metric_readable vid published (rs : list ReportRow) :
  mapM (make_metric vid published) (Some <$> rs)
  = Some (metric_of_row vid published <$> rs).
Proof.
  apply mapM_Some. induction rs as [|r rs IH]; constructor; [done|exact IH].
Qed.

(** X5. When the video is stored and the analytics request answers,
    [fetch_daily_analytics_from_youtube] returns one metric per row, in
    the order of the report, if every row can be read; one row that
    cannot be read makes it return the empty list, the metrics of the
    rows before it included.  The store is not touched either way. *)
Theorem fetch_daily_analytics_whole_or_nothing w vid s e db client published rows :
  analytics_client w = Some client →
  select_published_date db vid = Some published →
  client vid s e = ReportRows rows →
  db_after (fetch_daily_analytics_from_youtube w vid s e db) = db
  ∧ (None ∈ rows →
     result (fetch_daily_analytics_from_youtube w vid s e db) = Return [])
  ∧ (∀ rs, rows = Some <$> rs →
       result (fetch_daily_analytics_from_youtube w vid s e db)
       = Return (metric_of_row vid published <$> rs)).
Proof.
  intros Hclient Hpub Hrows.
  rewrite run_fetch_daily_analytics_from_youtube, Hclient, Hpub, Hrows.
  cbn [db_after result parse_report]. split_and!; [done|..].
  - intros Hnone.
    assert (mapM (make_metric vid published) rows = None) as ->; [|done].
    apply mapM_None, Exists_exists. by exists None.
  - intros rs ->. by rewrite mapM_make_metric_readable.
Qed.

Lemma fetch_daily_analytics_whole_or_nothing_witness :
  result (fetch_daily_analytics_from_youtube world_ok "A" (jan 1) (jan 15) db_A)
  = Return [mkDailyMetric "A" (jan 1) 0 "BROWSE" 100;
            mkDailyMetric "A" (jan 15) 14 "YT_SEARCH" 7]
  ∧ result (fetch_daily_analytics_from_youtube
              (mkWorld (jan 15) None
                 (Some (λ _ s _, ReportRows
                          [Some (mkReportRow s "BROWSE" 100); None])))
              "A" (jan 1) (jan 15) db_A)
    = Return [].
Proof.
  split.
  - destruct (fetch_daily_analytics_whole_or_nothing
                world_ok "A" (jan 1) (jan 15) db_A
                _ (jan 1) _ eq_refl eq_refl eq_refl) as (_ & _ & Hwhole).
    apply (Hwhole [mkReportRow (jan 1) "BROWSE" 100;
                   mkReportRow (jan 15) "YT_SEARCH" 7]).
    reflexivity.
  - destruct (fetch_daily_analytics_whole_or_nothing
                (mkWorld (jan 15) None
                   (Some (λ _ s _, ReportRows
                            [Some (mkReportRow s "BROWSE" 100); None])))
                "A" (jan 1) (jan 15) db_A
                _ (jan 1) _ eq_refl eq_refl eq_refl) as (_ & Hnothing & _).
    apply Hnothing. by_evaluation.
Defined.

(** ** A sync is about one video *)

Lemma writes_only_for_sync_video w vid n db :
  Forall (writes_only_for vid) (effects (sync_video w vid n db)).
Proof.
  destruct (fetched_info w vid) as [info|] eqn:Hinfo.
  - pose proof (fetched_info_video_id _ _ _ Hinfo) as Hid.
    destruct (Date.sub_days (today w) n) as [earliest|] eqn:Hsub.
    + rewrite (run_sync_video_fetched _ _ _ _ _ _ Hinfo Hsub).
      cbn [effects]. apply Forall_app. split.
      { destruct (data_client w); repeat constructor. }
      constructor; [exact Hid|]. apply Forall_app. split.
      { destruct (analytics_client w); repeat constructor. }
      apply Forall_fmap, Forall_forall. intros m Hm. cbn.
      destruct (analytics_client w) as [client|];
        [|by apply elem_of_nil in Hm].
      by apply elem_of_parse_report in Hm as [? _].
    + rewrite run_sync_video, Hinfo, Hsub. cbn [effects].
      apply Forall_app. split; [|by repeat constructor].
      destruct (data_client w); repeat constructor.
  - rewrite run_sync_video, Hinfo. cbn [effects].
    destruct (data_client w); repeat constructor.
Qed.

Lemma other_video_apply_effect db e vid other :
  writes_only_for vid e → other ≠ vid →
  select_video (apply_effect db e) other = select_video db other
  ∧ metrics_of (apply_effect db e) other = metrics_of db other.
Proof.
  intros He Hne. destruct e as [| |v|m]; unfold writes_only_for in He;
    try done.
  - split; [|done]. unfold select_video. cbn [apply_effect videos].
    apply (select_other video_id). by rewrite He.
  - split; [done|]. unfold metrics_of. cbn [apply_effect daily_metrics].
    unfold insert_or_replace_metric, insert_or_replace.
    rewrite filter_app, list_filter_filter.
    rewrite (filter_singleton_False _ m []) by (cbn; congruence).
    rewrite app_nil_r.
    apply list_filter_iff. intros r. split; [tauto|].
    intros Hr. split; [done|]. unfold metric_key. intros [= Hk _ _].
    apply Hne. by rewrite <- Hr, Hk.
Qed.

Lemma other_video_replay db es vid other :
  Forall (writes_only_for vid) es → other ≠ vid →
  select_video (replay db es) other = select_video db other
  ∧ metrics_of (replay db es) other = metrics_of db other.
Proof.
  intros Hes Hne. revert db.
  induction Hes as [|e es He _ IH]; intros db; [done|].
  change (replay db (e :: es)) with (replay (apply_effect db e) es).
  destruct (IH (apply_effect db e)) as [-> ->].
  by apply (other_video_apply_effect db e vid).
Qed.

Lemma sync_video_other_video w vid n db other :
  other ≠ vid →
  select_video (db_after (sync_video w vid n db)) other = select_video db other
  ∧ metrics_of (db_after (sync_video w vid n db)) other = metrics_of db other.
Proof.
  intros Hne. rewrite coherent_sync_video.
  apply (other_video_replay _ _ vid); [|done].
  apply writes_only_for_sync_video.
Qed.

(** X6. [sync_video] changes the rows of the synced video only: the
    video row and the metric rows of every other video are, after the
    call and whatever its outcome, the ones the store held before. *)
Theorem sync_video_touches_one_video w vid n db other :
  other ≠ vid →
  select_video (db_after (sync_video w vid n db)) other = select_video db other
  ∧ metrics_of (db_after (sync_video w vid n db)) other = metrics_of db other.
Proof. apply sync_video_other_video. Qed.

Lemma sync_video_touches_one_video_witness :
  select_video (db_after (sync_video world_ok "B" 60 db_A)) "A" = [video_A]
  ∧ metrics_of (db_after (sync_video world_ok "B" 60 db_A)) "A" = metrics_A.
Proof.
  apply (sync_video_touches_one_video world_ok "B" 60 db_A "A").
  by_evaluation.
Defined.

(** ** The uniqueness constraints, on the sample store *)

Lemma reachable_uniqueness_witness :
  videos_pk db_AB ∧ NoDup (metric_key <$> daily_metrics db_AB).
Proof.
  apply reachable_uniqueness.
  unfold db_AB. apply reachable_store_video_info.
  exact (reachable_store_daily_metrics _ metrics_A
           (reachable_store_video_info _ video_A reachable_init)).
Defined.

(** ** More on recent videos *)

Global Instance published_desc_trans : Transitive published_desc.
Proof. intros a b c. unfold published_desc. lia. Qed.

Lemma key_inj_on {A K} (key : A → K) (l : list A) x y :
  NoDup (key <$> l) → x ∈ l → y ∈ l → key x = key y → x = y.
Proof.
  induction l as [|z l IH]; [by intros _ ?%elem_of_nil|].
  rewrite fmap_cons, NoDup_cons. intros [Hz Hnd] Hx Hy Heq.
  apply elem_of_cons in Hx as [->|Hx]; apply elem_of_cons in Hy as [->|Hy].
  - done.
  - exfalso. apply Hz. rewrite Heq. apply list_elem_of_fmap. eauto.
  - exfalso. apply Hz. rewrite <- Heq. apply list_elem_of_fmap. eauto.
  - by apply IH.
Qed.

(** X8. For a limit that is not negative [get_recent_videos] returns
    exactly [min(limit, number of videos)] ids, so none for [limit = 0];
    every id it returns is the id of a stored video; and in a store that
    respects the primary key no id is returned twice. *)
Theorem get_recent_videos_count db limit :
  (0 ≤ limit →
   length (get_recent_videos db limit)
   = Nat.min (Z.to_nat limit) (length (videos db)))
  ∧ (∀ id, id ∈ get_recent_videos db limit → has_video db id)
  ∧ (videos_pk db → NoDup (get_recent_videos db limit)).
Proof.
  unfold get_recent_videos. split_and!.
  - intros Hlimit. rewrite length_fmap. unfold sql_limit.
    rewrite decide_False by lia.
    by rewrite length_take, merge_sort_Permutation.
  - intros id (v & -> & Hv)%list_elem_of_fmap.
    apply list_elem_of_fmap. exists v. split; [done|].
    apply list_elem_of_lookup_1 in Hv as [i Hi].
    apply lookup_sql_limit, list_elem_of_lookup_2 in Hi.
    by rewrite merge_sort_Permutation in Hi.
  - intros Hpk.
    assert (NoDup (video_id <$> merge_sort published_desc (videos db)))
      as Hsorted by (by rewrite merge_sort_Permutation).
    unfold sql_limit. case_decide; [done|].
    rewrite fmap_take. eapply sublist_NoDup; [exact Hsorted|].
    apply sublist_take.
Qed.

Lemma get_recent_videos_count_witness :
  length (get_recent_videos db_AB 5) = 2%nat
  ∧ length (get_recent_videos db_AB 0) = 0%nat
  ∧ NoDup (get_recent_videos db_AB 5).
Proof.
  split_and!.
  - destruct (get_recent_videos_count db_AB 5) as (Hcount & _ & _).
    apply Hcount. lia.
  - destruct (get_recent_videos_count db_AB 0) as (Hcount & _ & _).
    apply Hcount. lia.
  - destruct (get_recent_videos_count db_AB 5) as (_ & _ & Hnodup).
    apply Hnodup. by_evaluation.
Defined.

(** X9. The ids returned are those of the most recent videos: in a
    store that respects the primary key, a stored video that is left out
    was published no later than every video that is returned. *)
Theorem get_recent_videos_most_recent db limit left_out returned :
  videos_pk db →
  left_out ∈ videos db → returned ∈ videos db →
  video_id left_out ∉ get_recent_videos db limit →
  video_id returned ∈ get_recent_videos db limit →
  published_date left_out ≤ published_date returned.
Proof.
  unfold get_recent_videos, sql_limit.
  intros Hpk Hout Hret Hnot Hin.
  set (sorted := merge_sort published_desc (videos db)) in *.
  assert (sorted ≡ₚ videos db) as Hperm by apply merge_sort_Permutation.
  assert (StronglySorted published_desc sorted) as Hsorted
    by apply (StronglySorted_merge_sort published_desc).
  case_decide as Hneg.
  { exfalso. apply Hnot, list_elem_of_fmap. exists left_out.
    by rewrite Hperm. }
  set (k := Z.to_nat limit) in *.
  rewrite <- (take_drop k sorted) in Hsorted.
  apply (StronglySorted_app_1_elem_of published_desc _ _ returned left_out)
    in Hsorted; [exact Hsorted| |].
  - apply list_elem_of_fmap in Hin as (r & Hid & Hr).
    assert (r ∈ videos db) as Hr'.
    { rewrite <- Hperm. by eapply subseteq_take. }
    by rewrite (key_inj_on video_id (videos db) returned r Hpk Hret Hr' Hid).
  - rewrite <- Hperm, <- (take_drop k sorted) in Hout.
    apply elem_of_app in Hout as [Hout|Hout]; [|done].
    exfalso. apply Hnot, list_elem_of_fmap. eauto.
Qed.

Lemma get_recent_videos_most_recent_witness :
  published_date video_A ≤ published_date video_B.
Proof.
  apply (get_recent_videos_most_recent db_AB 1 video_A video_B);
    by_evaluation.
Defined.

(** ** More on the first-week comparison *)

Lemma elem_of_first_requests ids vid : vid ∈ first_requests ids ↔ vid ∈ ids.
Proof.
  induction ids as [|id0 ids IH]; [done|].
  cbn [first_requests]. rewrite !elem_of_cons, list_elem_of_filter, IH.
  destruct (decide (vid = id0)); tauto.
Qed.

Lemma filter_ext_in {A} (P Q : A → Prop) `{∀ x, Decision (P x)}
    `{∀ x, Decision (Q x)} (l : list A) :
  (∀ x, x ∈ l → P x ↔ Q x) → filter P l = filter Q l.
Proof.
  induction l as [|x l IH]; intros Hext; [done|].
  rewrite !filter_cons.
  destruct (decide (P x)) as [HP|HP], (decide (Q x)) as [HQ|HQ].
  - f_equal. apply IH. intros y Hy. apply Hext. by right.
  - destruct HQ. apply Hext; [left|done].
  - destruct HP. apply Hext; [left|done].
  - apply IH. intros y Hy. apply Hext. by right.
Qed.

(** X10. Requesting the same ids in another order, or some of them more
    than once, changes nothing but the order of the result: both calls
    raise, or both return and the dicts hold the same entries (they are
    equal for Python's [==]).  The items of a result come in the order in
    which their ids are first listed in the request. *)
Theorem analyze_first_week_performance_by_set scan db ids ids' src :
  (∀ vid, vid ∈ ids ↔ vid ∈ ids') →
  (analyze_first_week_performance scan db ids src = Raise OperationalError
   ↔ analyze_first_week_performance scan db ids' src = Raise OperationalError)
  ∧ ∀ d,
      analyze_first_week_performance scan db ids src = Return d →
      d.*1 = filter (λ vid, vid ∈ d.*1) (first_requests ids)
      ∧ ∃ d',
          analyze_first_week_performance scan db ids' src = Return d'
          ∧ ∀ vid, dict_get d' vid = dict_get d vid.
Proof.
  intros Hsame.
  set (g := λ (d : list (string * FirstWeek)) (vid : string),
         match requested_entry scan db src vid with
         | Some entry => dict_set d vid entry
         | None => d
         end).
  assert (∀ d r, g d r = match requested_entry scan db src r with
                         | Some c => dict_set d (id r) c
                         | None => d
                         end) as Hg by done.
  assert (Exists (λ vid, first_week_query scan db vid src
                         = Raise OperationalError) ids →
          Forall (λ vid, ∃ row, first_week_query scan db vid src = Return row)
            ids' → False) as Hboth.
  { intros (vid & Hin & Hraise)%Exists_exists Hall.
    rewrite Forall_forall in Hall. destruct (Hall vid) as [row Hrow].
    - by apply Hsame.
    - congruence. }
  assert (Exists (λ vid, first_week_query scan db vid src
                         = Raise OperationalError) ids' →
          Forall (λ vid, ∃ row, first_week_query scan db vid src = Return row)
            ids → False) as Hboth'.
  { intros (vid & Hin & Hraise)%Exists_exists Hall.
    rewrite Forall_forall in Hall. destruct (Hall vid) as [row Hrow].
    - by apply Hsame.
    - congruence. }
  destruct (analyze_first_week_performance_cases scan db ids src)
    as [[-> Hraise]|[-> Hall]],
     (analyze_first_week_performance_cases scan db ids' src)
    as [[-> Hraise']|[-> Hall']].
  - split; done.
  - by destruct (Hboth Hraise Hall').
  - by destruct (Hboth' Hraise' Hall).
  - split; [done|]. intros d [= <-]. fold g. split.
    + pose proof (dict_fold_order id _ g Hg (requested_entry scan db src)
                    [] ids (λ _, eq_refl)) as Horder.
      rewrite list_fmap_id in Horder. etrans; [exact Horder|].
      apply filter_ext_in. intros vid Hvid.
      apply (proj1 (elem_of_first_requests _ _)) in Hvid.
      rewrite (dict_fold_keys id _ g Hg). split.
      * intros [_ Hentry]. right. by exists vid.
      * intros [Hnil|(r & _ & <- & Hentry)]; [by apply elem_of_nil in Hnil|].
        split; [apply not_elem_of_nil|done].
    + eexists. split; [done|]. intros vid.
      rewrite !(dict_fold_lookup id _ g Hg (requested_entry scan db src))
        by done.
      rewrite !list_fmap_id.
      destruct (decide (vid ∈ ids)) as [Hin|Hin].
      * rewrite decide_True; [done|]. by apply Hsame.
      * rewrite decide_False; [done|]. by rewrite <- Hsame.
Qed.

Lemma analyze_first_week_performance_by_set_witness :
  ∃ d',
    analyze_first_week_performance rowid_order db_AB ["A"; "B"] "BROWSE"
    = Return d'
    ∧ dict_get d' "A" = Some (mkFirstWeek "Launch" (jan 1) 150).
Proof.
  destruct (analyze_first_week_performance_by_set rowid_order db_AB
              ["B"; "A"; "B"] ["A"; "B"] "BROWSE") as [_ Hreturn].
  { intros vid. rewrite !elem_of_cons. rewrite !elem_of_nil. tauto. }
  destruct (Hreturn [("A", mkFirstWeek "Launch" (jan 1) 150)])
    as (_ & d' & Hd' & Hsame).
  { vm_compute. reflexivity. }
  exists d'. split; [exact Hd'|]. by rewrite Hsame.
Defined.

Lemma republished_query scan db v' vid src :
  videos_pk db →
  has_video db (video_id v') →
  (λ row : option (string * Date.t * option Z), snd <$> row)
    <$> first_week_query scan (db_after (store_video_info v' db)) vid src
  = (λ row : option (string * Date.t * option Z), snd <$> row)
      <$> first_week_query scan db vid src.
Proof.
  intros Hpk Hhas.
  assert (videos_pk (db_after (store_video_info v' db))) as Hpk'.
  { rewrite run_store_video_info. unfold videos_pk. cbn [db_after videos].
    by apply (NoDup_insert_or_replace video_id). }
  rewrite !first_week_query_pk by done.
  assert (first_week_scan scan (db_after (store_video_info v' db)) vid src
          = first_week_scan scan db vid src) as -> by done.
  assert (∃ u u', head (select_video (db_after (store_video_info v' db)) vid)
                  = Some u'
                  ∧ head (select_video db vid) = Some u
          ∨ head (select_video (db_after (store_video_info v' db)) vid)
            = head (select_video db vid)) as Hhead.
  { destruct (decide (video_id v' = vid)) as [<-|Hne].
    - apply has_video_select in Hhas.
      destruct (select_video db (video_id v')) as [|u us] eqn:Hu; [done|].
      exists u, v'. left. split; [|done].
      assert (select_video (db_after (store_video_info v' db)) (video_id v')
              = [v']) as ->; [|done].
      rewrite run_store_video_info. apply (select_replaced video_id).
    - exists v', v'. right.
      assert (select_video (db_after (store_video_info v' db)) vid
              = select_video db vid) as ->; [|done].
      rewrite run_store_video_info. by apply (select_other video_id). }
  destruct Hhead as (u & u' & [[-> ->]| ->]).
  - destruct (first_week_scan scan db vid src) as [|x xs]; [done|].
    by destruct (foldl sum_step (Some 0) (x :: xs)).
  - done.
Qed.

(** X11. Storing a video again with another published_date rewrites no
    metric row: the stored days_since_published stay as they were
    computed, and a first-week comparison gives the same views for every
    video, in the same order, as before the update, or raises as it did
    before. *)
Theorem republished_video_keeps_first_week scan db v' ids src :
  videos_pk db →
  has_video db (video_id v') →
  daily_metrics (db_after (store_video_info v' db)) = daily_metrics db
  ∧ views_by_video
      <$> analyze_first_week_performance scan
            (db_after (store_video_info v' db)) ids src
    = views_by_video <$> analyze_first_week_performance scan db ids src
  ∧ ∀ vid,
      (λ d, first_week_views <$> dict_get d vid)
        <$> analyze_first_week_performance scan
              (db_after (store_video_info v' db)) ids src
      = (λ d, first_week_views <$> dict_get d vid)
          <$> analyze_first_week_performance scan db ids src.
Proof.
  intros Hpk Hhas.
  assert (views_by_video
            <$> analyze_first_week_performance scan
                  (db_after (store_video_info v' db)) ids src
          = views_by_video <$> analyze_first_week_performance scan db ids src)
    as Hviews.
  { unfold analyze_first_week_performance.
    set (step := λ (db0 : DB) (results : Result (list (string * FirstWeek)))
                   (vid : string),
           d ← results;
           row ← first_week_query scan db0 vid src;
           Return (match row with
                   | None => d
                   | Some (t, p, total_views) =>
                       dict_set d vid
                         (mkFirstWeek t p (default 0 total_views))
                   end)).
    change (views_by_video
              <$> foldl (step (db_after (store_video_info v' db)))
                    (Return []) ids
            = views_by_video <$> foldl (step db) (Return []) ids).
    assert (∀ r' r : Result (list (string * FirstWeek)),
              views_by_video <$> r' = views_by_video <$> r →
              views_by_video
                <$> foldl (step (db_after (store_video_info v' db))) r' ids
              = views_by_video <$> foldl (step db) r ids) as Hfold;
      [|by apply Hfold].
    induction ids as [|vid ids IH]; intros r' r Hacc; [done|].
    cbn [foldl]. apply IH. unfold step.
    destruct r' as [d'|e'], r as [d|e]; cbn in Hacc; try done.
    injection Hacc as Hacc.
    pose proof (republished_query scan db v' vid src Hpk Hhas) as Hquery.
    cbn [mbind Result_bind].
    destruct (first_week_query scan (db_after (store_video_info v' db)) vid src)
      as [row'|e'],
       (first_week_query scan db vid src) as [row|e];
      cbn in Hquery |- *; try done; [|by injection Hquery as ->].
    injection Hquery as Hquery. f_equal.
    destruct row' as [[[t' p'] total']|], row as [[[t p] total]|];
      cbn in Hquery; try done.
    injection Hquery as ->. unfold views_by_video in *.
    rewrite !dict_set_fmap. cbn [first_week_views]. by rewrite Hacc. }
  split_and!; [done|exact Hviews|].
  intros vid.
  destruct (analyze_first_week_performance scan
              (db_after (store_video_info v' db)) ids src) as [d'|e'],
           (analyze_first_week_performance scan db ids src) as [d|e];
    cbn in Hviews |- *; try done; [|by injection Hviews as ->].
  injection Hviews as Hviews. f_equal.
  rewrite <- !(dict_get_fmap first_week_views).
  unfold views_by_video in Hviews. by rewrite Hviews.
Qed.

(** Video A re-stored as published two days later: the row of its third
    day still counts as day 2 and the first-week views are unchanged. *)
Lemma republished_video_keeps_first_week_witness :
  daily_metrics
    (db_after (store_video_info (mkVideoInfo "A" "Launch" (jan 3) "UC1") db_A))
  = metrics_A
  ∧ views_by_video
      <$> analyze_first_week_performance rowid_order
            (db_after (store_video_info (mkVideoInfo "A" "Launch" (jan 3) "UC1")
                         db_A))
            ["A"] "BROWSE"
    = Return [("A", 150)].
Proof.
  destruct (republished_video_keeps_first_week rowid_order db_A
              (mkVideoInfo "A" "Launch" (jan 3) "UC1") ["A"] "BROWSE")
    as (Hmetrics & Hviews & _); [by_evaluation..|].
  split; [exact Hmetrics|]. rewrite Hviews. vm_compute. reflexivity.
Defined.

(** * Properties of the reports *)

(** ** The descending sort *)

Section sort_desc.
Context {A : Type} (key : A → Z).

Lemma insert_desc_Permutation x l : insert_desc key x l ≡ₚ x :: l.
Proof.
  induction l as [|y l IH]; [done|]. cbn. case_decide; [|done].
  by rewrite IH, Permutation_swap.
Qed.

Lemma sort_desc_Permutation l : sort_desc key l ≡ₚ l.
Proof.
  induction l as [|x l IH]; [done|].
  cbn. by rewrite insert_desc_Permutation, IH.
Qed.

Lemma insert_desc_sorted x l :
  StronglySorted (λ a b, key b ≤ key a) l →
  StronglySorted (λ a b, key b ≤ key a) (insert_desc key x l).
Proof.
  induction 1 as [|y l Hl IH Hy]; cbn; [by repeat constructor|].
  case_decide as Hlt.
  - constructor; [exact IH|].
    rewrite insert_desc_Permutation. constructor; [lia|exact Hy].
  - constructor; [by constructor|].
    constructor; [lia|]. eapply Forall_impl; [exact Hy|].
    intros z Hz. cbn in Hz. lia.
Qed.

Lemma sort_desc_sorted l :
  StronglySorted (λ a b, key b ≤ key a) (sort_desc key l).
Proof.
  induction l as [|x l IH]; [constructor|]. by apply insert_desc_sorted.
Qed.

Lemma insert_desc_stable k x l :
  filter (λ a, key a = k) (insert_desc key x l)
  = filter (λ a, key a = k) (x :: l).
Proof.
  induction l as [|y l IH]; [done|]. cbn [insert_desc].
  case_decide as Hlt; [|done].
  rewrite (filter_cons _ y), IH, !(filter_cons _ x), (filter_cons _ y).
  repeat case_decide; try done; lia.
Qed.

Lemma sort_desc_stable k l :
  filter (λ a, key a = k) (sort_desc key l) = filter (λ a, key a = k) l.
Proof.
  induction l as [|x l IH]; [done|].
  cbn [sort_desc foldr]. fold (sort_desc key l).
  by rewrite insert_desc_stable, !filter_cons, IH.
Qed.

Lemma py_slice_to_take (n : Z) (l : list A) :
  ∃ k, py_slice_to n l = take k l
       ∧ (0 ≤ n → k = Z.to_nat n)
       ∧ (n < 0 → k = (length l - Z.to_nat (- n))%nat).
Proof.
  unfold py_slice_to. case_decide.
  - eexists. split; [done|]. split; [lia|done].
  - eexists. split; [done|]. split; [done|lia].
Qed.
End sort_desc.

(** ** The selection of the view reports *)

(** X12. The videos that a view report lists all have a positive count
    and come from the fetched counts, most views first; every video with
    a positive count that is left out has no more views than each one
    listed.  With [max_results >= 0] at most [max_results] are listed;
    a negative [max_results] drops that many from the end of the
    ranking instead. *)
Theorem top_videos_ranking views max_results :
  StronglySorted (λ a b : string * Z, b.2 ≤ a.2) (top_videos views max_results)
  ∧ (∀ x, x ∈ top_videos views max_results → x ∈ views ∧ 0 < x.2)
  ∧ (∀ x y, x ∈ top_videos views max_results →
            y ∈ views → 0 < y.2 → y ∉ top_videos views max_results →
            y.2 ≤ x.2)
  ∧ (0 ≤ max_results →
     length (top_videos views max_results)
     = Nat.min (Z.to_nat max_results)
         (length (filter (λ x : string * Z, 0 < x.2) views)))
  ∧ (max_results < 0 →
     length (top_videos views max_results)
     = (length (filter (λ x : string * Z, (0 < x.2)%Z) views)
        - Z.to_nat (- max_results))%nat).
Proof.
  unfold top_videos.
  set (positive := filter (λ x : string * Z, 0 < x.2) views).
  set (ranked := sort_desc snd positive).
  assert (ranked ≡ₚ positive) as Hperm by apply sort_desc_Permutation.
  assert (StronglySorted (λ a b : string * Z, b.2 ≤ a.2) ranked) as Hsorted
    by apply sort_desc_sorted.
  destruct (py_slice_to_take max_results ranked) as (k & -> & Hk1 & Hk2).
  rewrite <- (take_drop k ranked) in Hsorted.
  split_and!.
  - by eapply StronglySorted_app_1_l.
  - intros x Hx%subseteq_take. rewrite Hperm in Hx.
    by apply list_elem_of_filter in Hx as [? ?].
  - intros x y Hx Hy Hpos Hout.
    assert (y ∈ ranked) as Hyr.
    { rewrite Hperm. by apply list_elem_of_filter. }
    rewrite <- (take_drop k ranked) in Hyr.
    apply elem_of_app in Hyr as [Hyr|Hyr]; [done|].
    by apply (StronglySorted_app_1_elem_of _ _ _ x y Hsorted).
  - intros Hn. rewrite length_take, (Hk1 Hn). by rewrite Hperm.
  - intros Hn. rewrite length_take, (Hk2 Hn). rewrite Hperm. lia.
Qed.

Lemma top_videos_ranking_witness :
  top_videos [("a", 5); ("b", 0); ("c", 9); ("d", 5)] 2 = [("c", 9); ("a", 5)]
  ∧ length (top_videos [("a", 5); ("b", 0); ("c", 9); ("d", 5)] (-1)) = 2%nat
  ∧ 5 ≤ 9.
Proof.
  destruct (top_videos_ranking [("a", 5); ("b", 0); ("c", 9); ("d", 5)] 2)
    as (_ & _ & Hout & _ & _).
  destruct (top_videos_ranking [("a", 5); ("b", 0); ("c", 9); ("d", 5)] (-1))
    as (_ & _ & _ & _ & Hneg).
  split_and!.
  - vm_compute. reflexivity.
  - apply Hneg. lia.
  - apply (Hout ("c", 9) ("d", 5)); by_evaluation.
Defined.

(** X13. The ranking of a report is stable: videos, or keywords, with
    the same count are listed in the order in which the counts were
    fetched, as far as the cut lets them in. *)
Theorem top_ranking_stable (counts : list (string * Z)) max_results c :
  filter (λ x : string * Z, x.2 = c) (top_keywords counts max_results)
    `prefix_of` filter (λ x : string * Z, x.2 = c) counts
  ∧ (0 < c →
     filter (λ x : string * Z, x.2 = c) (top_videos counts max_results)
       `prefix_of` filter (λ x : string * Z, x.2 = c) counts).
Proof.
  assert (∀ (l : list (string * Z)) k,
            filter (λ x : string * Z, x.2 = c) (take k l)
              `prefix_of` filter (λ x : string * Z, x.2 = c) l) as Hprefix.
  { intros l k. exists (filter (λ x : string * Z, x.2 = c) (drop k l)).
    by rewrite <- filter_app, take_drop. }
  split.
  - unfold top_keywords.
    destruct (py_slice_to_take max_results (sort_desc snd counts))
      as (k & -> & _).
    rewrite <- (sort_desc_stable snd c counts). apply Hprefix.
  - intros Hc. unfold top_videos.
    destruct (py_slice_to_take max_results
                (sort_desc snd (filter (λ x : string * Z, 0 < x.2) counts)))
      as (k & -> & _).
    assert (filter (λ x : string * Z, x.2 = c) counts
            = filter (λ x : string * Z, x.2 = c)
                (sort_desc snd (filter (λ x : string * Z, 0 < x.2) counts)))
      as ->; [|apply Hprefix].
    rewrite sort_desc_stable, list_filter_filter.
    apply list_filter_iff. intros x. lia.
Qed.

Lemma top_ranking_stable_witness :
  filter (λ x : string * Z, x.2 = 5)
    (top_videos [("a", 5); ("b", 0); ("c", 9); ("d", 5)] 3)
  `prefix_of` [("a", 5); ("d", 5)].
Proof.
  destruct (top_ranking_stable [("a", 5); ("b", 0); ("c", 9); ("d", 5)] 3 5)
    as [_ Hvideos].
  apply Hvideos. lia.
Defined.

(** ** Titles cut to the width of a column *)

Lemma string_length_app (s t : string) :
  String.length (s +:+ t) = (String.length s + String.length t)%nat.
Proof. induction s as [|c s IH]; [done|]. simpl. f_equal. exact IH. Qed.

Lemma string_length_substring (n : nat) (s : string) :
  String.length (String.substring 0 n s) = Nat.min n (String.length s).
Proof.
  revert n. induction s as [|c s IH]; intros [|n]; try done.
  simpl. f_equal. apply IH.
Qed.

Lemma truncate_title_length limit keep title :
  (keep + 3 ≤ limit)%nat →
  (String.length (truncate_title limit keep title) ≤ limit)%nat.
Proof.
  intros Hkeep. unfold truncate_title. case_decide; [|lia].
  rewrite string_length_app, string_length_substring. cbn. lia.
Qed.

(** X14. A title cut for a table never exceeds the limit of the column
    (40 characters in the first-week table, 25 in the view reports); a
    title within the limit is shown as it is, a longer one as its first
    [keep] characters followed by three dots; and cutting a cut title
    changes nothing. *)
Theorem truncate_title_fits limit keep title :
  (keep + 3 ≤ limit)%nat →
  (String.length (truncate_title limit keep title) ≤ limit)%nat
  ∧ ((String.length title ≤ limit)%nat →
     truncate_title limit keep title = title)
  ∧ ((limit < String.length title)%nat →
     truncate_title limit keep title = String.substring 0 keep title +:+ "..."
     ∧ String.length (truncate_title limit keep title) = (keep + 3)%nat)
  ∧ truncate_title limit keep (truncate_title limit keep title)
    = truncate_title limit keep title.
Proof.
  intros Hkeep.
  assert ((limit < String.length title)%nat →
          String.length (String.substring 0 keep title +:+ "...")
          = (keep + 3)%nat) as Hcut.
  { intros Hlong. rewrite string_length_app, string_length_substring.
    cbn. lia. }
  destruct (decide (limit < String.length title)%nat) as [Hlong|Hshort].
  - assert (truncate_title limit keep title
            = String.substring 0 keep title +:+ "...") as Heq.
    { unfold truncate_title. by rewrite decide_True. }
    rewrite !Heq. split_and!.
    + rewrite (Hcut Hlong). lia.
    + lia.
    + intros _. by rewrite (Hcut Hlong).
    + unfold truncate_title. rewrite decide_False; [done|].
      rewrite (Hcut Hlong). lia.
  - assert (truncate_title limit keep title = title) as Heq.
    { unfold truncate_title. by rewrite decide_False. }
    rewrite !Heq. split_and!; [lia|done|lia|done].
Qed.

Lemma truncate_title_fits_witness :
  truncate_title 25 22 "Deploying infrastructure with Pulumi"
  = "Deploying infrastructu..."
  ∧ truncate_title 40 37 "Deploying infrastructure with Pulumi"
    = "Deploying infrastructure with Pulumi".
Proof.
  split.
  - destruct (truncate_title_fits 25 22 "Deploying infrastructure with Pulumi")
      as (_ & _ & Hlong & _); [lia|].
    apply Hlong. vm_compute. lia.
  - destruct (truncate_title_fits 40 37 "Deploying infrastructure with Pulumi")
      as (_ & Hshort & _); [lia|].
    apply Hshort. vm_compute. lia.
Defined.

(** ** The batches of [get_video_info] *)

Lemma concat_batches_take {A} (l : list A) (step m : nat) :
  concat ((λ i, take step (drop i l)) <$> ((λ k, k * step)%nat <$> seq 0 m))
  = take (m * step) l.
Proof.
  induction m as [|m IH]; [done|].
  rewrite seq_S, !fmap_app, concat_app, IH. cbn.
  rewrite app_nil_r, take_take_drop. f_equal. lia.
Qed.

(** X15. [get_video_info] asks for the ids in batches that, put end to
    end, are the list of ids: no id is dropped or asked for twice, no
    batch is empty and none has more than the 50 ids the API accepts. *)
Theorem batches_partition video_ids :
  concat (batches video_ids) = video_ids
  ∧ Forall (λ batch, (1 ≤ length batch ≤ 50)%nat) (batches video_ids)
  ∧ length (batches video_ids) = ((length video_ids + 49) / 50)%nat.
Proof.
  unfold batches, py_range_step.
  set (n := length video_ids).
  set (m := ((n + 50 - 1) / 50)%nat).
  assert (n ≤ m * 50 ∧ (m = 0 ∨ (m - 1) * 50 < n))%nat as [Hup Hlow].
  { subst m. pose proof (Nat.div_mod_eq (n + 50 - 1) 50) as Hdiv.
    pose proof (Nat.mod_upper_bound (n + 50 - 1) 50) as Hmod. lia. }
  split_and!.
  - rewrite concat_batches_take. apply take_ge. fold n. lia.
  - apply Forall_fmap, Forall_fmap, Forall_forall.
    intros k Hk%elem_of_seq. cbn.
    rewrite length_take, length_drop. fold n. lia.
  - rewrite !length_fmap, length_seq. subst m. f_equal. lia.
Qed.

(** ** The outcome of [get_video_info] *)

Lemma info_unavailable_lookup video_ids vid :
  info_unavailable video_ids !! vid =
    if decide (vid ∈ video_ids)
    then Some ("Title unavailable", "Unknown")
    else None.
Proof.
  unfold info_unavailable.
  assert (∀ acc : gmap string (string * string),
    foldl (λ d v, <[v := ("Title unavailable", "Unknown")]> d) acc video_ids
      !! vid =
    if decide (vid ∈ video_ids)
    then Some ("Title unavailable", "Unknown")
    else acc !! vid) as Hacc.
  { induction video_ids as [|v ids IH]; intros acc.
    - rewrite decide_False; [done|apply not_elem_of_nil].
    - cbn [foldl]. rewrite IH. destruct (decide (vid ∈ ids)) as [Hin|Hin].
      + rewrite decide_True; [done|by right].
      + destruct (decide (v = vid)) as [->|Hne].
        * rewrite lookup_insert_eq. rewrite decide_True; [done|left].
        * rewrite lookup_insert_ne by done. rewrite decide_False; [done|].
          intros [?|?]%elem_of_cons; congruence. }
  by rewrite Hacc, lookup_empty.
Qed.

Lemma lookup_foldl_insert {A K V} `{Countable K}
    (key : A → K) (val : A → V) (l : list A) (acc : gmap K V) k v :
  foldl (λ d x, <[key x := val x]> d) acc l !! k = Some v →
  (∃ x, x ∈ l ∧ key x = k ∧ val x = v) ∨ acc !! k = Some v.
Proof.
  revert acc. induction l as [|x l IH]; intros acc; cbn; [by right|].
  intros [(y & Hy & Hk & Hv)|Hacc]%IH.
  - left. exists y. split; [by right|done].
  - destruct (decide (key x = k)) as [Hk|Hk].
    + rewrite <- Hk, lookup_insert_eq in Hacc. injection Hacc as <-.
      left. exists x. split; [left|done].
    + rewrite lookup_insert_ne in Hacc by done. by right.
Qed.

Lemma elem_of_concat {A} (x : A) (ls : list (list A)) :
  x ∈ concat ls ↔ ∃ l, x ∈ l ∧ l ∈ ls.
Proof.
  induction ls as [|l ls IH]; cbn.
  - split; [by intros ?%elem_of_nil|]. by intros (l & _ & ?%elem_of_nil).
  - rewrite elem_of_app, IH. split.
    + intros [Hx|(l' & Hx & Hl')]; [exists l|exists l'];
        (split; [done|]); [left|by right].
    + intros (l' & Hx & [->|Hl']%elem_of_cons); [by left|right; eauto].
Qed.

Lemma answers_of_info_fetch videos_list video_ids :
  match mapM (λ batch,
                match videos_list batch with
                | InfoRaised => None
                | InfoItems items => mapM id items
                end) (batches video_ids) with
  | None => info_fetch_fails (Some videos_list) video_ids
  | Some answers =>
      ∀ item, item ∈ concat answers →
        ∃ batch items,
          batch ∈ batches video_ids
          ∧ videos_list batch = InfoItems items
          ∧ Some item ∈ items
  end.
Proof.
  destruct (mapM _ (batches video_ids)) as [answers|] eqn:Hanswers.
  - apply mapM_Some in Hanswers. intros item Hitem.
    apply elem_of_concat in Hitem as (answer & Hitem & Hanswer).
    apply list_elem_of_lookup_1 in Hanswer as [i Hi].
    destruct (Forall2_lookup_r _ _ _ _ _ Hanswers Hi) as (batch & Hb & Hread).
    destruct (videos_list batch) as [|items] eqn:Hresp; [done|].
    exists batch, items. split_and!; [by eapply list_elem_of_lookup_2|done|].
    apply mapM_Some in Hread.
    apply list_elem_of_lookup_1 in Hitem as [j Hj].
    destruct (Forall2_lookup_r _ _ _ _ _ Hread Hj) as (o & Ho & Hid).
    cbn in Hid. subst o. by eapply list_elem_of_lookup_2.
  - apply mapM_None, Exists_exists in Hanswers as (batch & Hb & Hread).
    destruct (videos_list batch) as [|items] eqn:Hresp.
    + by eapply info_raised.
    + apply mapM_None, Exists_exists in Hread as (o & Ho & Hnone).
      cbn in Hnone. subst o. by eapply info_unreadable.
Qed.

Lemma get_video_info_fails strftime_b_d client video_ids :
  info_fetch_fails client video_ids →
  get_video_info strftime_b_d client video_ids = info_unavailable video_ids.
Proof.
  intros Hfail. unfold get_video_info.
  destruct Hfail as [->|videos_list batch -> Hb Hresp
                    |videos_list batch items -> Hb Hresp Hnone]; [done|..].
  - assert (mapM (λ batch,
                match videos_list batch with
                | InfoRaised => None
                | InfoItems items => mapM id items
                end) (batches video_ids) = None) as ->; [|done].
    apply mapM_None, Exists_exists. exists batch. by rewrite Hresp.
  - assert (mapM (λ batch,
                match videos_list batch with
                | InfoRaised => None
                | InfoItems items => mapM id items
                end) (batches video_ids) = None) as ->; [|done].
    apply mapM_None, Exists_exists. exists batch. rewrite Hresp.
    split; [done|]. apply mapM_None, Exists_exists. by exists None.
Qed.

(** X16. [get_video_info] is all or nothing.  When the client cannot be
    built, a request raises or an item cannot be read, every requested id
    is mapped to "Title unavailable" and "Unknown", and nothing else is
    in the result, whatever was read before.  Otherwise every entry comes
    from an item of an answer, under the item's id and with its title
    cut.  In both cases no title in the result has more than 25
    characters. *)
Theorem get_video_info_outcome strftime_b_d client video_ids :
  (info_fetch_fails client video_ids →
   ∀ vid, get_video_info strftime_b_d client video_ids !! vid =
            if decide (vid ∈ video_ids)
            then Some ("Title unavailable", "Unknown")
            else None)
  ∧ (¬ info_fetch_fails client video_ids →
     ∀ vid t d,
       get_video_info strftime_b_d client video_ids !! vid = Some (t, d) →
       ∃ videos_list batch items item,
         client = Some videos_list
         ∧ batch ∈ batches video_ids
         ∧ videos_list batch = InfoItems items
         ∧ Some item ∈ items
         ∧ item_id item = vid
         ∧ t = truncate_title 25 22 (item_title item)
         ∧ d = strftime_b_d (item_publishedAt item))
  ∧ (∀ vid t d,
       get_video_info strftime_b_d client video_ids !! vid = Some (t, d) →
       (String.length t ≤ 25)%nat).
Proof.
  assert (¬ info_fetch_fails client video_ids →
     ∀ vid t d,
       get_video_info strftime_b_d client video_ids !! vid = Some (t, d) →
       ∃ videos_list batch items item,
         client = Some videos_list
         ∧ batch ∈ batches video_ids
         ∧ videos_list batch = InfoItems items
         ∧ Some item ∈ items
         ∧ item_id item = vid
         ∧ t = truncate_title 25 22 (item_title item)
         ∧ d = strftime_b_d (item_publishedAt item)) as Hread.
  { intros Hok vid t d Hlookup. unfold get_video_info in Hlookup.
    destruct client as [videos_list|]; [|by destruct Hok; constructor].
    pose proof (answers_of_info_fetch videos_list video_ids) as Hanswers.
    destruct (mapM _ (batches video_ids)) as [answers|]; [|done].
    apply lookup_foldl_insert in Hlookup as [(item & Hitem & Hid & Hval)|Hempty];
      [|by rewrite lookup_empty in Hempty].
    destruct (Hanswers item Hitem) as (batch & items & Hb & Hresp & Hin).
    injection Hval as <- <-.
    by exists videos_list, batch, items, item. }
  split_and!; [|exact Hread|].
  - intros Hfail vid. rewrite (get_video_info_fails _ _ _ Hfail).
    apply info_unavailable_lookup.
  - intros vid t d Hlookup. unfold get_video_info in Hlookup.
    assert (info_unavailable video_ids !! vid = Some (t, d) →
            (String.length t ≤ 25)%nat) as Hunavailable.
    { rewrite info_unavailable_lookup. case_decide; [|done].
      intros [= <- <-]. cbn. lia. }
    destruct client as [videos_list|]; [|by apply Hunavailable].
    destruct (mapM _ (batches video_ids)) as [answers|];
      [|by apply Hunavailable].
    apply lookup_foldl_insert in Hlookup as [(item & _ & _ & Hval)|Hempty];
      [|by rewrite lookup_empty in Hempty].
    injection Hval as <- _. apply truncate_title_length. lia.
Qed.

Lemma get_video_info_outcome_witness :
  get_video_info (λ _, "Jan 01") None ["A"; "B"] !! "B"
  = Some ("Title unavailable", "Unknown")
  ∧ get_video_info (λ _, "Jan 01") (Some (λ _, InfoRaised)) ["A"; "B"] !! "C"
    = None
  ∧ (String.length "How we moved the build..." ≤ 25)%nat.
Proof.
  destruct (get_video_info_outcome (λ _, "Jan 01") None ["A"; "B"])
    as (Hnone & _ & _).
  destruct (get_video_info_outcome (λ _, "Jan 01") (Some (λ _, InfoRaised))
              ["A"; "B"]) as (Hraised & _ & _).
  destruct (get_video_info_outcome (λ _, "Jan 01") (Some info_client_ok)
              ["A"; "B"]) as (_ & _ & Hlength).
  split_and!.
  - rewrite Hnone by (by constructor). reflexivity.
  - rewrite Hraised; [reflexivity|].
    apply (info_raised _ _ (λ _, InfoRaised) ["A"; "B"]); [done| |done].
    by_evaluation.
  - apply (Hlength "A" _ "Jan 01"). vm_compute. reflexivity.
Defined.

(** ** The [--sync] option *)

Lemma sync_video_unfetched w vid n db :
  metadata_fetch_fails w vid →
  sync_video w vid n db
  = mkRun db (if data_client w is Some _ then [VideosList vid] else [])
          (Return false).
Proof.
  intros Hfail%metadata_fetch_fails_fetched_info.
  by rewrite run_sync_video, Hfail.
Qed.

Lemma sync_video_video_row w vid n db info :
  fetched_info w vid = Some info →
  select_video (db_after (sync_video w vid n db)) vid = [info].
Proof.
  intros Hinfo. pose proof (fetched_info_video_id _ _ _ Hinfo) as <-.
  destruct (Date.sub_days (today w) n) as [earliest|] eqn:Hsub.
  - rewrite (run_sync_video_fetched _ _ _ _ _ _ Hinfo Hsub).
    apply (select_replaced video_id).
  - rewrite run_sync_video, Hinfo, Hsub. apply (select_replaced video_id).
Qed.

Lemma sync_video_returns w vid n db :
  Date.valid (today w - n) →
  ∃ ok, result (sync_video w vid n db) = Return ok
        ∧ (ok = false ↔ metadata_fetch_fails w vid).
Proof.
  intros Hvalid%sub_days_valid.
  pose proof (metadata_fetch_fails_fetched_info w vid) as Hfails.
  destruct (fetched_info w vid) as [info|] eqn:Hinfo.
  - rewrite (run_sync_video_fetched _ _ _ _ _ _ Hinfo Hvalid).
    exists true. split; [done|]. rewrite Hfails. done.
  - rewrite run_sync_video, Hinfo. exists false. split; [done|].
    rewrite Hfails. done.
Qed.

Lemma run_sync_all w video_ids db :
  Date.valid (today w - 60) →
  result (sync_all w video_ids db) = Return ()
  ∧ db_after (sync_all w video_ids db)
    = foldl (λ d vid, db_after (sync_video w vid 60 d)) db video_ids.
Proof.
  intros Hvalid. revert db.
  induction video_ids as [|vid ids IH]; intros db; [done|].
  unfold sync_all. cbn [for_each]. rewrite !run_bind.
  destruct (sync_video_returns w vid 60 db Hvalid) as (ok & -> & _).
  cbn [result db_after]. apply IH.
Qed.

Lemma sync_all_other_video w video_ids db other :
  other ∉ video_ids →
  select_video
    (foldl (λ d vid, db_after (sync_video w vid 60 d)) db video_ids) other
  = select_video db other
  ∧ metrics_of
      (foldl (λ d vid, db_after (sync_video w vid 60 d)) db video_ids) other
    = metrics_of db other.
Proof.
  revert db. induction video_ids as [|vid ids IH]; intros db Hnot; [done|].
  apply not_elem_of_cons in Hnot as [Hne Hnot]. cbn [foldl].
  destruct (IH (db_after (sync_video w vid 60 db)) Hnot) as [-> ->].
  by apply sync_video_other_video.
Qed.

Lemma sync_all_unfetched w video_ids db vid :
  metadata_fetch_fails w vid →
  select_video
    (foldl (λ d v, db_after (sync_video w v 60 d)) db video_ids) vid
  = select_video db vid
  ∧ metrics_of
      (foldl (λ d v, db_after (sync_video w v 60 d)) db video_ids) vid
    = metrics_of db vid.
Proof.
  intros Hfail. revert db.
  induction video_ids as [|v ids IH]; intros db; [done|].
  cbn [foldl]. destruct (IH (db_after (sync_video w v 60 db))) as [-> ->].
  destruct (decide (vid = v)) as [->|Hne].
  - by rewrite (sync_video_unfetched _ _ _ _ Hfail).
  - by apply sync_video_other_video.
Qed.

Lemma sync_all_video_row w video_ids db vid info :
  vid ∈ video_ids → fetched_info w vid = Some info →
  select_video
    (foldl (λ d v, db_after (sync_video w v 60 d)) db video_ids) vid
  = [info].
Proof.
  intros Hin Hinfo. revert db Hin.
  induction video_ids as [|v ids IH]; intros db Hin;
    [by apply elem_of_nil in Hin|].
  cbn [foldl]. destruct (decide (vid ∈ ids)) as [Hlater|Hlast].
  - by apply IH.
  - apply elem_of_cons in Hin as [->|Hin]; [|done].
    destruct (sync_all_other_video w ids (db_after (sync_video w v 60 db)) v
                Hlast) as [-> _].
    by apply sync_video_video_row.
Qed.

Lemma sync_all_referential_integrity w video_ids db :
  referential_integrity db →
  referential_integrity
    (foldl (λ d v, db_after (sync_video w v 60 d)) db video_ids).
Proof.
  revert db. induction video_ids as [|v ids IH]; intros db Hri; [done|].
  cbn [foldl]. by apply IH, referential_integrity_sync_video.
Qed.

(** X17. [--sync recent] with the providers answering the same during
    the batch: the syncs are independent.  The batch ends normally; each
    listed video whose metadata is fetched has, at the end, exactly the
    row that was fetched, whether or not the sync of another video
    failed; a video that is not listed, or whose metadata fetch fails,
    keeps the rows it had; and no metric is left without its video. *)
Theorem main_sync_recent_batch w retrieve sync db :
  str_lower sync = "recent" →
  Date.valid (today w - 30) →
  Date.valid (today w - 60) →
  let video_ids :=
    (get_video_views (retrieve (today w - 30) (today w) 10)).*1 in
  result (main_sync w retrieve (Some sync) db) = Return (Some SyncComplete)
  ∧ (∀ vid info,
       vid ∈ video_ids → fetched_info w vid = Some info →
       select_video (db_after (main_sync w retrieve (Some sync) db)) vid
       = [info])
  ∧ (∀ vid,
       vid ∉ video_ids ∨ metadata_fetch_fails w vid →
       select_video (db_after (main_sync w retrieve (Some sync) db)) vid
       = select_video db vid
       ∧ metrics_of (db_after (main_sync w retrieve (Some sync) db)) vid
         = metrics_of db vid)
  ∧ (referential_integrity db →
     referential_integrity (db_after (main_sync w retrieve (Some sync) db))).
Proof.
  intros Hrecent Hvalid30 Hvalid60 video_ids.
  assert (main_sync w retrieve (Some sync) db
          = mkRun (foldl (λ d v, db_after (sync_video w v 60 d)) db video_ids)
                  (effects (sync_all w video_ids db))
                  (Return (Some SyncComplete)))
    as ->.
  { unfold main_sync. rewrite decide_False by (by intros ->).
    rewrite decide_True by done.
    rewrite (sub_days_valid _ _ Hvalid30). cbn zeta. fold video_ids.
    rewrite run_bind.
    destruct (run_sync_all w video_ids db Hvalid60) as [-> ->].
    cbn. by rewrite app_nil_r. }
  cbn [result db_after]. split_and!.
  - done.
  - intros vid info. apply sync_all_video_row.
  - intros vid [Hnot|Hfail].
    + by apply sync_all_other_video.
    + by apply sync_all_unfetched.
  - apply sync_all_referential_integrity.
Qed.

Lemma main_sync_recent_batch_witness :
  result (main_sync world_only_A retrieve_AB (Some "Recent") db_A)
  = Return (Some SyncComplete)
  ∧ select_video
      (db_after (main_sync world_only_A retrieve_AB (Some "Recent") db_A)) "A"
    = [video_A]
  ∧ select_video
      (db_after (main_sync world_only_A retrieve_AB (Some "Recent") db_A)) "B"
    = select_video db_A "B".
Proof.
  destruct (main_sync_recent_batch world_only_A retrieve_AB "Recent" db_A)
    as (Hresult & Hrow & Hkept & _).
  - reflexivity.
  - by_evaluation.
  - by_evaluation.
  - split_and!.
    + exact Hresult.
    + apply Hrow; [by_evaluation|reflexivity].
    + apply Hkept. right.
      by apply (fails_no_record _ _
                  (λ vid, if decide (vid = "A")
                          then VideosItems
                                 [Some (mkSnippet "Launch" (jan 1) "UC1")]
                          else VideosItems [])).
Defined.

(** X18. [--sync VIDEO_ID], for a value that is not empty and is not a
    spelling of "recent": when [today - 60] is a date the success message
    is printed exactly when the metadata was fetched, also when the
    analytics fetch failed, and the failure message exactly when the
    metadata fetch failed; the store is the one [sync_video] leaves.
    Without the option, or with the empty string for it, nothing is
    synced and no message of the sync is printed. *)
Theorem main_sync_single_message w retrieve sync db :
  sync ≠ "" →
  str_lower sync ≠ "recent" →
  Date.valid (today w - 60) →
  (result (main_sync w retrieve (Some sync) db) = Return (Some (Synced sync))
   ↔ ¬ metadata_fetch_fails w sync)
  ∧ (result (main_sync w retrieve (Some sync) db)
     = Return (Some (FailedToSync sync))
     ↔ metadata_fetch_fails w sync)
  ∧ db_after (main_sync w retrieve (Some sync) db)
    = db_after (sync_video w sync 60 db)
  ∧ main_sync w retrieve None db = mkRun db [] (Return None)
  ∧ main_sync w retrieve (Some "") db = mkRun db [] (Return None).
Proof.
  intros Hgiven Hsingle Hvalid. unfold main_sync.
  rewrite !(decide_False (P := sync = "")) by done.
  rewrite !(decide_False (P := str_lower sync = "recent")) by done.
  rewrite run_bind.
  destruct (sync_video_returns w sync 60 db Hvalid) as (ok & -> & Hok).
  cbn [result db_after]. split_and!; [| |done..].
  - destruct ok; split; try done.
    + intros _ Hfail. by apply Hok in Hfail.
    + intros Hnot. exfalso. by apply Hnot, Hok.
  - destruct ok; split; try done.
    + intros Hfail. by apply Hok in Hfail.
    + intros _. by apply Hok.
Qed.

Lemma main_sync_single_message_witness :
  result (main_sync world_only_A retrieve_AB (Some "B") db_A)
  = Return (Some (FailedToSync "B")).
Proof.
  destruct (main_sync_single_message world_only_A retrieve_AB "B" db_A)
    as (_ & [_ Hfailed] & _).
  - by_evaluation.
  - by_evaluation.
  - by_evaluation.
  - apply Hfailed.
    by apply (fails_no_record _ _
                (λ vid, if decide (vid = "A")
                        then VideosItems
                               [Some (mkSnippet "Launch" (jan 1) "UC1")]
                        else VideosItems [])).
Defined.

(** ** The first-week table *)

Lemma imap_ranks {A B} (f : nat → A → B) (rank : B → nat) (l : list A) n :
  (∀ i x, rank (f i x) = (n + i)%nat) →
  rank <$> imap f l = seq n (length l).
Proof.
  revert f n. induction l as [|x l IH]; intros f n Hrank; [done|].
  cbn. rewrite Hrank, Nat.add_0_r. f_equal.
  apply IH. intros i y. cbn. rewrite Hrank. lia.
Qed.

Lemma StronglySorted_imap {A B} (R : relation A) (R' : relation B)
    (f : nat → A → B) (l : list A) :
  (∀ i j x y, R x y → R' (f i x) (f j y)) →
  StronglySorted R l → StronglySorted R' (imap f l).
Proof.
  intros Hf Hl. revert f Hf.
  induction Hl as [|x l Hl IH Hx]; intros f Hf; [constructor|].
  cbn. constructor.
  - apply IH. intros i j. apply Hf.
  - apply Forall_forall. intros y (i & z & -> & Hz)%elem_of_lookup_imap.
    apply Hf. rewrite Forall_forall in Hx.
    by eapply Hx, list_elem_of_lookup_2.
Qed.

Lemma get_recent_videos_nil db :
  get_recent_videos db 5 = [] ↔ videos db = [].
Proof.
  unfold get_recent_videos, sql_limit. rewrite decide_False by lia.
  split.
  - intros Hnil. apply (f_equal length) in Hnil.
    rewrite length_fmap, length_take, merge_sort_Permutation in Hnil.
    destruct (videos db); [done|cbn in Hnil; lia].
  - intros Hnil. apply nil_length_inv.
    rewrite length_fmap, length_take, merge_sort_Permutation, Hnil. done.
Qed.

Lemma get_recent_videos_stored db limit vid :
  vid ∈ get_recent_videos db limit → has_video db vid.
Proof.
  unfold get_recent_videos. intros (v & -> & Hv)%list_elem_of_fmap.
  apply list_elem_of_fmap. exists v. split; [done|].
  apply list_elem_of_lookup_1 in Hv as [i Hi].
  apply lookup_sql_limit, list_elem_of_lookup_2 in Hi.
  by rewrite merge_sort_Permutation in Hi.
Qed.

(** X19. The first-week comparison prints the message that the
    database has no videos exactly when the [videos] table is empty.  It
    ends in [OperationalError] exactly when the SUM of one of the five
    most recent videos overflows; when the table is not empty and no SUM
    overflows, a table is printed.  A table that is printed has at most
    five rows, ranked 1, 2, ... in descending
    order of first-week views, with titles of at most 40 characters; in a
    store that respects the primary key each row shows a stored video
    that has first-week rows for the traffic source, with the sum of
    their views. *)
Theorem first_week_table_rows scan db src :
  (first_week_table scan db src = Return None ↔ videos db = [])
  ∧ (videos_pk db →
     first_week_table scan db src = Raise OperationalError
     ↔ ∃ vid, vid ∈ get_recent_videos db 5
              ∧ sum_overflows (first_week_scan scan db vid src))
  ∧ (videos_pk db →
     videos db ≠ [] →
     (∀ vid, vid ∈ get_recent_videos db 5 →
             ¬ sum_overflows (first_week_scan scan db vid src)) →
     ∃ rows, first_week_table scan db src = Return (Some rows))
  ∧ ∀ rows,
      first_week_table scan db src = Return (Some rows) →
      (length rows ≤ 5)%nat
      ∧ row_rank <$> rows = seq 1 (length rows)
      ∧ StronglySorted
          (λ a b, row_first_week_views b ≤ row_first_week_views a) rows
      ∧ Forall (λ r, (String.length (row_title r) ≤ 40)%nat) rows
      ∧ (visits_all scan → videos_pk db →
         Forall (λ r, ∃ v,
                   v ∈ videos db
                   ∧ first_week_rows db (video_id v) src ≠ []
                   ∧ row_title r = truncate_title 40 37 (title v)
                   ∧ row_published r = published_date v
                   ∧ row_first_week_views r
                     = total_views (first_week_rows db (video_id v) src))
                rows).
Proof.
  unfold first_week_table.
  pose proof (get_recent_videos_nil db) as Hnil.
  pose proof (get_recent_videos_stored db 5) as Hstored.
  destruct (get_recent_videos db 5) as [|id0 ids] eqn:Hrecent.
  { split_and!; [| | |done].
    - split; [intros _; by apply Hnil|done].
    - intros _. split; [done|]. by intros (vid & ?%elem_of_nil & _).
    - intros _ Hvideos. destruct Hvideos. by apply Hnil. }
  set (recent := id0 :: ids) in *.
  set (g := λ (d : list (string * FirstWeek)) (vid : string),
         match requested_entry scan db src vid with
         | Some entry => dict_set d vid entry
         | None => d
         end).
  assert (∀ d r, g d r = match requested_entry scan db src r with
                         | Some c => dict_set d (id r) c
                         | None => d
                         end) as Hg by done.
  assert (length recent ≤ 5)%nat as Hfive.
  { rewrite <- Hrecent. unfold get_recent_videos, sql_limit.
    rewrite decide_False by lia. rewrite length_fmap, length_take. lia. }
  assert (videos db ≠ []) as Hvideos.
  { intros Hempty. by apply Hnil in Hempty. }
  destruct (analyze_first_week_performance_cases scan db recent src)
    as [[-> Hraise]|[-> Hall]]; cbn [mbind Result_bind].
  { split_and!; [done| | |done].
    - intros Hpk. split; [intros _|done].
      apply Exists_exists in Hraise as (vid & Hin & Hraise).
      apply first_week_query_overflow in Hraise as [_ Hover]; [|done].
      by exists vid.
    - intros Hpk _ Hsafe. exfalso.
      apply Exists_exists in Hraise as (vid & Hin & Hraise).
      apply first_week_query_overflow in Hraise as [_ Hover]; [|done].
      by apply (Hsafe vid). }
  fold g. set (items := foldl g [] recent).
  set (key := λ x : string * FirstWeek, first_week_views x.2).
  split_and!; [done| |by eexists|].
  { intros Hpk. split; [done|]. intros (vid & Hin & Hover). exfalso.
    rewrite Forall_forall in Hall. destruct (Hall vid Hin) as [row Hrow].
    assert (first_week_query scan db vid src = Raise OperationalError)
      as Hraise; [|congruence].
    apply first_week_query_overflow; [done|]. split; [|done].
    by apply Hstored. }
  intros rows [= <-].
  assert (length items ≤ length recent)%nat as Hlen.
  { apply (dict_fold_length id _ g Hg [] recent). }
  split_and!.
  - rewrite length_imap, sort_desc_Permutation. lia.
  - rewrite length_imap. by apply (imap_ranks _ row_rank _ 1).
  - apply (StronglySorted_imap (λ a b, key b ≤ key a)); [done|].
    apply sort_desc_sorted.
  - apply Forall_forall. intros r (i & x & -> & _)%elem_of_lookup_imap.
    cbn. apply truncate_title_length. lia.
  - intros Hscan Hpk. apply Forall_forall.
    intros r (i & [vid entry] & -> & Hx)%elem_of_lookup_imap.
    apply list_elem_of_lookup_2 in Hx.
    rewrite sort_desc_Permutation in Hx.
    apply (dict_get_elem_of _ _ _ (dict_fold_NoDup id _ g Hg [] recent
                                     NoDup_nil_2)) in Hx.
    apply (dict_fold_sound id _ g Hg) in Hx
      as [Hempty|(r & Hr & <- & Hentry)]; [done|].
    change (id r) with r in *.
    rewrite Forall_forall in Hall.
    rewrite requested_entry_returns in Hentry by auto.
    destruct (head (select_video db r)) as [v|] eqn:Hhead; [|done].
    destruct (first_week_rows db r src) as [|m ms] eqn:Hrows; [done|].
    injection Hentry as <-.
    assert (v ∈ select_video db r) as Hv.
    { destruct (select_video db r); [done|].
      injection Hhead as ->. left. }
    apply list_elem_of_filter in Hv as [Hid Hv].
    exists v. rewrite Hid, Hrows. by split_and!.
Qed.

Lemma first_week_table_rows_witness :
  first_week_table rowid_order db_AB "BROWSE"
  = Return (Some [mkTableRow 1 "Launch" (jan 1) 150])
  ∧ (length [mkTableRow 1 "Launch" (jan 1) 150] ≤ 5)%nat
  ∧ Forall (λ r, (String.length (row_title r) ≤ 40)%nat)
      [mkTableRow 1 "Launch" (jan 1) 150]
  ∧ videos db_AB ≠ []
  ∧ first_week_table rowid_order db_huge "BROWSE" = Raise OperationalError.
Proof.
  assert (first_week_table rowid_order db_AB "BROWSE"
          = Return (Some [mkTableRow 1 "Launch" (jan 1) 150])) as Htable.
  { vm_compute. reflexivity. }
  destruct (first_week_table_rows rowid_order db_AB "BROWSE")
    as (Hnone & _ & _ & Hrows).
  destruct (first_week_table_rows rowid_order db_huge "BROWSE")
    as (_ & Hraise & _).
  destruct (Hrows _ Htable) as (Hlength & _ & _ & Htitles & _).
  split_and!; [exact Htable|exact Hlength|exact Htitles| |].
  - intros Hempty. apply Hnone in Hempty. by rewrite Htable in Hempty.
  - apply Hraise; [by_evaluation|]. exists "A". split; by_evaluation.
Defined.

(** ** The search keywords *)

Lemma keyword_kept_spec isspace keyword :
  keyword_kept isspace keyword →
  keyword ≠ "" ∧ keyword ≠ "(not provided)"
  ∧ ∃ c, c ∈ String.list_ascii_of_string keyword ∧ isspace c = false.
Proof.
  unfold keyword_kept. intros [[H1 H2]%andb_True H3]%andb_True.
  apply bool_decide_unpack in H1, H2. split_and!; [done..|].
  apply Is_true_true, existsb_exists in H3 as (c & Hc & Hns).
  exists c. split; [by apply list_elem_of_In|].
  by apply negb_true_iff in Hns.
Qed.

Lemma read_keywords_rows isspace rows keywords :
  read_keywords isspace (KeywordRows rows) = Some keywords →
  (None ∉ rows)
  ∧ ∀ k v, (k, v) ∈ keywords →
      keyword_kept isspace k ∧ Some (k, Some v) ∈ rows.
Proof.
  unfold read_keywords.
  assert (∀ acc : option (list (string * Z)),
    foldl (λ keywords row,
             d ← keywords; r ← row;
             if keyword_kept isspace r.1
             then views ← r.2; Some (dict_set d r.1 views)
             else Some d) acc rows
    = Some keywords →
    (None ∉ rows)
    ∧ ∃ d, acc = Some d
        ∧ ∀ k v, (k, v) ∈ keywords →
            (k, v) ∈ d ∨ (keyword_kept isspace k ∧ Some (k, Some v) ∈ rows))
    as Hacc.
  { induction rows as [|row rows IH]; intros acc; cbn [foldl].
    - intros ->. split; [apply not_elem_of_nil|].
      exists keywords. split; [done|]. intros k v ?. by left.
    - intros (Hnone & d & Hd & Hin)%IH.
      destruct acc as [d0|]; [|done]. destruct row as [[k0 views0]|]; [|done].
      cbn in Hd. split.
      { intros [?|?]%elem_of_cons; done. }
      exists d0. split; [done|]. intros k v [Hkv|[Hkept Hrow]]%Hin.
      + destruct (keyword_kept isspace k0) eqn:Hk0.
        * destruct views0 as [v0|]; [|done]. cbn in Hd. injection Hd as <-.
          apply elem_of_dict_set in Hkv as [[= -> ->]|Hkv]; [|by left].
          right. split; [by rewrite Hk0|left].
        * injection Hd as <-. by left.
      + right. split; [done|by right]. }
  intros (Hnone & d & [= <-] & Hin)%Hacc. split; [done|].
  intros k v [Hnil|?]%Hin; [by apply elem_of_nil in Hnil|done].
Qed.

Lemma try_limits_attempts isspace query last_limit limits :
  (try_limits isspace query last_limit limits).1 `prefix_of` limits
  ∧ ((try_limits isspace query last_limit limits).2 = []
     ∨ ∃ limit,
         last (try_limits isspace query last_limit limits).1 = Some limit
         ∧ read_keywords isspace (query limit)
           = Some (try_limits isspace query last_limit limits).2).
Proof.
  induction limits as [|limit rest [IHp IHk]]; cbn [try_limits].
  - split; [done|by left].
  - destruct (read_keywords isspace (query limit)) as [keywords|] eqn:Hread.
    + cbn. split; [by apply prefix_cons, prefix_nil|].
      right. by exists limit.
    + case_decide; cbn.
      * split; [by apply prefix_cons, prefix_nil|by left].
      * split; [by apply prefix_cons|].
        destruct IHk as [Hnil|(l & Hlast & Hread')]; [by left|].
        right. exists l. split; [|done].
        destruct (try_limits isspace query last_limit rest).1; [done|].
        done.
Qed.

(** X20. [get_search_keywords] asks with the limits [min(max_results,
    25)], 20 and 10, in this order, and stops at the first answer it can
    read: the keywords are then read from that answer, and none of them
    is empty, is ["(not provided)"] or consists of whitespace.  A request
    that raises with limit 10 is never followed by another one, so with
    [max_results = 10] a single failure gives no keywords; so does a
    missing client. *)
Theorem get_search_keywords_attempts isspace client max_results :
  (get_search_keywords isspace client max_results).1
    `prefix_of` limits_to_try max_results
  ∧ (∀ k v,
       (k, v) ∈ (get_search_keywords isspace client max_results).2 →
       k ≠ "" ∧ k ≠ "(not provided)"
       ∧ (∃ c, c ∈ String.list_ascii_of_string k ∧ isspace c = false)
       ∧ ∃ query limit rows,
           client = Some query
           ∧ last (get_search_keywords isspace client max_results).1
             = Some limit
           ∧ query limit = KeywordRows rows
           ∧ (None ∉ rows)
           ∧ Some (k, Some v) ∈ rows)
  ∧ (∀ query keywords,
       client = Some query →
       read_keywords isspace (query (Z.min max_results 25)) = Some keywords →
       get_search_keywords isspace client max_results
       = ([Z.min max_results 25], keywords))
  ∧ (∀ query,
       client = Some query →
       Z.min max_results 25 = 10 →
       read_keywords isspace (query 10) = None →
       get_search_keywords isspace client max_results = ([10], []))
  ∧ (client = None →
     get_search_keywords isspace client max_results = ([], [])).
Proof.
  unfold get_search_keywords. split_and!.
  - destruct client as [query|]; [|apply prefix_nil].
    apply try_limits_attempts.
  - intros k v Hkv. destruct client as [query|];
      [|by apply elem_of_nil in Hkv].
    destruct (try_limits_attempts isspace query 10 (limits_to_try max_results))
      as [_ [Hnil|(limit & Hlast & Hread)]].
    { rewrite Hnil in Hkv. by apply elem_of_nil in Hkv. }
    destruct (query limit) as [|rows] eqn:Hresp; [done|].
    apply read_keywords_rows in Hread as [Hnone Hrows].
    destruct (Hrows k v Hkv) as [Hkept Hrow].
    apply keyword_kept_spec in Hkept as (? & ? & ?).
    split_and!; [done..|]. by exists query, limit, rows.
  - intros query keywords -> Hread. cbn [limits_to_try try_limits].
    by rewrite Hread.
  - intros query -> Hmin Hread. cbn [limits_to_try try_limits].
    rewrite Hmin, Hread. by rewrite decide_True.
  - by intros ->.
Qed.

Lemma get_search_keywords_attempts_witness :
  get_search_keywords ascii_isspace (Some (λ _, KeywordsRaised)) 10 = ([10], [])
  ∧ get_search_keywords ascii_isspace (Some keyword_client_20) 30
    = ([25; 20], [("rocq tutorial", 15)])
  ∧ ∃ rows, keyword_client_20 20 = KeywordRows rows
            ∧ Some ("rocq tutorial", Some 15) ∈ rows.
Proof.
  destruct (get_search_keywords_attempts ascii_isspace
              (Some (λ _, KeywordsRaised)) 10) as (_ & _ & _ & Hlast & _).
  destruct (get_search_keywords_attempts ascii_isspace
              (Some keyword_client_20) 30) as (_ & Hkept & _).
  split_and!.
  - apply (Hlast (λ _, KeywordsRaised)); reflexivity.
  - vm_compute. reflexivity.
  - destruct (Hkept "rocq tutorial" 15)
      as (_ & _ & _ & query & limit & rows & Hclient & Hlimit & Hrows & _ & Hrow).
    { by_evaluation. }
    injection Hclient as <-. injection Hlimit as <-. by exists rows.
Defined.

(** ** Search traffic per video *)

Lemma search_count_first rows c :
  c ≠ 0 →
  search_count rows = Some c
  ↔ ∃ before after,
      rows = before ++ Some ("YT_SEARCH", Some c) :: after
      ∧ Forall (λ r, ∃ s v, r = Some (s, v) ∧ s ≠ "YT_SEARCH") before.
Proof.
  intros Hc. induction rows as [|[[s v]|] rows IH]; cbn [search_count].
  - split; [by intros [= <-]|]. intros (before & after & Hrows & _).
    by destruct before.
  - destruct (decide (s = "YT_SEARCH")) as [->|Hs].
    + split.
      * intros ->. by exists [], rows.
      * intros (before & after & Hrows & Hbefore).
        destruct before as [|r before]; [by injection Hrows as ->|].
        injection Hrows as <- _.
        apply Forall_cons in Hbefore as [(s & v' & [= <- _] & Hs) _]. done.
    + rewrite IH. split.
      * intros (before & after & -> & Hbefore).
        exists (Some (s, v) :: before), after. split; [done|].
        apply Forall_cons. split; [by exists s, v|done].
      * intros (before & after & Hrows & Hbefore).
        destruct before as [|r before]; [by injection Hrows as -> _|].
        injection Hrows as _ ->.
        apply Forall_cons in Hbefore as [_ Hbefore]. by exists before, after.
  - split; [done|]. intros (before & after & Hrows & Hbefore).
    destruct before as [|r before]; [done|]. injection Hrows as <- _.
    by apply Forall_cons in Hbefore as [(s & v & ? & _) _].
Qed.

(** X21. [get_search_traffic_views] keeps, for each video of the first
    report, the views of the first [YT_SEARCH] row of its breakdown, when
    the rows up to that one can be read and the count is positive; what
    comes after that row is not looked at.  A video whose request fails
    or that has no search views is left out, while a frame that raises or
    a row of it that cannot be read, like a missing client, leaves
    nothing at all.  No video is listed twice, and the filter on positive
    counts of the report that follows drops nothing. *)
Theorem get_search_traffic_views_entries total_report client :
  NoDup (get_search_traffic_views total_report client).*1
  ∧ (total_report = None ∨ client = None
     ∨ (∃ rows, total_report = Some rows ∧ None ∈ rows) →
     get_search_traffic_views total_report client = [])
  ∧ (∀ rows query,
       total_report = Some rows → None ∉ rows → client = Some query →
       ∀ vid c,
         (vid, c) ∈ get_search_traffic_views total_report client
         ↔ Some vid ∈ rows ∧ 0 < c
           ∧ ∃ before after,
               query vid
               = TrafficRows (before ++ Some ("YT_SEARCH", Some c) :: after)
               ∧ Forall (λ r, ∃ s v, r = Some (s, v) ∧ s ≠ "YT_SEARCH")
                   before)
  ∧ ∀ max_results,
      top_videos (get_search_traffic_views total_report client) max_results
      = py_slice_to max_results
          (sort_desc snd (get_search_traffic_views total_report client)).
Proof.
  set (entry := λ vid : string,
         match client with
         | None => None
         | Some query =>
             match query vid with
             | TrafficRaised => None
             | TrafficRows traffic_rows =>
                 match search_count traffic_rows with
                 | None => None
                 | Some count => if decide (0 < count) then Some count else None
                 end
             end
         end).
  set (g := λ (d : list (string * Z)) (vid : string),
         match entry vid with Some c => dict_set d vid c | None => d end).
  assert (∀ rows query,
            total_report = Some (Some <$> rows) → client = Some query →
            get_search_traffic_views total_report client = foldl g [] rows)
    as Hread.
  { intros rows query -> Hclient. unfold get_search_traffic_views.
    rewrite Hclient.
    assert (∀ rs d,
      foldl (λ search_views row,
               d ← search_views; video_id ← row;
               Some (match query video_id with
                     | TrafficRaised => d
                     | TrafficRows traffic_rows =>
                         match search_count traffic_rows with
                         | None => d
                         | Some count =>
                             if decide (0 < count)
                             then dict_set d video_id count
                             else d
                         end
                     end)) (Some d) (Some <$> rs)
      = Some (foldl g d rs)) as Hfold.
    { intros rs. induction rs as [|r0 rs IH]; intros d; [done|].
      cbn [fmap list_fmap foldl mbind option_bind]. rewrite IH.
      do 3 f_equal. unfold g, entry. rewrite Hclient.
      destruct (query r0) as [|traffic_rows]; [done|].
      destruct (search_count traffic_rows) as [count|]; [|done].
      by case_decide. }
    destruct rows as [|r rows]; [done|].
    exact (f_equal (default []) (Hfold (r :: rows) [])). }
  assert (∀ d r, g d r = match entry r with
                         | Some c => dict_set d (id r) c
                         | None => d
                         end) as Hg by done.
  assert (get_search_traffic_views total_report client = []
          ∨ ∃ rows query, total_report = Some (Some <$> rows)
                          ∧ client = Some query
                          ∧ get_search_traffic_views total_report client
                            = foldl g [] rows) as Hcases.
  { destruct total_report as [rows|]; [|by left].
    destruct client as [query|]; [|left; by destruct rows].
    destruct (decide (None ∈ rows)) as [Hin|Hnot].
    - left. unfold get_search_traffic_views. destruct rows; [done|].
      by rewrite foldl_unreadable.
    - right. destruct (all_read _ Hnot) as [rs ->]. exists rs, query.
      split_and!; [done..|]. by apply (Hread rs query). }
  assert (Forall (λ x : string * Z, 0 < x.2)
            (get_search_traffic_views total_report client)) as Hpositive.
  { destruct Hcases as [->|(rows & query & _ & _ & ->)]; [done|].
    apply Forall_forall. intros [vid c] Hin. cbn.
    apply (dict_get_elem_of _ _ _ (dict_fold_NoDup id entry g Hg [] rows
                                     (NoDup_nil_2))) in Hin.
    apply (dict_fold_sound id entry g Hg) in Hin
      as [Hnil|(r & _ & _ & Hentry)]; [done|].
    unfold entry in Hentry. destruct client as [q|]; [|done].
    destruct (q r) as [|traffic_rows]; [done|].
    destruct (search_count traffic_rows) as [count|]; [|done].
    case_decide; [|done]. by injection Hentry as <-. }
  split_and!.
  - destruct Hcases as [->|(rows & query & _ & _ & ->)]; [apply NoDup_nil_2|].
    apply (dict_fold_NoDup id entry g Hg), NoDup_nil_2.
  - intros [->|[->|(rows & -> & Hin)]]; [done| |].
    + unfold get_search_traffic_views.
      destruct total_report as [[|]|]; done.
    + unfold get_search_traffic_views. destruct rows; [done|].
      destruct client; [|done]. by rewrite foldl_unreadable.
  - intros rows query Htotal Hnot Hclient vid c.
    destruct (all_read _ Hnot) as [rs ->].
    rewrite (Hread rs query Htotal Hclient).
    pose proof (dict_fold_NoDup id entry g Hg [] rs NoDup_nil_2) as Hnodup.
    assert (entry vid = Some c
            ↔ 0 < c
              ∧ ∃ before after,
                  query vid
                  = TrafficRows (before ++ Some ("YT_SEARCH", Some c) :: after)
                  ∧ Forall (λ r, ∃ s v, r = Some (s, v) ∧ s ≠ "YT_SEARCH")
                      before) as Hentry.
    { unfold entry. rewrite Hclient.
      destruct (query vid) as [|traffic_rows].
      { split; [done|]. by intros (_ & ? & ? & ? & _). }
      split.
      - destruct (search_count traffic_rows) as [count|] eqn:Hcount; [|done].
        case_decide; [|done]. intros [= ->]. split; [done|].
        apply search_count_first in Hcount as (before & after & -> & ?);
          [|lia]. by exists before, after.
      - intros (Hc & before & after & [= ->] & Hbefore).
        assert (search_count (before ++ Some ("YT_SEARCH", Some c) :: after)
                = Some c) as ->.
        { apply search_count_first; [lia|]. by exists before, after. }
        by rewrite decide_True. }
    rewrite <- Hentry. split.
    + intros Hin. apply (dict_get_elem_of _ _ _ Hnodup) in Hin.
      apply (dict_fold_sound id entry g Hg) in Hin
        as [Hnil|(r & Hr & <- & Hr')]; [done|].
      split; [|done]. apply list_elem_of_fmap. by exists r.
    + intros [Hlisted Hvid]. apply elem_of_dict_get.
      apply list_elem_of_fmap in Hlisted as (r & [= <-] & Hr).
      assert (vid ∈ id <$> rs) as Hid by by rewrite list_fmap_id.
      apply last_occurrence in Hid as (pre & r & post & -> & Hkey & Hpost).
      cbn in Hkey. subst r.
      pose proof (dict_fold_last id entry g Hg [] pre vid post Hpost) as Hlast.
      change (id vid) with vid in Hlast. by rewrite Hlast, Hvid.
  - intros max_results. unfold top_videos. f_equal. f_equal.
    by apply filter_all.
Qed.

Lemma get_search_traffic_views_entries_witness :
  get_search_traffic_views (Some [Some "A"; Some "B"]) (Some traffic_client_A)
  = [("A", 30)]
  ∧ get_search_traffic_views (Some [Some "A"; None]) (Some traffic_client_A)
    = []
  ∧ Some "A" ∈ [Some "A"; Some "B"].
Proof.
  destruct (get_search_traffic_views_entries
              (Some [Some "A"; Some "B"]) (Some traffic_client_A))
    as (_ & _ & Hentries & _).
  destruct (get_search_traffic_views_entries
              (Some [Some "A"; None]) (Some traffic_client_A))
    as (_ & Hnothing & _).
  split_and!.
  - vm_compute. reflexivity.
  - apply Hnothing. right. right. exists [Some "A"; None].
    split; [reflexivity|by_evaluation].
  - apply (Hentries [Some "A"; Some "B"] traffic_client_A eq_refl
             ltac:(by_evaluation) eq_refl "A" 30).
    by_evaluation.
Defined.

(** ** Organic views per video *)

Lemma traffic_counts_read rs :
  traffic_counts (read_row <$> rs)
  = Some (sum_views (filter (λ r, r.1 ≠ "ADVERTISING") rs),
          sum_views (filter (λ r, r.1 = "ADVERTISING") rs)).
Proof.
  unfold traffic_counts.
  assert (∀ organic ad,
    foldl (λ counts row,
             c ← counts; r ← row; views ← r.2;
             Some (if decide (r.1 = "ADVERTISING")
                   then (c.1, c.2 + views)
                   else (c.1 + views, c.2)))
          (Some (organic, ad)) (read_row <$> rs)
    = Some (organic + sum_views (filter (λ r, r.1 ≠ "ADVERTISING") rs),
            ad + sum_views (filter (λ r, r.1 = "ADVERTISING") rs))) as Hacc.
  { induction rs as [|[s v] rs IH]; intros organic ad.
    - cbn. by rewrite !Z.add_0_r.
    - cbn [fmap list_fmap foldl read_row mbind option_bind fst snd].
      rewrite !filter_cons. cbn [fst].
      destruct (decide (s = "ADVERTISING")) as [->|Hs].
      + rewrite decide_False by (by intros []). rewrite IH.
        unfold sum_views. rewrite fmap_cons. cbn. do 2 f_equal; lia.
      + rewrite decide_True by done. rewrite IH.
        unfold sum_views. rewrite fmap_cons. cbn. do 2 f_equal; lia. }
  by rewrite Hacc.
Qed.

Lemma traffic_counts_unreadable answer :
  None ∈ answer ∨ (∃ s, Some (s, None) ∈ answer) →
  traffic_counts answer = None.
Proof.
  unfold traffic_counts. generalize (Some (0, 0)).
  assert (∀ rows : list (option (string * option Z)),
    foldl (λ counts row,
             c ← counts; r ← row; views ← r.2;
             Some (if decide (r.1 = "ADVERTISING")
                   then (c.1, c.2 + views)
                   else (c.1 + views, c.2)))
          None rows = None) as Hnone.
  { intros rows. by induction rows. }
  induction answer as [|row answer IH]; intros acc Hbad.
  { destruct Hbad as [Hin|[s Hin]]; by apply elem_of_nil in Hin. }
  cbn [foldl].
  assert (row = None ∨ (∃ s, row = Some (s, None))
          ∨ (None ∈ answer ∨ ∃ s, Some (s, None) ∈ answer)) as Hcases.
  { destruct Hbad as [[<-|?]%elem_of_cons|[s [<-|?]%elem_of_cons]].
    - by left.
    - right. right. by left.
    - right. left. by exists s.
    - right. right. right. by exists s. }
  destruct Hcases as [->|[[s ->]|Hrest]].
  - destruct acc; apply Hnone.
  - destruct acc; apply Hnone.
  - by apply IH.
Qed.

(** X22. The organic count of a video is the sum of the views of the
    rows of its breakdown that are not [ADVERTISING], and with the
    advertising views it adds up to all the views of the breakdown.  The
    total views of the first report take its place when the request
    raises, when a row cannot be read, and also when the advertising
    percentage, which is computed and then dropped, raises. *)
Theorem organic_entry_counts true_div_raises total_views :
  (∀ rs,
     organic_entry true_div_raises (TrafficRows (read_row <$> rs)) total_views
     = if bool_decide (0 < total_views)
          && true_div_raises
               (sum_views (filter (λ r, r.1 = "ADVERTISING") rs)) total_views
       then total_views
       else sum_views (filter (λ r, r.1 ≠ "ADVERTISING") rs))
  ∧ (∀ rs organic_count ad_count,
       traffic_counts (read_row <$> rs) = Some (organic_count, ad_count) →
       organic_count + ad_count = sum_views rs)
  ∧ (∀ answer,
       None ∈ answer ∨ (∃ s, Some (s, None) ∈ answer) →
       organic_entry true_div_raises (TrafficRows answer) total_views
       = total_views)
  ∧ organic_entry true_div_raises TrafficRaised total_views = total_views.
Proof.
  split_and!.
  - intros rs. unfold organic_entry. by rewrite traffic_counts_read.
  - intros rs organic_count ad_count. rewrite traffic_counts_read.
    intros [= <- <-]. unfold sum_views.
    induction rs as [|[s v] rs IH]; [done|].
    rewrite !filter_cons, fmap_cons. cbn [fst snd foldr].
    destruct (decide (s = "ADVERTISING")) as [->|Hs].
    + rewrite decide_False by (by intros []).
      rewrite fmap_cons. cbn [snd foldr]. lia.
    + rewrite decide_True by done.
      rewrite fmap_cons. cbn [snd foldr]. lia.
  - intros answer Hbad. unfold organic_entry.
    by rewrite traffic_counts_unreadable.
  - done.
Qed.

Lemma organic_entry_counts_witness :
  60 + 10 = sum_views [("BROWSE", 40); ("ADVERTISING", 10); ("YT_SEARCH", 20)]
  ∧ organic_entry (λ _ _, false)
      (TrafficRows [Some ("BROWSE", Some 40); Some ("ADVERTISING", None)]) 75
    = 75.
Proof.
  destruct (organic_entry_counts (λ _ _, false) 75) as (_ & Hsum & Hbad & _).
  split.
  - apply (Hsum [("BROWSE", 40); ("ADVERTISING", 10); ("YT_SEARCH", 20)]).
    vm_compute. reflexivity.
  - apply Hbad. right. exists "ADVERTISING". by_evaluation.
Defined.

(** X23. [get_organic_views_per_video] gives every video of the first
    report exactly one entry when the frame can be read and the client is
    there: the entry of a video comes from its last row in the frame.
    Without a client the result is the one of the ratio fallback; an
    empty or failing first report, or a row of it that cannot be read,
    gives the empty dict, whatever was computed before. *)
Theorem get_organic_views_per_video_entries true_div_raises total_report
    client ratio_fallback :
  (total_report = None ∨ total_report = Some [] →
   get_organic_views_per_video true_div_raises total_report client
     ratio_fallback = [])
  ∧ (∀ rows,
       total_report = Some rows → rows ≠ [] → client = None →
       get_organic_views_per_video true_div_raises total_report client
         ratio_fallback = ratio_fallback)
  ∧ (∀ rows query,
       total_report = Some rows → None ∈ rows → client = Some query →
       get_organic_views_per_video true_div_raises total_report client
         ratio_fallback = [])
  ∧ (∀ rows query,
       total_report = Some (Some <$> rows) → client = Some query →
       let organic_views :=
         get_organic_views_per_video true_div_raises total_report client
           ratio_fallback in
       NoDup organic_views.*1
       ∧ (∀ vid, vid ∈ organic_views.*1 ↔ vid ∈ rows.*1)
       ∧ (∀ pre vid total_views post,
            rows = pre ++ (vid, total_views) :: post → vid ∉ post.*1 →
            (vid, organic_entry true_div_raises (query vid) total_views)
              ∈ organic_views)).
Proof.
  split_and!.
  - by intros [->| ->].
  - intros rows -> Hrows ->. by destruct rows.
  - intros rows query -> Hin ->. unfold get_organic_views_per_video.
    destruct rows; [by apply elem_of_nil in Hin|].
    by rewrite foldl_unreadable.
  - intros rows query -> ->.
    set (entry := λ r : string * Z,
           Some (organic_entry true_div_raises (query r.1) r.2)).
    set (g := λ (d : list (string * Z)) (r : string * Z),
           dict_set d r.1 (organic_entry true_div_raises (query r.1) r.2)).
    assert (∀ d r, g d r = match entry r with
                           | Some c => dict_set d (fst r) c
                           | None => d
                           end) as Hg by done.
    assert (get_organic_views_per_video true_div_raises (Some (Some <$> rows))
              (Some query) ratio_fallback = foldl g [] rows) as ->.
    { unfold get_organic_views_per_video. destruct rows as [|r rows]; [done|].
      exact (f_equal (default []) (foldl_read g [] (r :: rows))). }
    cbn zeta. split_and!.
    + apply (dict_fold_NoDup fst entry g Hg), NoDup_nil_2.
    + intros vid. rewrite (dict_fold_keys fst entry g Hg).
      split.
      * intros [Hnil|(r & Hr & <- & _)]; [by apply elem_of_nil in Hnil|].
        apply list_elem_of_fmap. by exists r.
      * intros (r & -> & Hr)%list_elem_of_fmap. right. exists r.
        by split_and!.
    + intros pre vid total_views post -> Hlast. apply elem_of_dict_get.
      exact (dict_fold_last fst entry g Hg [] pre (vid, total_views) post
               Hlast).
Qed.

Lemma get_organic_views_per_video_entries_witness :
  get_organic_views_per_video (λ _ _, false)
    (Some [Some ("A", 120); Some ("B", 45)]) None [("A", 100)]
  = [("A", 100)]
  ∧ ("B", 45)
    ∈ get_organic_views_per_video (λ _ _, false)
        (Some [Some ("A", 120); Some ("B", 45)]) (Some traffic_client_A) [].
Proof.
  destruct (get_organic_views_per_video_entries (λ _ _, false)
              (Some [Some ("A", 120); Some ("B", 45)]) None [("A", 100)])
    as (_ & Hfallback & _).
  destruct (get_organic_views_per_video_entries (λ _ _, false)
              (Some [Some ("A", 120); Some ("B", 45)]) (Some traffic_client_A)
              []) as (_ & _ & _ & Hentries).
  split.
  - by apply (Hfallback [Some ("A", 120); Some ("B", 45)]).
  - destruct (Hentries [("A", 120); ("B", 45)] traffic_client_A eq_refl eq_refl)
      as (_ & _ & Hlast).
    apply (Hlast [("A", 120)] "B" 45 []); [reflexivity|].
    apply not_elem_of_nil.
Defined.

